(** * LVM2 configuration-file engine and MD superblock probe

    A shallow embedding of [lib/config/config.c] (tokeniser, recursive-descent
    parser, serialiser, path lookup) and of [lib/device/dev-md.c] (the probe
    for an MD superblock), with the properties the specification states
    about them.

    Conventions of the embedding.
    - The mapped file [fb, fe) is a [list ascii]; the pointers [tb] and [te]
      of [struct parser] are offsets into it, and [fe] is its length.
    - A NUL-terminated C string is the list of the bytes before its
      terminator.
    - A linked list ([sib] of [config_node], [next] of [config_value]) is a
      Rocq list; the NULL pointer is [nil].
    - [pool_alloc] is taken to succeed.
    - C [int] is 32 bits and [long] 64 bits (LP64).
    - [float] is IEEE 754 binary32 and [double] binary64, a finite value
      being the rational it stands for; conversions round to nearest, ties
      to even, as [strtod], the cast to [float] and [printf] do.
    - Pages are 4096 bytes. What C leaves undefined, a copy of negative
      length or a read past the mapping, is an outcome of its own. *)

From Stdlib Require Import List Ascii String ZArith Lia Bool Arith QArith Qabs
  Qpower Lqa.
Import ListNotations.

#[local] Set Warnings "-register-all".

Local Open Scope Z_scope.

Module Config.

(** ** Characters *)

Definition NUL : ascii := Ascii.zero.

Definition chr (c : ascii) : nat := nat_of_ascii c.

Definition eqc (a b : ascii) : bool := Ascii.eqb a b.

(** [isspace] in the C locale: space, \t, \n, \v, \f, \r. *)
Definition isspace (c : ascii) : bool :=
  let n := chr c in
  ((n =? 32) || ((9 <=? n) && (n <=? 13)))%nat.

Definition isdigit (c : ascii) : bool :=
  let n := chr c in ((48 <=? n) && (n <=? 57))%nat.

Definition dquote : ascii := "034".
Definition backslash : ascii := "092".

Definition str (s : string) : list ascii := list_ascii_of_string s.

(** ** Data model ([config.h]) *)

(** A [float] or a [double] (IEEE 754 binary32 and binary64): the sign bit
    and, for a finite number, its magnitude as a rational in lowest
    terms. *)
Inductive cfloat : Type :=
| F_finite (neg : bool) (q : Q)
| F_inf (neg : bool)
| F_nan.

Inductive config_value : Type :=
| CFG_STRING (s : list ascii)
| CFG_FLOAT (r : cfloat)
| CFG_INT (i : Z).

Inductive config_node : Type :=
  mk_node { key : list ascii;
            child : list config_node;
            v : list config_value }.

(** ** Parser state *)

Inductive token : Type :=
| TOK_INT | TOK_FLOAT | TOK_STRING | TOK_EQ
| TOK_SECTION_B | TOK_SECTION_E | TOK_ARRAY_B | TOK_ARRAY_E
| TOK_IDENTIFIER | TOK_COMMA | TOK_EOF.

Definition token_eqb (a b : token) : bool :=
  match a, b with
  | TOK_INT, TOK_INT | TOK_FLOAT, TOK_FLOAT | TOK_STRING, TOK_STRING
  | TOK_EQ, TOK_EQ | TOK_SECTION_B, TOK_SECTION_B
  | TOK_SECTION_E, TOK_SECTION_E | TOK_ARRAY_B, TOK_ARRAY_B
  | TOK_ARRAY_E, TOK_ARRAY_E | TOK_IDENTIFIER, TOK_IDENTIFIER
  | TOK_COMMA, TOK_COMMA | TOK_EOF, TOK_EOF => true
  | _, _ => false
  end.

Record parser : Type :=
  mk_parser { fb : list ascii;   (* file contents; fe = length fb *)
              t : token;         (* token type *)
              tb : nat;          (* token limits *)
              te : nat;
              line : Z }.        (* line number we are on *)

Definition fe (p : parser) : nat := List.length (fb p).

(** [*q] for a pointer [q] into the file. *)
Definition deref (p : parser) (q : nat) : ascii := nth q (fb p) NUL.

(** The bytes from [q] to the end of the file. *)
Definition from (p : parser) (q : nat) : list ascii := skipn q (fb p).

Definition set_t (p : parser) (x : token) : parser :=
  mk_parser (fb p) x (tb p) (te p) (line p).
Definition set_tb (p : parser) (x : nat) : parser :=
  mk_parser (fb p) (t p) x (te p) (line p).
Definition set_te (p : parser) (x : nat) : parser :=
  mk_parser (fb p) (t p) (tb p) x (line p).
Definition set_line (p : parser) (x : Z) : parser :=
  mk_parser (fb p) (t p) (tb p) (te p) x.

(** ** Tokeniser *)

(** [while ((p->te != p->fe) && keep( *p->te )) p->te++;] counted on the
    bytes from [te] on. *)
Fixpoint span_len (keep : ascii -> bool) (l : list ascii) : nat :=
  match l with
  | c :: l' => if keep c then S (span_len keep l') else O
  | [] => O
  end.

(** The newlines among the first [n] bytes of [l]. *)
Fixpoint newlines (n : nat) (l : list ascii) : Z :=
  match n, l with
  | S n', c :: l' => (if eqc c "010" then 1 else 0) + newlines n' l'
  | _, _ => 0
  end.

Definition not_newline (c : ascii) : bool := negb (eqc c "010").

Fixpoint eat_space_loop (fuel : nat) (p : parser) : parser :=
  match fuel with
  | O => p
  | S fuel' =>
      if (tb p =? fe p)%nat then p
      else if eqc (deref p (te p)) "#" then
        let k := span_len not_newline (from p (te p)) in
        let e := (te p + k)%nat in
        eat_space_loop fuel'
          (mk_parser (fb p) (t p) e e (line p + 1))
      else if isspace (deref p (te p)) then
        let k := span_len isspace (from p (te p)) in
        let e := (te p + k)%nat in
        eat_space_loop fuel'
          (mk_parser (fb p) (t p) e e (line p + newlines k (from p (te p))))
      else p
  end.

(** Every round of the outer loop moves [te] forward, so the bytes left
    bound the number of rounds. *)
Definition _eat_space (p : parser) : parser :=
  eat_space_loop (S (fe p - te p)) p.

(** The string case of [_get_token]: bytes scanned after the opening
    quote. *)
Fixpoint scan_string (l : list ascii) : nat :=
  match l with
  | [] => O
  | c :: l' =>
      if eqc c dquote then O
      else if eqc c backslash then
        match l' with
        | [] => 1%nat
        | _ :: l'' => S (S (scan_string l''))
        end
      else S (scan_string l')
  end.

(** The number case of [_get_token]: bytes scanned after the first one,
    and the token type reached. *)
Fixpoint scan_number (ty : token) (l : list ascii) : nat * token :=
  match l with
  | [] => (O, ty)
  | c :: l' =>
      if eqc c "." then
        if token_eqb ty TOK_FLOAT then (O, ty)
        else let (k, ty') := scan_number TOK_FLOAT l' in (S k, ty')
      else if negb (isdigit c) then (O, ty)
      else let (k, ty') := scan_number ty l' in (S k, ty')
  end.

Definition ident_char (c : ascii) : bool :=
  negb (isspace c) && negb (eqc c "#") && negb (eqc c "=").

Definition _get_token (p0 : parser) : parser :=
  let p := _eat_space (set_tb p0 (te p0)) in
  if (tb p =? fe p)%nat then set_t p TOK_EOF
  else
    let c := deref p (te p) in
    let single ty := mk_parser (fb p) ty (tb p) (S (te p)) (line p) in
    if eqc c "{" then single TOK_SECTION_B
    else if eqc c "}" then single TOK_SECTION_E
    else if eqc c "[" then single TOK_ARRAY_B
    else if eqc c "]" then single TOK_ARRAY_E
    else if eqc c "," then single TOK_COMMA
    else if eqc c "=" then single TOK_EQ
    else if eqc c dquote then
      let e := (S (te p) + scan_string (from p (S (te p))))%nat in
      let e' := if (e =? fe p)%nat then e else S e in
      mk_parser (fb p) TOK_STRING (tb p) e' (line p)
    else if eqc c "." || isdigit c then
      let ty0 := if eqc c "." then TOK_FLOAT else TOK_INT in
      let (k, ty) := scan_number ty0 (from p (S (te p))) in
      mk_parser (fb p) ty (tb p) (S (te p) + k) (line p)
    else
      let k := span_len ident_char (from p (te p)) in
      mk_parser (fb p) TOK_IDENTIFIER (tb p) (te p + k) (line p).

(** ** Results

    A C function that returns 0 after [log_error] is a [Fail] carrying the
    diagnostic and the line it names. *)

Inductive failure : Type :=
| unexpected_token (l : Z)   (* "Parse error at line %d: unexpected token" *)
| expected_a_value (l : Z)   (* "Parse error at line %d: expected a value" *)
| null_value                 (* [_value] returned NULL, nothing logged *)
| undefined_behaviour        (* [strncpy] with a negative length, or a
                                read outside the mapping *)
| out_of_fuel.               (* the model ran out of fuel; never the code *)

Inductive result (A : Type) : Type :=
| Ok (a : A)
| Fail (f : failure).

Arguments Ok {A} a.
Arguments Fail {A} f.

Definition bind {A B : Type} (r : result A) (k : A -> result B) : result B :=
  match r with
  | Ok a => k a
  | Fail f => Fail f
  end.

Notation "x <- e ;; k" := (bind e (fun x => k))
  (at level 61, e at next level, right associativity).
Notation "' pat <- e ;; k" := (bind e (fun x => match x with pat => k end))
  (at level 61, pat pattern, e at next level, right associativity).

(** ** Parser *)

Definition _match_aux (p : parser) (ty : token) : option parser :=
  if token_eqb (t p) ty then Some (_get_token p) else None.

(** The [match] macro. *)
Definition match_ (p : parser) (ty : token) : result parser :=
  match _match_aux p ty with
  | Some p' => Ok p'
  | None => Fail (unexpected_token (line p))
  end.

(** The C string [strncpy] leaves: the bytes before the first NUL. *)
Definition cstr (l : list ascii) : list ascii :=
  firstn (span_len (fun c => negb (eqc c NUL)) l) l.

Definition _dup_tok (p : parser) : result (list ascii) :=
  if (te p <? tb p)%nat then Fail undefined_behaviour
  else Ok (cstr (firstn (te p - tb p) (from p (tb p)))).

(** *** The conversions of libc

    A numeric token starts with a digit or a dot, so the leading white
    space and the sign [strtol] and [strtod] accept never occur. Both read
    from [p->tb] to the first byte they cannot use, not to [p->te]. *)

Definition digit_val (c : ascii) : Z := Z.of_nat (chr c) - 48.

Fixpoint digits_acc (acc : Z) (l : list ascii) : Z :=
  match l with
  | c :: l' => if isdigit c then digits_acc (10 * acc + digit_val c) l' else acc
  | [] => acc
  end.

Definition LONG_MAX : Z := 2 ^ 63 - 1.

(** [strtol(s, 0, 10)]: the value of the leading digits, LONG_MAX on
    overflow. *)
Definition strtol (l : list ascii) : Z := Z.min (digits_acc 0 l) LONG_MAX.

(** The conversion of a [long] to the [int] field [v.i]. *)
Definition to_int (x : Z) : Z := (x + 2 ^ 31) mod 2 ^ 32 - 2 ^ 31.

(** *** Binary floating point

    [round_float prec emin emax n d] rounds the rational [n / d], for
    [0 <= n] and [0 < d], to the nearest number [m * 2 ^ e] with
    [m <= 2 ^ prec] and [emin <= e], ties to the even [m]; [None] is the
    overflow, at [2 ^ emax]. A [double] has [prec = 53], a [float]
    [prec = 24]. *)

(** The integer nearest to [a / b], ties to even. *)
Definition round_div (a b : Z) : Z :=
  let q := a / b in
  let r := a mod b in
  if 2 * r <? b then q
  else if b <? 2 * r then q + 1
  else if Z.even q then q else q + 1.

(** The integer part of the binary logarithm of [n / d]. *)
Definition ilog2 (n d : Z) : Z :=
  let k := Z.log2 n - Z.log2 d in
  if (if 0 <=? k then d * 2 ^ k <=? n else d <=? n * 2 ^ (- k)) then k
  else k - 1.

(** The exponent and the integral significand of the rounded number. *)
Definition float_exp (prec emin n d : Z) : Z :=
  Z.max emin (ilog2 n d - prec + 1).

Definition float_mant (e n d : Z) : Z :=
  if 0 <=? e then round_div n (d * 2 ^ e) else round_div (n * 2 ^ (- e)) d.

Definition round_float (prec emin emax : Z) (n d : Z) : option Q :=
  if n =? 0 then Some 0%Q
  else
    let e := float_exp prec emin n d in
    let m := float_mant e n d in
    if 2 ^ (emax - e) <=? m then None
    else Some (if 0 <=? e then inject_Z (m * 2 ^ e)
               else Qred (m # Z.to_pos (2 ^ (- e)))).

Definition round_double : Z -> Z -> option Q := round_float 53 (-1074) 1024.
Definition round_single : Z -> Z -> option Q := round_float 24 (-149) 128.

(** The conversion of the [double] that [strtod] returns to the [float]
    field [v.r]; past the largest [float] it gives an infinity. *)
Definition to_float (x : cfloat) : cfloat :=
  match x with
  | F_finite neg q =>
      match round_single (Qnum q) (Zpos (Qden q)) with
      | Some q' => F_finite neg q'
      | None => F_inf neg
      end
  | _ => x
  end.

(** The numeral [strtod] finds at the head of [l]: the digits before the
    dot, the digits after it, and what follows them. *)
Definition numeral (l : list ascii) : list ascii * list ascii * list ascii :=
  let ni := span_len isdigit l in
  match skipn ni l with
  | c :: r =>
      if eqc c "." then
        (firstn ni l, firstn (span_len isdigit r) r, skipn (span_len isdigit r) r)
      else (firstn ni l, [], c :: r)
  | [] => (firstn ni l, [], [])
  end.

(** The exponent [strtod] reads after the digits: [e] or [E], an optional
    sign, and at least one digit; 0 when there is none. *)
Definition exponent (l : list ascii) : Z :=
  match l with
  | c :: r =>
      if eqc c "e" || eqc c "E" then
        match r with
        | s :: r' =>
            if eqc s "-" then
              match r' with
              | d :: _ => if isdigit d then - digits_acc 0 r' else 0
              | [] => 0
              end
            else if eqc s "+" then
              match r' with
              | d :: _ => if isdigit d then digits_acc 0 r' else 0
              | [] => 0
              end
            else if isdigit s then digits_acc 0 r else 0
        | [] => 0
        end
      else 0
  | [] => 0
  end.

(** [strtod(s, 0)] on a decimal numeral: the [double] nearest to it; 0
    when there is no digit, an infinity on overflow. *)
Definition strtod (l : list ascii) : cfloat :=
  let '(ip, fp, rest) := numeral l in
  match ip ++ fp with
  | [] => F_finite false 0
  | _ :: _ =>
      let m := digits_acc 0 (ip ++ fp) in
      let x := exponent rest - Z.of_nat (List.length fp) in
      match (if 0 <=? x then round_double (m * 10 ^ x) 1
             else round_double m (10 ^ (- x))) with
      | Some q => F_finite false q
      | None => F_inf false
      end
  end.

(** *** The end of the mapping

    [mmap] maps whole pages and fills with zeros what is left of the last
    one, so the byte at [p->fe] reads as NUL, unless the file ends on a
    page boundary: there it lies outside the mapping. [strtol] and
    [strtod] stop at the first byte they cannot use, and read the byte at
    [p->fe] when the text they can use runs to the end of the file. *)

Definition PAGE_SIZE : Z := 4096.

Definition unmapped_end (p : parser) : bool :=
  Z.of_nat (fe p) mod PAGE_SIZE =? 0.

Definition strtol_past (l : list ascii) : bool := forallb isdigit l.

Definition exponent_past (l : list ascii) : bool :=
  match l with
  | [] => true
  | c :: r =>
      if eqc c "e" || eqc c "E" then
        match r with
        | [] => true
        | s :: r' =>
            if eqc s "-" || eqc s "+" then forallb isdigit r'
            else forallb isdigit r
        end
      else false
  end.

Definition strtod_past (l : list ascii) : bool :=
  let '(ip, fp, rest) := numeral l in
  match ip ++ fp with
  | [] => match rest with [] => true | _ :: _ => false end
  | _ :: _ => exponent_past rest
  end.

(** *** Productions *)

Definition _type (p : parser) : result (config_value * parser) :=
  match t p with
  | TOK_INT =>
      if strtol_past (from p (tb p)) && unmapped_end p
      then Fail undefined_behaviour
      else
        let i := to_int (strtol (from p (tb p))) in
        p' <- match_ p TOK_INT ;;
        Ok (CFG_INT i, p')
  | TOK_FLOAT =>
      if strtod_past (from p (tb p)) && unmapped_end p
      then Fail undefined_behaviour
      else
        let r := to_float (strtod (from p (tb p))) in
        p' <- match_ p TOK_FLOAT ;;
        Ok (CFG_FLOAT r, p')
  | TOK_STRING =>
      (* p->tb++, p->te--; strip the quotes *)
      if (te p =? 0)%nat then Fail undefined_behaviour
      else
        let p1 := set_te (set_tb p (S (tb p))) (pred (te p)) in
        s <- _dup_tok p1 ;;
        let p2 := set_te p1 (S (te p1)) in
        p' <- match_ p2 TOK_STRING ;;
        Ok (CFG_STRING s, p')
  | _ => Fail (expected_a_value (line p))
  end.

(** The loop [while (p->t != TOK_ARRAY_E)] of [_value]; the values come
    back linked in source order. *)
Fixpoint array_body (fuel : nat) (p : parser)
  : result (list config_value * parser) :=
  match fuel with
  | O => Fail out_of_fuel
  | S fuel' =>
      if token_eqb (t p) TOK_ARRAY_E then Ok ([], p)
      else
        '(l, p1) <- _type p ;;
        p2 <- (if token_eqb (t p1) TOK_COMMA then match_ p1 TOK_COMMA
               else Ok p1) ;;
        '(ls, p3) <- array_body fuel' p2 ;;
        Ok (l :: ls, p3)
  end.

Definition _value (fuel : nat) (p : parser)
  : result (list config_value * parser) :=
  if token_eqb (t p) TOK_ARRAY_B then
    p1 <- match_ p TOK_ARRAY_B ;;
    '(h, p2) <- array_body fuel p1 ;;
    p3 <- match_ p2 TOK_ARRAY_E ;;
    Ok (h, p3)
  else
    '(h, p1) <- _type p ;;
    Ok ([h], p1).

(** [_section], and the loop [while (p->t != TOK_SECTION_E)] inside it. *)
Fixpoint _section (fuel : nat) (p : parser) {struct fuel}
  : result (config_node * parser) :=
  match fuel with
  | O => Fail out_of_fuel
  | S fuel' =>
      k <- _dup_tok p ;;
      p1 <- match_ p TOK_IDENTIFIER ;;
      if token_eqb (t p1) TOK_SECTION_B then
        p2 <- match_ p1 TOK_SECTION_B ;;
        '(ns, p3) <- section_body fuel' p2 ;;
        p4 <- match_ p3 TOK_SECTION_E ;;
        Ok (mk_node k ns [], p4)
      else
        p2 <- match_ p1 TOK_EQ ;;
        '(vs, p3) <- _value fuel' p2 ;;
        match vs with
        | [] => Fail null_value
        | _ :: _ => Ok (mk_node k [] vs, p3)
        end
  end
with section_body (fuel : nat) (p : parser) {struct fuel}
  : result (list config_node * parser) :=
  match fuel with
  | O => Fail out_of_fuel
  | S fuel' =>
      if token_eqb (t p) TOK_SECTION_E then Ok ([], p)
      else
        '(n, p1) <- _section fuel' p ;;
        '(ns, p2) <- section_body fuel' p1 ;;
        Ok (n :: ns, p2)
  end.

Fixpoint _file (fuel : nat) (p : parser) : result (list config_node) :=
  match fuel with
  | O => Fail out_of_fuel
  | S fuel' =>
      if token_eqb (t p) TOK_EOF then Ok []
      else
        '(n, p1) <- _section fuel' p ;;
        ns <- _file fuel' p1 ;;
        Ok (n :: ns)
  end.

(** ** [read_config]

    The model starts from the mapped file; [stat], [open], [mmap] and
    [munmap] are taken to succeed. [cf_root] is [cf->root] afterwards and
    [logged] the diagnostic, if any. *)

Record read_outcome : Type :=
  mk_outcome { ret : Z; cf_root : list config_node; logged : option failure }.

Definition parse_fuel (buf : list ascii) : nat := (2 * List.length buf + 2)%nat.

Definition read_config (buf : list ascii) : read_outcome :=
  let p := _get_token (mk_parser buf TOK_EOF 0 0 1) in
  match _file (parse_fuel buf) p with
  | Ok [] => mk_outcome 0 [] None
  | Ok root => mk_outcome 1 root None
  | Fail null_value => mk_outcome 0 [] None
  | Fail f => mk_outcome 0 [] (Some f)
  end.

(** ** Serialiser *)

Definition MAX_INDENT : nat := 32.

Definition digit_char (d : Z) : ascii := ascii_of_nat (48 + Z.to_nat d).

(** The decimal digits of [n], least significant first. *)
Fixpoint rev_digits (fuel : nat) (n : Z) : list ascii :=
  match fuel with
  | O => []
  | S fuel' =>
      digit_char (n mod 10)
        :: (if n <? 10 then [] else rev_digits fuel' (n / 10))
  end.

Definition print_uint (n : Z) : list ascii :=
  rev (rev_digits (S (Z.to_nat (Z.log2 n))) n).

(** [printf("%d", i)] *)
Definition print_d (i : Z) : list ascii :=
  if i <? 0 then "-"%char :: print_uint (- i) else print_uint i.

(** The millionths in the magnitude [q], rounded to the nearest, ties to
    even. *)
Definition millionths (q : Q) : Z :=
  round_div (Z.abs (Qnum q) * 10 ^ 6) (Zpos (Qden q)).

(** [printf("%f", r)], where the [float] is passed as a [double] of the
    same value: six digits after the point, the last one rounded to the
    nearest, ties to even. *)
Definition print_f (r : cfloat) : list ascii :=
  match r with
  | F_finite neg q =>
      let frac := print_uint (millionths q mod 10 ^ 6) in
      (if neg then ["-"%char] else [])
        ++ print_uint (millionths q / 10 ^ 6) ++ "."%char
        :: repeat "0"%char (6 - List.length frac) ++ frac
  | F_inf neg => (if neg then ["-"%char] else []) ++ str "inf"
  | F_nan => str "nan"
  end.

Definition _write_value (x : config_value) : list ascii :=
  match x with
  | CFG_STRING s => dquote :: s ++ [dquote]
  | CFG_FLOAT r => print_f r
  | CFG_INT i => print_d i
  end.

(** The values of an array, separated by [", "]. *)
Fixpoint write_array (vs : list config_value) : list ascii :=
  match vs with
  | [] => []
  | [x] => _write_value x
  | x :: vs' => _write_value x ++ str ", " ++ write_array vs'
  end.

Definition newline : ascii := "010".

(** [_write_config(n, fp, level)] for the node [n] alone, and for [n] and
    its siblings. *)
Fixpoint write_node (level : nat) (n : config_node) : list ascii :=
  let space := repeat " "%char (Nat.min level MAX_INDENT) in
  match n with
  | mk_node k ch vs =>
      space ++ k ++
      match vs with
      | [] =>
          str " {" ++ newline
            :: (fix siblings (l : list config_node) : list ascii :=
                  match l with
                  | [] => []
                  | c :: l' => write_node (S level) c ++ siblings l'
                  end) ch
            ++ space ++ str "}"
      | [x] => "="%char :: _write_value x
      | _ => "="%char :: "["%char :: write_array vs ++ str "]"
      end ++ [newline]
  end.

Fixpoint _write_config (cn : list config_node) (level : nat) : list ascii :=
  match cn with
  | [] => []
  | n :: cn' => write_node level n ++ _write_config cn' level
  end.

(** [write_config]: the text written to the file; [fopen] is taken to
    succeed. *)
Definition write_config (root : list config_node) : list ascii :=
  _write_config root 0.

(** ** Path lookup *)

Fixpoint _tok_match (s seg : list ascii) : bool :=
  match s, seg with
  | c :: s', d :: seg' => if eqc c d then _tok_match s' seg' else false
  | [], [] => true
  | _, _ => false
  end.

(** The loop "hunt for the node". *)
Fixpoint hunt (seg : list ascii) (cn : list config_node) : option config_node :=
  match cn with
  | [] => None
  | n :: cn' => if _tok_match (key n) seg then Some n else hunt seg cn'
  end.

(** The outer loop of [find_config_node]; [None] when the fuel runs out.
    The node pointer returned is modelled by the node it points to. *)
Fixpoint find_loop (fuel : nat) (cn : list config_node) (path : list ascii)
    (sep : ascii) : option (option config_node) :=
  match fuel with
  | O => None
  | S fuel' =>
      match cn with
      | [] => Some None
      | _ :: _ =>
          (* trim any leading slashes *)
          let path1 := skipn (span_len (eqc sep) path) path in
          (* find the end of this segment *)
          let k := span_len (fun c => negb (eqc c sep)) path1 in
          let e := skipn k path1 in
          match hunt (firstn k path1) cn with
          | Some n =>
              match e with
              | [] => Some (Some n)       (* don't move into the last node *)
              | _ :: _ => find_loop fuel' (child n) e sep
              end
          | None => Some None
          end
      end
  end.

Definition find_config_node (cn : list config_node) (path : list ascii)
    (sep : ascii) : option config_node :=
  match find_loop (S (List.length path)) cn path sep with
  | Some r => r
  | None => None
  end.

(** What a typed lookup does: it returns, or it reads [n->v->type] through
    a NULL [n->v]. *)
Inductive lookup (A : Type) : Type :=
| Returned (a : A)
| NullDeref.

Arguments Returned {A} a.
Arguments NullDeref {A}.

(** [fail] may be NULL, which is [None]. *)
Definition find_config_str (cn : list config_node) (path : list ascii)
    (sep : ascii) (fail : option (list ascii)) : lookup (option (list ascii)) :=
  match find_config_node cn path sep with
  | Some n =>
      match v n with
      | [] => NullDeref
      | CFG_STRING s :: _ => Returned (Some s)
      | _ :: _ => Returned fail
      end
  | None => Returned fail
  end.

Definition find_config_int (cn : list config_node) (path : list ascii)
    (sep : ascii) (fail : Z) : lookup Z :=
  match find_config_node cn path sep with
  | Some n =>
      match v n with
      | [] => NullDeref
      | CFG_INT i :: _ => Returned i
      | _ :: _ => Returned fail
      end
  | None => Returned fail
  end.

Definition find_config_float (cn : list config_node) (path : list ascii)
    (sep : ascii) (fail : cfloat) : lookup cfloat :=
  match find_config_node cn path sep with
  | Some n =>
      match v n with
      | [] => NullDeref
      | CFG_FLOAT r :: _ => Returned r
      | _ :: _ => Returned fail
      end
  | None => Returned fail
  end.

(** ** Notions used in the statements *)

(** A buffer of white space and [#]-comments only; [in_comment] says
    whether the scan is inside a comment. *)
Fixpoint blank_from (in_comment : bool) (l : list ascii) : bool :=
  match l with
  | [] => true
  | c :: l' =>
      if in_comment then blank_from (not_newline c) l'
      else if eqc c "#" then blank_from true l'
      else isspace c && blank_from false l'
  end.

Definition blank (l : list ascii) : bool := blank_from false l.

(** A node whose key is the empty string. *)
Definition empty_key (n : config_node) : bool :=
  match key n with
  | [] => true
  | _ :: _ => false
  end.

(** The lookup as the specification words it. The path is split on the
    separator; an empty segment that another segment follows is dropped
    (leading separators are trimmed at each segment boundary); each segment
    is looked up left to right among the siblings, byte for byte, and the
    search goes down into the children only while segments remain. *)
Fixpoint split_on (sep : ascii) (path : list ascii) : list (list ascii) :=
  match path with
  | [] => [[]]
  | c :: r =>
      if eqc sep c then [] :: split_on sep r
      else match split_on sep r with
           | s :: ss => (c :: s) :: ss
           | [] => [[c]]
           end
  end.

Fixpoint drop_empty (ss : list (list ascii)) : list (list ascii) :=
  match ss with
  | [] => []
  | s :: ss' =>
      match s, ss' with
      | [], _ :: _ => drop_empty ss'
      | _, _ => s :: drop_empty ss'
      end
  end.

Definition segments (sep : ascii) (path : list ascii) : list (list ascii) :=
  drop_empty (split_on sep path).

Definition same_bytes (a b : list ascii) : bool :=
  if list_eq_dec ascii_dec a b then true else false.

Fixpoint walk (cn : list config_node) (segs : list (list ascii))
  : option config_node :=
  match segs with
  | [] => None
  | seg :: rest =>
      match find (fun n => same_bytes (key n) seg) cn with
      | None => None
      | Some n =>
          match rest with
          | [] => Some n
          | _ :: _ => walk (child n) rest
          end
      end
  end.

(** The nodes of a document: those of a sibling list and, through
    [child], all those below them. *)
Inductive reachable : list config_node -> config_node -> Prop :=
| reach_sibling (cn : list config_node) (n : config_node) :
    In n cn -> reachable cn n
| reach_child (cn : list config_node) (m n : config_node) :
    In m cn -> reachable (child m) n -> reachable cn n.

(** A tree of sections, which hold no value, and bindings, which hold
    values and no children. *)
Inductive shaped : config_node -> Prop :=
| shaped_section (k : list ascii) (ch : list config_node) :
    Forall shaped ch -> shaped (mk_node k ch [])
| shaped_binding (k : list ascii) (vs : list config_value) :
    vs <> [] -> shaped (mk_node k [] vs).

(** *** The grammar of values, over the tokens the parser reads

    A lexeme is a token type with the length of the token in bytes; the
    parser sees the file as the lexemes [_get_token] hands it one after the
    other. *)
Definition lexeme : Type := (token * nat)%type.

Definition cur (p : parser) : lexeme := (t p, (te p - tb p)%nat).

Fixpoint advance (n : nat) (p : parser) : parser :=
  match n with
  | O => p
  | S n' => advance n' (_get_token p)
  end.

(** The current lexeme and the [n - 1] after it. *)
Fixpoint upcoming (n : nat) (p : parser) : list lexeme :=
  match n with
  | O => []
  | S n' => cur p :: upcoming n' (_get_token p)
  end.

(** The terminals of the production [Value]. *)
Inductive sym : Type := TYPE | LBRACKET | RBRACKET | COMMA | OTHER.

(** [Type := Int | Float | String]. *)
Definition classify (x : lexeme) : sym :=
  match fst x with
  | TOK_INT | TOK_FLOAT | TOK_STRING => TYPE
  | TOK_ARRAY_B => LBRACKET
  | TOK_ARRAY_E => RBRACKET
  | TOK_COMMA => COMMA
  | _ => OTHER
  end.

(** [(',' Type)*] *)
Inductive comma_types : list sym -> Prop :=
| comma_types_nil : comma_types []
| comma_types_cons (w : list sym) :
    comma_types w -> comma_types (COMMA :: TYPE :: w).

(** [Value := '[' Type (',' Type)* ']' | Type], the production of the
    specification. *)
Inductive value_spec : list sym -> Prop :=
| value_spec_type : value_spec [TYPE]
| value_spec_array (w : list sym) :
    comma_types w -> value_spec (LBRACKET :: TYPE :: w ++ [RBRACKET]).

(** [(Type ','?)*] *)
Inductive items : list sym -> Prop :=
| items_nil : items []
| items_type (w : list sym) : items w -> items (TYPE :: w)
| items_type_comma (w : list sym) : items w -> items (TYPE :: COMMA :: w).

(** [Value := '[' (Type ','?)+ ']' | Type], the production the parser
    implements. *)
Inductive value_code : list sym -> Prop :=
| value_code_type : value_code [TYPE]
| value_code_array (w : list sym) :
    w <> [] -> items w -> value_code (LBRACKET :: w ++ [RBRACKET]).

(** A token on which [_type] leaves the file: a String token of one byte,
    which is a quote that ends the file, and for which [strncpy] is called
    with the length -1; a number that [strtol] or [strtod] reads up to the
    end of a file that ends on a page boundary. *)
Definition hazard (p : parser) : bool :=
  match t p with
  | TOK_INT => strtol_past (from p (tb p)) && unmapped_end p
  | TOK_FLOAT => strtod_past (from p (tb p)) && unmapped_end p
  | TOK_STRING => (te p - tb p <? 2)%nat
  | _ => false
  end.

(** The bytes [strtol] and [strtod] can use. *)
Definition number_char (c : ascii) : bool :=
  isdigit c || eqc c "." || eqc c "e" || eqc c "E" || eqc c "+" || eqc c "-".

(** A file that ends where [_type] can leave it: in a quote, or on a page
    boundary in a byte of a number. *)
Definition risky_end (buf : list ascii) : bool :=
  match buf with
  | [] => false
  | _ :: _ =>
      eqc (last buf NUL) dquote
      || ((Z.of_nat (List.length buf) mod PAGE_SIZE =? 0) && number_char (last buf NUL))
  end.

(** A parser state on [buf] whose token lies inside the file and is a
    hazard only when [buf] ends in that way. *)
Definition guarded (buf : list ascii) (p : parser) : Prop :=
  fb p = buf /\ (tb p <= te p <= fe p)%nat /\
  (hazard p = true -> risky_end buf = true).

(** A result that is undefined behaviour only when [buf] ends in that way,
    and satisfies [post] when it is a value. *)
Definition safe {A : Type} (buf : list ascii) (post : A -> Prop) (r : result A)
  : Prop :=
  match r with
  | Ok a => post a
  | Fail undefined_behaviour => risky_end buf = true
  | Fail _ => True
  end.

(** *** What the serialiser writes and the tokeniser reads back *)

(** What may follow white space: the end of the file, or a byte that is
    neither white space nor the start of a comment. *)
Definition starts_token (r : list ascii) : Prop :=
  match r with
  | [] => True
  | c :: _ => isspace c = false /\ eqc c "#" = false
  end.

(** The body of a string literal that its closing quote ends: every quote
    in it follows a backslash that escapes it, and no escaping backslash is
    left without the byte it escapes. *)
Fixpoint escaped_ok (s : list ascii) : bool :=
  match s with
  | [] => true
  | c :: s' =>
      if eqc c dquote then false
      else if eqc c backslash then
        match s' with
        | [] => false
        | _ :: s'' => escaped_ok s''
        end
      else escaped_ok s'
  end.

(** The resolution of escapes the specification describes: the backslash
    of an escaped quote is removed, every other byte is kept. *)
Fixpoint unescape (s : list ascii) : list ascii :=
  match s with
  | [] => []
  | c :: s' =>
      match s' with
      | d :: s'' =>
          if eqc c backslash && eqc d dquote then dquote :: unescape s''
          else c :: unescape s'
      | [] => [c]
      end
  end.

(** The parser state [q] has read the file up to [r]. *)
Definition ahead (q : parser) (r : list ascii) : Prop :=
  (te q <= fe q)%nat /\ from q (te q) = r.

(** The first byte of a key the serialiser can write so that it is read
    back as an identifier. *)
Definition ident_start (c : ascii) : bool :=
  negb (eqc c "{" || eqc c "}" || eqc c "[" || eqc c "]" || eqc c ","
        || eqc c dquote || eqc c "." || isdigit c).

Definition no_nul (s : list ascii) : bool :=
  forallb (fun c => negb (eqc c NUL)) s.

Definition wf_key (k : list ascii) : bool :=
  match k with
  | [] => false
  | c :: _ => ident_start c && forallb ident_char k && no_nul k
  end.

(** The tokens of one byte. *)
Definition single_token (c : ascii) : option token :=
  if eqc c "{" then Some TOK_SECTION_B
  else if eqc c "}" then Some TOK_SECTION_E
  else if eqc c "[" then Some TOK_ARRAY_B
  else if eqc c "]" then Some TOK_ARRAY_E
  else if eqc c "," then Some TOK_COMMA
  else if eqc c "=" then Some TOK_EQ
  else None.

(** What ends a number: the end of the file, or a byte that is neither a
    digit nor a dot. *)
Definition ends_number (r : list ascii) : Prop :=
  match r with
  | [] => True
  | c :: _ => isdigit c = false /\ eqc c "." = false
  end.

Definition ends_ident (r : list ascii) : Prop :=
  match r with
  | [] => True
  | c :: _ => ident_char c = false
  end.

(** What ends a value in the text the serialiser writes: a byte that
    continues no number. *)
Definition delimits (r : list ascii) : Prop :=
  match r with
  | [] => False
  | c :: _ => isdigit c = false /\ eqc c "." = false /\
              eqc c "e" = false /\ eqc c "E" = false
  end.

(** The values the serialiser writes as one token of their type: an
    integer that is not negative; a string whose quotes are all escaped,
    that does not end in an escaping backslash and holds no NUL; a finite
    float that is not negative. *)
Definition writable (x : config_value) : bool :=
  match x with
  | CFG_INT i => (0 <=? i) && (i <? 2 ^ 31)
  | CFG_STRING s => escaped_ok s && no_nul s
  | CFG_FLOAT (F_finite false q) => 0 <=? Qnum q
  | CFG_FLOAT _ => false
  end.

(** The float read from the six decimals [print_f] writes for [f]. *)
Definition reread_float (f : cfloat) : cfloat := to_float (strtod (print_f f)).

Definition reread_value (x : config_value) : config_value :=
  match x with
  | CFG_FLOAT f => CFG_FLOAT (reread_float f)
  | _ => x
  end.

Fixpoint reread_node (n : config_node) : config_node :=
  match n with
  | mk_node k ch vs => mk_node k (map reread_node ch) (map reread_value vs)
  end.

Definition cfloat_eqb (a b : cfloat) : bool :=
  match a, b with
  | F_finite s q, F_finite s' q' =>
      Bool.eqb s s' && (Qnum q =? Qnum q') && (Zpos (Qden q) =? Zpos (Qden q'))
  | F_inf s, F_inf s' => Bool.eqb s s'
  | F_nan, F_nan => true
  | _, _ => false
  end.

(** The values the text format carries exactly: the writable ones, where
    a float is moreover the one read from its own six decimals. *)
Definition wf_value (x : config_value) : bool :=
  writable x &&
  match x with
  | CFG_FLOAT f => cfloat_eqb (reread_float f) f
  | _ => true
  end.

(** A tree of keys that are read back as identifiers, sections without
    values and bindings without children, whose values are all [ok]. *)
Fixpoint tree_ok (ok : config_value -> bool) (n : config_node) : bool :=
  match n with
  | mk_node k ch vs =>
      wf_key k &&
      match vs with
      | [] => forallb (tree_ok ok) ch
      | _ :: _ =>
          forallb ok vs && match ch with [] => true | _ :: _ => false end
      end
  end.

(** A tree the serialiser writes so that the parser reads a tree of the
    same shape, and a tree the text format carries exactly. *)
Definition writable_node : config_node -> bool := tree_ok writable.
Definition wf_node : config_node -> bool := tree_ok wf_value.

Definition indent (level : nat) : list ascii :=
  repeat " "%char (Nat.min level MAX_INDENT).

(** The node [n], written at any nesting level, is read back by
    [_section] with enough fuel, each float from its six decimals. *)
Definition reads_back (n : config_node) : Prop :=
  writable_node n = true ->
  forall level q ws r,
    ahead q (ws ++ write_node level n ++ r) ->
    forallb isspace ws = true ->
    exists q' f0,
      ahead q' (newline :: r) /\
      forall fuel, (f0 <= fuel)%nat ->
                   _section fuel (_get_token q)
                   = Ok (reread_node n, _get_token q').

(** *** Fuel and progress *)

(** [r'] is [r], unless [r] ran out of fuel. *)
Definition le_res {A : Type} (r r' : result A) : Prop :=
  r = Fail out_of_fuel \/ r = r'.

(** The tokens the parser may still read: none at the end of the file,
    else at most the current one and a token for each byte left. *)
Definition left (p : parser) : nat :=
  if token_eqb (t p) TOK_EOF then O else S (fe p - te p).

Definition finished {A : Type} (r : result A) : Prop := r <> Fail out_of_fuel.

(** [p'] is a state of the same file, inside it, with fewer tokens left
    ([strict]) or no more. *)
Definition advanced (strict : bool) (p p' : parser) : Prop :=
  (te p' <= fe p')%nat /\ fe p' = fe p /\
  if strict then (left p' < left p)%nat else (left p' <= left p)%nat.

(** *** The keys and values of parsed trees *)

(** The bytes of the current token. *)
Definition token_text (p : parser) : list ascii :=
  firstn (te p - tb p) (from p (tb p)).

(** A state the tokeniser produced on a file without NUL: inside the
    file, and when the token is an identifier its bytes make a key. *)
Definition lexed (p : parser) : Prop :=
  (te p <= fe p)%nat /\ no_nul (fb p) = true /\
  (t p = TOK_IDENTIFIER -> wf_key (token_text p) = true).

(** A tree whose keys are all read back as identifiers. *)
Inductive keyed : config_node -> Prop :=
| keyed_node (k : list ascii) (ch : list config_node) (vs : list config_value) :
    wf_key k = true -> Forall keyed ch -> keyed (mk_node k ch vs).

(** The bytes of an identifier token, which may hold a NUL, and a state
    the tokeniser produced on any file. *)
Definition ident_token (k : list ascii) : bool :=
  match k with
  | [] => false
  | c :: _ => ident_start c && forallb ident_char k
  end.

Definition tokenised (p : parser) : Prop :=
  (te p <= fe p)%nat /\
  (t p = TOK_IDENTIFIER -> ident_token (token_text p) = true) /\
  (t p = TOK_STRING ->
   (te p - tb p - 2 <= scan_string (from p (S (tb p))))%nat).

(** A string in which every quote follows a backslash that escapes it,
    and a string that ends in a backslash that would escape what follows:
    [escaped_ok] is the first without the second. *)
Fixpoint quotes_escaped (s : list ascii) : bool :=
  match s with
  | [] => true
  | c :: s' =>
      if eqc c dquote then false
      else if eqc c backslash then
        match s' with
        | [] => true
        | _ :: s'' => quotes_escaped s''
        end
      else quotes_escaped s'
  end.

Fixpoint open_escape (s : list ascii) : bool :=
  match s with
  | [] => false
  | c :: s' =>
      if eqc c backslash then
        match s' with
        | [] => true
        | _ :: s'' => open_escape s''
        end
      else open_escape s'
  end.

(** A value of a parsed document that can be written and read back: an
    integer that is not negative, a finite float, a string that does not
    end in an escaping backslash. *)
Definition value_ok (x : config_value) : bool :=
  match x with
  | CFG_INT i => 0 <=? i
  | CFG_FLOAT (F_finite _ _) => true
  | CFG_FLOAT _ => false
  | CFG_STRING s => negb (open_escape s)
  end.

(** A tree whose values are all of that kind. *)
Fixpoint values_ok (n : config_node) : bool :=
  match n with
  | mk_node _ ch vs => forallb value_ok vs && forallb values_ok ch
  end.

(** A tree without an empty key. *)
Fixpoint keys_ok (n : config_node) : bool :=
  match n with
  | mk_node k ch _ =>
      match k with [] => false | _ :: _ => true end && forallb keys_ok ch
  end.

(** *** Floats

    A number [m * 2 ^ e] with [m <= 2 ^ prec] and [emin <= e]; a [float]
    of the data model that is one of binary32. *)
Definition representable (prec emin : Z) (q : Q) : Prop :=
  exists m e : Z,
    0 <= m <= 2 ^ prec /\ emin <= e /\ (q == inject_Z m * Qpower 2 e)%Q.

Definition is_float (f : cfloat) : Prop :=
  match f with
  | F_finite s q =>
      s = false /\ 0 <= Qnum q /\ representable 24 (-149) q /\ (q < 2 ^ 128)%Q
  | F_inf s => s = false
  | F_nan => False
  end.

(** Trees whose values all satisfy [P]. *)
Inductive all_values (P : config_value -> Prop) : config_node -> Prop :=
| all_values_node (k : list ascii) (ch : list config_node)
    (vs : list config_value) :
    Forall P vs -> Forall (all_values P) ch -> all_values P (mk_node k ch vs).

(** The values [_type] stores: an [int], a string without NUL whose
    quotes are all escaped, a [float] that [strtod] gave for a numeral
    without sign. *)
Definition stored_value (x : config_value) : Prop :=
  match x with
  | CFG_INT i => - 2 ^ 31 <= i < 2 ^ 31
  | CFG_FLOAT f => is_float f
  | CFG_STRING s => no_nul s = true /\ quotes_escaped s = true
  end.

(** What the parser builds on any file: a key is the C string of an
    identifier token, so it is empty, when the token starts with a NUL, or
    is read back as an identifier; an integer is an [int], a string holds
    no NUL and no quote that is not escaped, and a float is one of
    binary32, not negative, or the positive infinity. *)
Inductive parsed : config_node -> Prop :=
| parsed_node (k : list ascii) (ch : list config_node)
    (vs : list config_value) :
    k = [] \/ wf_key k = true -> Forall stored_value vs -> Forall parsed ch ->
    parsed (mk_node k ch vs).

(** Two floats within a millionth of each other, the last digit the text
    format writes. *)
Definition within_precision (f f' : cfloat) : Prop :=
  match f, f' with
  | F_finite false q, F_finite false q' => (Qabs (q' - q) <= 1 # 1000000)%Q
  | _, _ => False
  end.

(** Two documents of the same tree shape, with the same keys, integers
    and strings, and floats within the precision of the text format. *)
Inductive same_value : config_value -> config_value -> Prop :=
| same_int (i : Z) : same_value (CFG_INT i) (CFG_INT i)
| same_string (s : list ascii) : same_value (CFG_STRING s) (CFG_STRING s)
| same_float (f f' : cfloat) :
    within_precision f f' -> same_value (CFG_FLOAT f) (CFG_FLOAT f').

Inductive same_node : config_node -> config_node -> Prop :=
| same_node_mk (k : list ascii) (ch ch' : list config_node)
    (vs vs' : list config_value) :
    Forall2 same_node ch ch' -> Forall2 same_value vs vs' ->
    same_node (mk_node k ch vs) (mk_node k ch' vs').

(** The number of dots in a token. *)
Definition dots (l : list ascii) : nat := count_occ ascii_dec l "."%char.

End Config.

(** * [lib/device/dev-md.c] *)

Module DevMd.

Definition u64 (x : Z) : Z := x mod 2 ^ 64.

Definition MD_SB_MAGIC : Z := 0xa92b4efc.
Definition MD_RESERVED_BYTES : Z := 64 * 1024.
Definition MD_RESERVED_SECTORS : Z := MD_RESERVED_BYTES / 512.
Definition MD_NEW_SIZE_SECTORS (x : Z) : Z :=
  u64 (Z.land x (Z.lnot (MD_RESERVED_SECTORS - 1)) - MD_RESERVED_SECTORS).

(** What the device layer answers: [dev_get_size] (the size in sectors, or
    failure), [dev_open], [dev_read] of the four bytes at an offset as a
    [uint32_t] (or failure), [dev_close]. *)
Record device : Type :=
  mk_device { dev_get_size : option Z;
              dev_open : bool;
              dev_read : Z -> option Z;
              dev_close : bool }.

(** The calls made on the device, in order. *)
Inductive event : Type :=
| ev_get_size
| ev_open
| ev_read (sb_offset : Z)
| ev_close.

(** What [dev_is_md] hands back: the return value, [*sb] if it was
    written, and the calls it made. *)
Record probe : Type :=
  mk_probe { ret : Z; sb : option Z; trace : list event }.

Section Probe.

(** [SECTOR_SHIFT] and [xlate32] come from headers outside this
    directory. *)
Variable SECTOR_SHIFT : Z.
Variable xlate32 : Z -> Z.

Definition _dev_has_md_magic (dev : device) (sb_offset : Z) : bool :=
  match dev_read dev sb_offset with
  | Some md_magic =>
      (md_magic =? xlate32 MD_SB_MAGIC) || (md_magic =? MD_SB_MAGIC)
  | None => false
  end.

(** [None] for a minor version the [switch] has no case for: [sb_offset]
    is then used uninitialised. *)
Definition _v1_sb_offset (size : Z) (minor_version : Z) : option Z :=
  match (match minor_version with
         | 0 => Some (Z.land (u64 (size - 8 * 2)) (u64 (Z.lnot (4 * 2 - 1))))
         | 1 => Some 0
         | 2 => Some (4 * 2)
         | _ => None
         end) with
  | Some sb_offset => Some (u64 (Z.shiftl sb_offset SECTOR_SHIFT))
  | None => None
  end.

(** The loop [do ... while (++minor <= 2)]: the offset at which the magic
    was found, if any, and the reads made. [None] when the fuel runs out
    or the offset is indeterminate. *)
Fixpoint v1_loop (fuel : nat) (dev : device) (size : Z) (minor : Z)
  : option (option Z * list event) :=
  match fuel with
  | O => None
  | S fuel' =>
      match _v1_sb_offset size minor with
      | None => None
      | Some sb_offset =>
          if _dev_has_md_magic dev sb_offset
          then Some (Some sb_offset, [ev_read sb_offset])
          else if minor + 1 <=? 2 then
            match v1_loop fuel' dev size (minor + 1) with
            | Some (r, evs) => Some (r, ev_read sb_offset :: evs)
            | None => None
            end
          else Some (None, [ev_read sb_offset])
      end
  end.

(** [want_sb] says whether the caller passed a non-NULL [sb]. [None] only
    if the loop above gives [None]. *)
Definition dev_is_md (dev : device) (want_sb : bool) : option probe :=
  match dev_get_size dev with
  | None => Some (mk_probe (-1) None [ev_get_size])
  | Some size =>
      if size <? MD_RESERVED_SECTORS * 2
      then Some (mk_probe 0 None [ev_get_size])
      else if negb (dev_open dev)
      then Some (mk_probe (-1) None [ev_get_size; ev_open])
      else
        (* Version 0.90.0 *)
        let sb_offset := u64 (Z.shiftl (MD_NEW_SIZE_SECTORS size) SECTOR_SHIFT) in
        if _dev_has_md_magic dev sb_offset
        then Some (mk_probe 1 (if want_sb then Some sb_offset else None)
                     [ev_get_size; ev_open; ev_read sb_offset; ev_close])
        else
          (* Version 1, try v1.0 -> v1.2 *)
          match v1_loop 3 dev size 0 with
          | Some (Some off, evs) =>
              Some (mk_probe 1 (if want_sb then Some off else None)
                      ([ev_get_size; ev_open; ev_read sb_offset]
                         ++ evs ++ [ev_close]))
          | Some (None, evs) =>
              Some (mk_probe 0 None
                      ([ev_get_size; ev_open; ev_read sb_offset]
                         ++ evs ++ [ev_close]))
          | None => None
          end
  end.

(** The four candidate offsets, in the order the specification gives
    them: the tail-aligned one of version 0.90.0, then those of the minor
    versions 0, 1 and 2. *)
Definition candidates (size : Z) : list Z :=
  [ u64 (Z.shiftl (MD_NEW_SIZE_SECTORS size) SECTOR_SHIFT);
    u64 (Z.shiftl (Z.land (u64 (size - 16)) (u64 (Z.lnot 7))) SECTOR_SHIFT);
    u64 (Z.shiftl 0 SECTOR_SHIFT);
    u64 (Z.shiftl 8 SECTOR_SHIFT) ].

(** Reading the candidates in turn up to the first that holds the magic. *)
Fixpoint probe_until (dev : device) (offs : list Z) : option Z * list event :=
  match offs with
  | [] => (None, [])
  | o :: offs' =>
      if _dev_has_md_magic dev o then (Some o, [ev_read o])
      else let (r, evs) := probe_until dev offs' in (r, ev_read o :: evs)
  end.

(** The probe as the specification describes it, with the guard on small
    devices. *)
Definition probe_spec (dev : device) (want_sb : bool) : probe :=
  match dev_get_size dev with
  | None => mk_probe (-1) None [ev_get_size]
  | Some size =>
      if size <? 256 then mk_probe 0 None [ev_get_size]
      else if dev_open dev then
        let (found, reads) := probe_until dev (candidates size) in
        mk_probe (match found with Some _ => 1 | None => 0 end)
                 (if want_sb then found else None)
                 ([ev_get_size; ev_open] ++ reads ++ [ev_close])
      else mk_probe (-1) None [ev_get_size; ev_open]
  end.

End Probe.

End DevMd.

(** * Properties of the configuration engine *)

Import Config.

#[local] Arguments _get_token : simpl never.
#[local] Arguments _eat_space : simpl never.
#[local] Arguments _type : simpl never.
#[local] Arguments _dup_tok : simpl never.
#[local] Arguments strtol : simpl never.
#[local] Arguments strtod : simpl never.
#[local] Arguments to_int : simpl never.

(** ** Binary floating point *)

Lemma p2_pos (e : Z) : (0 < 2 ^ e)%Q.
Proof. apply Qpower_0_lt. reflexivity. Qed.

Lemma p2_add (a b : Z) : (2 ^ (a + b) == 2 ^ a * 2 ^ b)%Q.
Proof. apply Qpower_plus. discriminate. Qed.

Lemma p2_S (e : Z) : (2 ^ (e + 1) == 2 * 2 ^ e)%Q.
Proof. rewrite p2_add. change (2 ^ 1)%Q with (2 * 1)%Q. ring. Qed.

Lemma p2_le (a b : Z) : a <= b -> (2 ^ a <= 2 ^ b)%Q.
Proof. intros H. apply Qpower_le_compat_l; [exact H|]. discriminate. Qed.

Lemma p2_lt (a b : Z) : a < b -> (2 ^ a < 2 ^ b)%Q.
Proof. intros H. apply Qpower_lt_compat_l; [exact H|]. reflexivity. Qed.

Lemma p2_lt_inv (a b : Z) : (2 ^ a < 2 ^ b)%Q -> a < b.
Proof. intros H. apply (Qpower_lt_compat_l_inv 2); [exact H|reflexivity]. Qed.

Lemma p2_Z (e : Z) : 0 <= e -> (2 ^ e == inject_Z (2 ^ e))%Q.
Proof. intros H. symmetry. apply (Zpower_Qpower 2 e H). Qed.

Lemma p2_opp (e : Z) : (2 ^ (- e) * 2 ^ e == 1)%Q.
Proof. rewrite <- p2_add. replace (- e + e) with 0 by lia. reflexivity. Qed.

Lemma inject_Z_minus (a b : Z) : inject_Z (a - b) = (inject_Z a - inject_Z b)%Q.
Proof.
  unfold Z.sub, Qminus. rewrite inject_Z_plus, inject_Z_opp. reflexivity.
Qed.

Lemma inject_Z_pos (b : Z) : 0 < b -> (0 < inject_Z b)%Q.
Proof. intros H. unfold Qlt. simpl. lia. Qed.

Lemma inject_Z_nonneg (b : Z) : 0 <= b -> (0 <= inject_Z b)%Q.
Proof. intros H. unfold Qle. simpl. lia. Qed.

Ltac push_inject H :=
  repeat first [ rewrite inject_Z_mult in H | rewrite inject_Z_plus in H
               | rewrite inject_Z_minus in H | rewrite inject_Z_opp in H ].

Lemma round_div_Z (a b : Z) :
  0 <= a -> 0 < b -> - b <= 2 * (round_div a b * b - a) <= b.
Proof.
  intros Ha Hb. unfold round_div.
  pose proof (Z.div_mod a b ltac:(lia)) as E.
  pose proof (Z.mod_pos_bound a b Hb) as Hr.
  destruct (2 * (a mod b) <? b) eqn:E1.
  - apply Z.ltb_lt in E1. nia.
  - apply Z.ltb_ge in E1. destruct (b <? 2 * (a mod b)) eqn:E2.
    + apply Z.ltb_lt in E2. nia.
    + apply Z.ltb_ge in E2. destruct (Z.even (a / b)); nia.
Qed.

Lemma round_div_Q (a b : Z) :
  0 <= a -> 0 < b ->
  (Qabs (inject_Z (round_div a b) - inject_Z a / inject_Z b) <= 1 # 2)%Q.
Proof.
  intros Ha Hb. pose proof (round_div_Z a b Ha Hb) as [H1 H2].
  set (m := round_div a b) in *.
  rewrite Zle_Qle in H1, H2.
  push_inject H1. push_inject H2.
  pose proof (inject_Z_pos b Hb) as HB.
  assert (Hx : (inject_Z a / inject_Z b * inject_Z b == inject_Z a)%Q)
    by (field; lra).
  set (x := (inject_Z a / inject_Z b)%Q) in *.
  apply Qabs_Qle_condition. change (inject_Z 2) with 2%Q in *.
  split; apply (proj1 (Qmult_le_r _ _ _ HB)); lra.
Qed.

Lemma ilog2_spec (n d : Z) :
  0 < n -> 0 < d ->
  (2 ^ ilog2 n d <= inject_Z n / inject_Z d < 2 ^ (ilog2 n d + 1))%Q.
Proof.
  intros Hn Hd.
  pose proof (Z.log2_spec n Hn) as [Hn1 Hn2].
  pose proof (Z.log2_spec d Hd) as [Hd1 Hd2].
  pose proof (Z.log2_nonneg n) as Hln. pose proof (Z.log2_nonneg d) as Hld.
  rewrite Zle_Qle in Hn1, Hd1. rewrite Zlt_Qlt in Hn2, Hd2.
  rewrite <- !p2_Z in * by lia.
  rewrite <- Z.add_1_r, p2_S in Hn2, Hd2.
  pose proof (inject_Z_pos d Hd) as HD.
  assert (Hx : (inject_Z n / inject_Z d * inject_Z d == inject_Z n)%Q)
    by (field; lra).
  set (x := (inject_Z n / inject_Z d)%Q) in *.
  unfold ilog2. set (k := Z.log2 n - Z.log2 d).
  assert (Hk : (2 ^ k * 2 ^ Z.log2 d == 2 ^ Z.log2 n)%Q).
  { rewrite <- p2_add. unfold k. replace (Z.log2 n - Z.log2 d + Z.log2 d) with (Z.log2 n) by lia.
    reflexivity. }
  pose proof (p2_pos k) as Pk. pose proof (p2_pos (Z.log2 d)) as Pd.
  pose proof (p2_pos (Z.log2 n)) as Pn.
  assert (Htest : (if 0 <=? k then d * 2 ^ k <=? n else d <=? n * 2 ^ (- k)) = true
                  <-> (inject_Z d * 2 ^ k <= inject_Z n)%Q).
  { destruct (0 <=? k) eqn:Ek.
    - apply Z.leb_le in Ek. rewrite Z.leb_le, Zle_Qle, inject_Z_mult, <- p2_Z by lia.
      reflexivity.
    - apply Z.leb_gt in Ek. rewrite Z.leb_le, Zle_Qle, inject_Z_mult, <- p2_Z by lia.
      pose proof (p2_opp k) as Ho. pose proof (p2_pos (- k)) as Pm.
      split; intros H; nra. }
  destruct (if 0 <=? k then d * 2 ^ k <=? n else d <=? n * 2 ^ (- k)) eqn:T.
  - destruct Htest as [Ht _]. specialize (Ht eq_refl).
    rewrite p2_S. split; nra.
  - assert (Hf : ~ (inject_Z d * 2 ^ k <= inject_Z n)%Q).
    { intros H. apply Htest in H. discriminate. }
    apply Qnot_le_lt in Hf.
    replace (k - 1 + 1) with k by lia.
    assert (Hk1 : (2 ^ k == 2 * 2 ^ (k - 1))%Q).
    { rewrite <- p2_S. replace (k - 1 + 1) with k by lia. reflexivity. }
    pose proof (p2_pos (k - 1)) as Pk1.
    split; nra.
Qed.

Lemma round_div_nonneg (a b : Z) : 0 <= a -> 0 < b -> 0 <= round_div a b.
Proof.
  intros Ha Hb. unfold round_div.
  pose proof (Z.div_pos a b Ha Hb) as Hq.
  destruct (2 * (a mod b) <? b); [exact Hq|].
  destruct (b <? 2 * (a mod b)); [lia|].
  destruct (Z.even (a / b)); lia.
Qed.

(** The significand is the integer nearest to [n / d / 2 ^ e]. *)
Lemma float_mant_spec (e n d : Z) :
  0 < n -> 0 < d ->
  0 <= float_mant e n d /\
  (Qabs (inject_Z (float_mant e n d) * 2 ^ e - inject_Z n / inject_Z d)
   <= 2 ^ e / 2)%Q.
Proof.
  intros Hn Hd. unfold float_mant.
  pose proof (inject_Z_pos d Hd) as HD. pose proof (p2_pos e) as Pe.
  assert (Hx : (inject_Z n / inject_Z d * inject_Z d == inject_Z n)%Q)
    by (field; lra).
  set (x := (inject_Z n / inject_Z d)%Q) in *.
  destruct (0 <=? e) eqn:Ee.
  - apply Z.leb_le in Ee.
    assert (Hp : 0 < 2 ^ e) by (apply Z.pow_pos_nonneg; lia).
    split; [apply round_div_nonneg; nia|].
    pose proof (round_div_Q n (d * 2 ^ e) ltac:(lia) ltac:(nia)) as H.
    set (m := round_div n (d * 2 ^ e)) in *.
    rewrite inject_Z_mult, <- p2_Z in H by exact Ee.
    assert (Hy : (inject_Z n / (inject_Z d * 2 ^ e) * 2 ^ e == x)%Q).
    { unfold x. field. split; lra. }
    set (y := (inject_Z n / (inject_Z d * 2 ^ e))%Q) in *.
    apply Qabs_Qle_condition in H. apply Qabs_Qle_condition.
    assert (E2 : (2 ^ e / 2 == (1 # 2) * 2 ^ e)%Q) by (field).
    rewrite E2. split; nra.
  - apply Z.leb_gt in Ee.
    assert (Hp : 0 < 2 ^ (- e)) by (apply Z.pow_pos_nonneg; lia).
    split; [apply round_div_nonneg; nia|].
    pose proof (round_div_Q (n * 2 ^ (- e)) d ltac:(nia) Hd) as H.
    set (m := round_div (n * 2 ^ (- e)) d) in *.
    rewrite inject_Z_mult, <- p2_Z in H by lia.
    pose proof (p2_opp e) as Ho. pose proof (p2_pos (- e)) as Pm.
    assert (Hy : (inject_Z n * 2 ^ (- e) / inject_Z d * 2 ^ e == x)%Q).
    { unfold x. 
      transitivity (inject_Z n / inject_Z d * (2 ^ (- e) * 2 ^ e))%Q; [field; lra|].
      rewrite Ho. ring. }
    set (y := (inject_Z n * 2 ^ (- e) / inject_Z d)%Q) in *.
    apply Qabs_Qle_condition in H. apply Qabs_Qle_condition.
    assert (E2 : (2 ^ e / 2 == (1 # 2) * 2 ^ e)%Q) by (field).
    rewrite E2. split; nra.
Qed.

(** No number of the grid [2 ^ e] is nearer. *)
Lemma float_mant_nearest (e n d G : Z) :
  0 < n -> 0 < d ->
  (Qabs (inject_Z (float_mant e n d) * 2 ^ e - inject_Z n / inject_Z d)
   <= Qabs (inject_Z G * 2 ^ e - inject_Z n / inject_Z d))%Q.
Proof.
  intros Hn Hd. destruct (float_mant_spec e n d Hn Hd) as [_ H].
  set (m := float_mant e n d) in *. set (x := (inject_Z n / inject_Z d)%Q) in *.
  pose proof (p2_pos e) as Pe.
  destruct (Z.eq_dec G m) as [->|Hne]; [apply Qle_refl|].
  apply Qabs_Qle_condition in H.
  assert (E2 : (2 ^ e / 2 == (1 # 2) * 2 ^ e)%Q) by (field).
  rewrite E2 in H.
  assert (Hc : G <= m - 1 \/ m + 1 <= G) by lia.
  destruct Hc as [Hc|Hc]; rewrite Zle_Qle in Hc; push_inject Hc;
    change (inject_Z 1) with 1%Q in Hc.
  - rewrite (Qabs_neg (inject_Z G * 2 ^ e - x)) by nra.
    apply Qabs_Qle_condition. split; nra.
  - rewrite (Qabs_pos (inject_Z G * 2 ^ e - x)) by nra.
    apply Qabs_Qle_condition. split; nra.
Qed.

Lemma float_mant_le (prec emin n d : Z) :
  0 < prec -> 0 < n -> 0 < d ->
  float_mant (float_exp prec emin n d) n d <= 2 ^ prec.
Proof.
  intros Hp Hn Hd.
  destruct (float_mant_spec (float_exp prec emin n d) n d Hn Hd) as [H0 H].
  destruct (ilog2_spec n d Hn Hd) as [_ Hx].
  set (e := float_exp prec emin n d) in *. set (m := float_mant e n d) in *.
  set (x := (inject_Z n / inject_Z d)%Q) in *.
  assert (He : ilog2 n d + 1 <= e + prec) by (unfold e, float_exp; lia).
  pose proof (p2_le _ _ He) as Hle. rewrite (p2_add e prec) in Hle.
  rewrite (p2_Z prec) in Hle by lia.
  pose proof (p2_pos e) as Pe.
  apply Qabs_Qle_condition in H.
  assert (E2 : (2 ^ e / 2 == (1 # 2) * 2 ^ e)%Q) by (field).
  rewrite E2 in H.
  assert (Hlt : (inject_Z m < inject_Z (2 ^ prec + 1))%Q).
  { rewrite inject_Z_plus. change (inject_Z 1) with 1%Q.
    apply (proj1 (Qmult_lt_r _ _ _ Pe)). nra. }
  rewrite <- Zlt_Qlt in Hlt. lia.
Qed.

Lemma round_float_spec (prec emin emax n d : Z) :
  0 < prec -> emin < emax -> 0 < n -> 0 < d ->
  match round_float prec emin emax n d with
  | Some r =>
      (r == inject_Z (float_mant (float_exp prec emin n d) n d)
            * 2 ^ float_exp prec emin n d)%Q /\
      (r < 2 ^ emax)%Q
  | None =>
      (2 ^ emax <= inject_Z (float_mant (float_exp prec emin n d) n d)
                   * 2 ^ float_exp prec emin n d)%Q
  end.
Proof.
  intros Hp Hem Hn Hd. unfold round_float.
  replace (n =? 0) with false by (symmetry; apply Z.eqb_neq; lia).
  destruct (float_mant_spec (float_exp prec emin n d) n d Hn Hd) as [H0 H].
  destruct (ilog2_spec n d Hn Hd) as [Hx _].
  set (e := float_exp prec emin n d) in *. set (m := float_mant e n d) in *.
  set (x := (inject_Z n / inject_Z d)%Q) in *.
  pose proof (p2_pos e) as Pe.
  destruct (2 ^ (emax - e) <=? m) eqn:T.
  - apply Z.leb_le in T.
    destruct (Z.le_gt_cases e emax) as [Hle|Hgt].
    + rewrite Zle_Qle, <- p2_Z in T by lia.
      assert (E : (2 ^ emax == 2 ^ (emax - e) * 2 ^ e)%Q).
      { rewrite <- p2_add. replace (emax - e + e) with emax by lia. reflexivity. }
      rewrite E. nra.
    + assert (Ee : e = ilog2 n d - prec + 1) by (unfold e, float_exp in *; lia).
      assert (E : (2 ^ ilog2 n d == 2 ^ (prec - 1) * 2 ^ e)%Q).
      { rewrite <- p2_add. replace (prec - 1 + e) with (ilog2 n d) by lia. reflexivity. }
      assert (H1 : (1 <= 2 ^ (prec - 1))%Q).
      { change 1%Q with (2 ^ 0)%Q. apply p2_le. lia. }
      apply Qabs_Qle_condition in H.
      assert (E2 : (2 ^ e / 2 == (1 # 2) * 2 ^ e)%Q) by (field).
      rewrite E2 in H.
      assert (Hm : (inject_Z 0 < inject_Z m)%Q).
      { change (inject_Z 0) with 0%Q. apply (proj1 (Qmult_lt_r _ _ _ Pe)). nra. }
      rewrite <- Zlt_Qlt in Hm.
      assert (Hm1 : (1 <= inject_Z m)%Q).
      { change 1%Q with (inject_Z 1). rewrite <- Zle_Qle. lia. }
      pose proof (p2_lt _ _ Hgt) as Hlt. nra.
  - apply Z.leb_gt in T.
    assert (Hle : e <= emax).
    { destruct (Z.le_gt_cases e emax) as [Hle|Hgt]; [exact Hle|].
      rewrite Z.pow_neg_r in T by lia. lia. }
    assert (Hlt : (inject_Z m * 2 ^ e < 2 ^ emax)%Q).
    { rewrite Zlt_Qlt, <- p2_Z in T by lia.
      assert (E : (2 ^ emax == 2 ^ (emax - e) * 2 ^ e)%Q).
      { rewrite <- p2_add. replace (emax - e + e) with emax by lia. reflexivity. }
      rewrite E. nra. }
    assert (Hr : ((if 0 <=? e then inject_Z (m * 2 ^ e)
                   else Qred (m # Z.to_pos (2 ^ (- e))))
                  == inject_Z m * 2 ^ e)%Q).
    { destruct (0 <=? e) eqn:Ee.
      - apply Z.leb_le in Ee. rewrite inject_Z_mult, <- p2_Z by exact Ee. reflexivity.
      - apply Z.leb_gt in Ee. rewrite Qred_correct, Qmake_Qdiv.
        rewrite Z2Pos.id by (apply Z.pow_pos_nonneg; lia).
        rewrite <- p2_Z by lia.
        pose proof (p2_opp e) as Ho. pose proof (p2_pos (- e)) as Pm.
        apply (Qmult_inj_r _ _ (2 ^ (- e))); [lra|].
        transitivity (inject_Z m); [field; lra|].
        transitivity (inject_Z m * (2 ^ (- e) * 2 ^ e))%Q; [rewrite Ho; ring|ring]. }
    split; [exact Hr|]. rewrite Hr. exact Hlt.
Qed.

(** No representable number is nearer to [n / d] than the rounded one. *)
Lemma round_float_nearest (prec emin n d mg eg : Z) :
  0 < prec -> 0 < n -> 0 < d ->
  0 <= mg <= 2 ^ prec -> emin <= eg ->
  (Qabs (inject_Z (float_mant (float_exp prec emin n d) n d)
         * 2 ^ float_exp prec emin n d - inject_Z n / inject_Z d)
   <= Qabs (inject_Z mg * 2 ^ eg - inject_Z n / inject_Z d))%Q.
Proof.
  intros Hp Hn Hd Hmg Heg.
  destruct (ilog2_spec n d Hn Hd) as [Hx _].
  set (e := float_exp prec emin n d) in *.
  destruct (Z.le_gt_cases e eg) as [Hle|Hgt].
  - pose proof (float_mant_nearest e n d (mg * 2 ^ (eg - e)) Hn Hd) as H.
    rewrite inject_Z_mult, <- p2_Z in H by lia.
    assert (E : (inject_Z mg * 2 ^ (eg - e) * 2 ^ e == inject_Z mg * 2 ^ eg)%Q).
    { rewrite <- Qmult_assoc, <- p2_add. replace (eg - e + e) with eg by lia. reflexivity. }
    rewrite E in H. exact H.
  - assert (Ee : e = ilog2 n d - prec + 1) by (unfold e, float_exp in *; lia).
    pose proof (float_mant_nearest e n d (2 ^ (prec - 1)) Hn Hd) as H.
    rewrite <- p2_Z in H by lia.
    assert (E : (2 ^ (prec - 1) * 2 ^ e == 2 ^ ilog2 n d)%Q).
    { rewrite <- p2_add. replace (prec - 1 + e) with (ilog2 n d) by lia. reflexivity. }
    rewrite E in H.
    set (x := (inject_Z n / inject_Z d)%Q) in *.
    eapply Qle_trans; [exact H|].
    assert (Hg : (inject_Z mg * 2 ^ eg <= 2 ^ ilog2 n d)%Q).
    { assert (E' : (2 ^ ilog2 n d == 2 ^ prec * 2 ^ (e - 1))%Q).
      { rewrite <- p2_add. replace (prec + (e - 1)) with (ilog2 n d) by lia. reflexivity. }
      rewrite E'. rewrite (p2_Z prec) by lia.
      assert (Hm2 : (inject_Z mg <= inject_Z (2 ^ prec))%Q) by (rewrite <- Zle_Qle; lia).
      assert (Hm0 : (0 <= inject_Z mg)%Q) by (apply inject_Z_nonneg; lia).
      assert (Hee : (2 ^ eg <= 2 ^ (e - 1))%Q) by (apply p2_le; lia).
      pose proof (p2_pos eg). pose proof (p2_pos (e - 1)).
      assert (Hp2 : (0 <= inject_Z (2 ^ prec))%Q) by lra.
      nra. }
    rewrite (Qabs_neg (2 ^ ilog2 n d - x)) by lra.
    rewrite (Qabs_neg (inject_Z mg * 2 ^ eg - x)) by lra.
    lra.
Qed.

Lemma inject_Z_div (q : Q) : (inject_Z (Qnum q) / inject_Z (Zpos (Qden q)) == q)%Q.
Proof. destruct q as [a b]. cbn [Qnum Qden]. symmetry. apply Qmake_Qdiv. Qed.

Lemma Qnum_pos (q : Q) : (0 < q)%Q -> 0 < Qnum q.
Proof. destruct q as [a b]. unfold Qlt. cbn. lia. Qed.

Lemma float_exp_ge (prec emin n d : Z) :
  emin <= float_exp prec emin n d /\
  ilog2 n d - prec + 1 <= float_exp prec emin n d.
Proof. unfold float_exp. lia. Qed.

(** What [round_float] returns is a number of the format. *)
Lemma round_float_representable (prec emin emax n d : Z) (r : Q) :
  0 < prec -> emin < emax -> 0 <= n -> 0 < d ->
  round_float prec emin emax n d = Some r ->
  representable prec emin r /\ (0 <= r)%Q /\ (r < 2 ^ emax)%Q.
Proof.
  intros Hp Hem Hn Hd H.
  destruct (Z.eq_dec n 0) as [->|Hnz].
  - cbn in H. injection H as <-. split; [|split].
    + exists 0, emin. split; [split; [lia|apply Z.pow_nonneg; lia]|].
      split; [lia|]. change (inject_Z 0) with 0%Q. ring.
    + apply Qle_refl.
    + apply p2_pos.
  - assert (Hn' : 0 < n) by lia.
    pose proof (round_float_spec prec emin emax n d Hp Hem Hn' Hd) as S.
    rewrite H in S. destruct S as [Hr Hlt].
    destruct (float_mant_spec (float_exp prec emin n d) n d Hn' Hd) as [H0 _].
    pose proof (float_mant_le prec emin n d Hp Hn' Hd) as Hle.
    split; [|split; [|exact Hlt]].
    + exists (float_mant (float_exp prec emin n d) n d), (float_exp prec emin n d).
      split; [lia|]. split; [apply float_exp_ge|exact Hr].
    + rewrite Hr. pose proof (p2_pos (float_exp prec emin n d)).
      pose proof (inject_Z_nonneg _ H0). nra.
Qed.

Lemma round_float_result_nearest (prec emin emax n d : Z) (r g : Q) :
  0 < prec -> emin < emax -> 0 < n -> 0 < d ->
  round_float prec emin emax n d = Some r ->
  representable prec emin g ->
  (Qabs (r - inject_Z n / inject_Z d) <= Qabs (g - inject_Z n / inject_Z d))%Q.
Proof.
  intros Hp Hem Hn Hd H (mg & eg & Hmg & Heg & Hg).
  pose proof (round_float_spec prec emin emax n d Hp Hem Hn Hd) as S.
  rewrite H in S. destruct S as [Hr _].
  rewrite Hr, Hg. apply round_float_nearest; assumption.
Qed.

(** A representable number is rounded to itself. *)
Lemma round_float_exact (prec emin emax n d : Z) (q : Q) :
  0 < prec -> emin < emax -> 0 < n -> 0 < d ->
  (inject_Z n / inject_Z d == q)%Q ->
  representable prec emin q -> (q < 2 ^ emax)%Q ->
  exists r, round_float prec emin emax n d = Some r /\ (r == q)%Q.
Proof.
  intros Hp Hem Hn Hd Hx (mg & eg & Hmg & Heg & Hg) Hlt.
  pose proof (round_float_spec prec emin emax n d Hp Hem Hn Hd) as S.
  pose proof (round_float_nearest prec emin n d mg eg Hp Hn Hd Hmg Heg) as N.
  rewrite <- Hg, Hx in N.
  setoid_replace (q - q)%Q with 0%Q in N by ring.
  change (Qabs 0) with 0%Q in N.
  set (v := (inject_Z (float_mant (float_exp prec emin n d) n d)
             * 2 ^ float_exp prec emin n d)%Q) in *.
  assert (Hv : (v == q)%Q).
  { pose proof (Qabs_nonneg (v - q)) as H0.
    assert (H1 : (Qabs (v - q) == 0)%Q) by (apply Qle_antisym; assumption).
    apply Qabs_Qle_condition in N. lra. }
  destruct (round_float prec emin emax n d) as [r|].
  - exists r. split; [reflexivity|]. destruct S as [Hr _]. rewrite Hr. exact Hv.
  - exfalso. lra.
Qed.

(** Below [2 ^ K] the rounded number is within half a unit of the last
    place of that binade. *)
Lemma round_float_close (prec emin emax n d K : Z) :
  0 < prec -> emin < emax -> 0 < n -> 0 < d ->
  emin < K -> K < emax ->
  (inject_Z n / inject_Z d < 2 ^ K)%Q ->
  exists r, round_float prec emin emax n d = Some r /\
            (Qabs (r - inject_Z n / inject_Z d)
             <= 2 ^ Z.max emin (K - prec) / 2)%Q.
Proof.
  intros Hp Hem Hn Hd HK1 HK2 Hx.
  pose proof (round_float_spec prec emin emax n d Hp Hem Hn Hd) as S.
  destruct (float_mant_spec (float_exp prec emin n d) n d Hn Hd) as [H0 H].
  destruct (ilog2_spec n d Hn Hd) as [HL _].
  assert (HLK : ilog2 n d < K).
  { apply p2_lt_inv. eapply Qle_lt_trans; [exact HL|exact Hx]. }
  set (e := float_exp prec emin n d) in *.
  assert (He : e <= Z.max emin (K - prec)) by (unfold e, float_exp; lia).
  pose proof (p2_le _ _ He) as Hle.
  set (v := (inject_Z (float_mant e n d) * 2 ^ e)%Q) in *.
  set (x := (inject_Z n / inject_Z d)%Q) in *.
  assert (Hb : (Qabs (v - x) <= 2 ^ Z.max emin (K - prec) / 2)%Q).
  { eapply Qle_trans; [exact H|].
    assert (E1 : (2 ^ e / 2 == (1 # 2) * 2 ^ e)%Q) by field.
    assert (E2 : (2 ^ Z.max emin (K - prec) / 2
                  == (1 # 2) * 2 ^ Z.max emin (K - prec))%Q) by field.
    rewrite E1, E2. lra. }
  destruct (round_float prec emin emax n d) as [r|].
  - exists r. split; [reflexivity|]. destruct S as [Hr _]. rewrite Hr. exact Hb.
  - exfalso.
    assert (HeK : e <= K - 1) by lia.
    pose proof (p2_le _ _ HeK) as H1.
    assert (E : (2 ^ K == 2 * 2 ^ (K - 1))%Q).
    { rewrite <- p2_S. replace (K - 1 + 1) with K by lia. reflexivity. }
    assert (H2 : (2 ^ (K + 1) <= 2 ^ emax)%Q) by (apply p2_le; lia).
    rewrite p2_S in H2.
    apply Qabs_Qle_condition in H.
    assert (E1 : (2 ^ e / 2 == (1 # 2) * 2 ^ e)%Q) by field.
    rewrite E1 in H. pose proof (p2_pos e). pose proof (p2_pos (K - 1)). lra.
Qed.

(** From [2 ^ K] on the rounded number is a multiple of
    [2 ^ (K - prec + 1)]. *)
Lemma round_float_grid (prec emin emax n d K : Z) (r : Q) :
  0 < prec -> emin < emax -> 0 < n -> 0 < d ->
  (2 ^ K <= inject_Z n / inject_Z d)%Q ->
  round_float prec emin emax n d = Some r ->
  exists J : Z, (r == inject_Z J * 2 ^ (K - prec + 1))%Q.
Proof.
  intros Hp Hem Hn Hd Hx H.
  pose proof (round_float_spec prec emin emax n d Hp Hem Hn Hd) as S.
  rewrite H in S. destruct S as [Hr _].
  destruct (ilog2_spec n d Hn Hd) as [_ HL].
  assert (HLK : K < ilog2 n d + 1).
  { apply p2_lt_inv. eapply Qle_lt_trans; [exact Hx|exact HL]. }
  set (e := float_exp prec emin n d) in *.
  assert (He : K - prec + 1 <= e) by (unfold e, float_exp; lia).
  exists (float_mant e n d * 2 ^ (e - (K - prec + 1))).
  rewrite Hr, inject_Z_mult, <- p2_Z by lia.
  rewrite <- Qmult_assoc, <- p2_add.
  replace (e - (K - prec + 1) + (K - prec + 1)) with e by lia. reflexivity.
Qed.

(** Above [2 ^ (j + prec)] a representable number is a multiple of
    [2 ^ (j + 1)]. *)
Lemma representable_grid (prec emin j : Z) (q : Q) :
  0 < prec -> representable prec emin q -> (2 ^ (j + prec) < q)%Q ->
  exists J : Z, (q == inject_Z J * 2 ^ (j + 1))%Q.
Proof.
  intros Hp (m & e & Hm & He & Hq) Hlt.
  assert (Hje : j < e).
  { apply Z.nle_gt. intros Hle.
    assert (H1 : (2 ^ e <= 2 ^ j)%Q) by (apply p2_le; exact Hle).
    rewrite p2_add, (p2_Z prec) in Hlt by lia.
    assert (H2 : (inject_Z m <= inject_Z (2 ^ prec))%Q) by (rewrite <- Zle_Qle; lia).
    assert (H3 : (0 <= inject_Z m)%Q) by (apply inject_Z_nonneg; lia).
    pose proof (p2_pos e). pose proof (p2_pos j).
    assert (H4 : (0 <= inject_Z (2 ^ prec))%Q) by lra.
    rewrite Hq in Hlt. nra. }
  exists (m * 2 ^ (e - (j + 1))).
  rewrite Hq, inject_Z_mult, <- p2_Z by lia.
  rewrite <- Qmult_assoc, <- p2_add.
  replace (e - (j + 1) + (j + 1)) with e by lia. reflexivity.
Qed.

Lemma representable_weaken (prec prec' emin emin' : Z) (q : Q) :
  0 <= prec <= prec' -> emin' <= emin ->
  representable prec emin q -> representable prec' emin' q.
Proof.
  intros Hp He (m & e & Hm & Hee & Hq). exists m, e.
  split; [|split; [lia|exact Hq]].
  split; [lia|]. eapply Z.le_trans; [apply Hm|].
  apply Z.pow_le_mono_r; lia.
Qed.

Lemma round_div_exact (a b G : Z) :
  0 <= a -> 0 < b -> (inject_Z a / inject_Z b == inject_Z G)%Q ->
  round_div a b = G.
Proof.
  intros Ha Hb Hx. pose proof (round_div_Q a b Ha Hb) as H.
  rewrite Hx in H. apply Qabs_Qle_condition in H. destruct H as [H1 H2].
  set (m := round_div a b) in *.
  assert (H3 : (inject_Z (2 * (m - G)) <= inject_Z 1)%Q).
  { rewrite inject_Z_mult, inject_Z_minus. change (inject_Z 2) with 2%Q.
    change (inject_Z 1) with 1%Q. lra. }
  assert (H4 : (inject_Z (-1) <= inject_Z (2 * (m - G)))%Q).
  { rewrite inject_Z_mult, inject_Z_minus. change (inject_Z 2) with 2%Q.
    change (inject_Z (-1)) with (-1)%Q. lra. }
  rewrite <- Zle_Qle in H3, H4. lia.
Qed.

Lemma millionths_nonneg (q : Q) : 0 <= millionths q.
Proof. unfold millionths. apply round_div_nonneg; lia. Qed.

Lemma Qnum_nonneg (q : Q) : (0 <= q)%Q -> 0 <= Qnum q.
Proof. destruct q as [a b]. unfold Qle. cbn. lia. Qed.

(** The six decimals written for [q] are within half a millionth. *)
Lemma millionths_close (q : Q) :
  (0 <= q)%Q ->
  (Qabs (inject_Z (millionths q) / inject_Z (10 ^ 6) - q) <= 1 # 2000000)%Q.
Proof.
  intros Hq. unfold millionths. rewrite Z.abs_eq by (apply Qnum_nonneg; exact Hq).
  pose proof (round_div_Q (Qnum q * 10 ^ 6) (Zpos (Qden q))) as H.
  specialize (H ltac:(pose proof (Qnum_nonneg q Hq); lia) ltac:(lia)).
  set (k := round_div _ _) in *.
  assert (E : (inject_Z (Qnum q * 10 ^ 6) / inject_Z (Zpos (Qden q))
               == q * inject_Z (10 ^ 6))%Q).
  { rewrite inject_Z_mult. rewrite <- (inject_Z_div q) at 3. field.
    pose proof (inject_Z_pos (Zpos (Qden q)) ltac:(lia)). lra. }
  rewrite E in H. change (inject_Z (10 ^ 6)) with (1000000 # 1)%Q in *.
  apply Qabs_Qle_condition in H. apply Qabs_Qle_condition.
  assert (E2 : (inject_Z k / (1000000 # 1) == inject_Z k * (1 # 1000000))%Q) by field.
  rewrite E2. split; lra.
Qed.

(** The float read from the six decimals of a binary32 number that is
    not negative: it is finite and within a millionth. *)
Lemma reread_close (q : Q) :
  (0 <= q)%Q -> representable 24 (-149) q -> (q < 2 ^ 128)%Q ->
  exists D f',
    round_double (millionths q) (10 ^ 6) = Some D /\
    round_single (Qnum D) (Zpos (Qden D)) = Some f' /\
    (Qabs (f' - q) <= 1 # 1000000)%Q.
Proof.
  intros Hq Hrep Hmax.
  pose proof (millionths_close q Hq) as Hk.
  pose proof (millionths_nonneg q) as Hk0.
  set (k := millionths q) in *.
  destruct (Z.eq_dec k 0) as [Ek|Ek].
  { rewrite Ek in *. exists 0%Q, 0%Q. split; [reflexivity|]. split; [reflexivity|].
    apply Qabs_Qle_condition in Hk. apply Qabs_Qle_condition.
    assert (E0 : (inject_Z 0 / inject_Z (10 ^ 6) == 0)%Q) by reflexivity.
    rewrite E0 in Hk. split; lra. }
  assert (Hkp : 0 < k) by lia.
  assert (Hdp : 0 < 10 ^ 6) by reflexivity.
  set (x := (inject_Z k / inject_Z (10 ^ 6))%Q) in *.
  assert (Hx1 : (1 # 1000000 <= x)%Q).
  { unfold x. change (inject_Z (10 ^ 6)) with (1000000 # 1)%Q.
    assert (H1 : (1 <= inject_Z k)%Q).
    { change 1%Q with (inject_Z 1). rewrite <- Zle_Qle. lia. }
    assert (E2 : (inject_Z k / (1000000 # 1) == inject_Z k * (1 # 1000000))%Q) by field.
    rewrite E2. lra. }
  apply Qabs_Qle_condition in Hk.
  destruct (Qlt_le_dec q (2 ^ 23)) as [Hsmall|Hbig].
  - (* below 2^23 *)
    assert (Hx24 : (x < 2 ^ 24)%Q).
    { change (2 ^ 24)%Q with (16777216 # 1)%Q.
      change (2 ^ 23)%Q with (8388608 # 1)%Q in Hsmall. lra. }
    destruct (round_float_close 53 (-1074) 1024 k (10 ^ 6) 24
                eq_refl eq_refl Hkp Hdp eq_refl eq_refl Hx24) as (D & HD & HDx).
    fold x in HDx.
    change (2 ^ Z.max (-1074) (24 - 53) / 2)%Q with (1 # 1073741824)%Q in HDx.
    apply Qabs_Qle_condition in HDx.
    assert (HDp : (0 < D)%Q) by lra.
    pose proof (Qnum_pos D HDp) as HnD.
    pose proof (inject_Z_div D) as ED.
    destruct (Qlt_le_dec D (2 ^ 4)) as [H16|H16].
    + destruct (round_float_close 24 (-149) 128 (Qnum D) (Zpos (Qden D)) 4
                  eq_refl eq_refl HnD eq_refl eq_refl eq_refl) as (f' & Hf & Hfx).
      { rewrite ED. exact H16. }
      rewrite ED in Hfx.
      change (2 ^ Z.max (-149) (4 - 24) / 2)%Q with (1 # 2097152)%Q in Hfx.
      apply Qabs_Qle_condition in Hfx.
      exists D, f'. split; [exact HD|]. split; [exact Hf|].
      apply Qabs_Qle_condition. split; lra.
    + destruct (round_float_close 24 (-149) 128 (Qnum D) (Zpos (Qden D)) 25
                  eq_refl eq_refl HnD eq_refl eq_refl eq_refl) as (f' & Hf & _).
      { rewrite ED. change (2 ^ 25)%Q with (33554432 # 1)%Q.
        change (2 ^ 24)%Q with (16777216 # 1)%Q in Hx24. lra. }
      exists D, f'. split; [exact HD|]. split; [exact Hf|].
      pose proof (round_float_result_nearest 24 (-149) 128 (Qnum D) (Zpos (Qden D))
                    f' q eq_refl eq_refl HnD eq_refl Hf Hrep) as Hn.
      rewrite ED in Hn.
      change (2 ^ 4)%Q with (16 # 1)%Q in H16.
      destruct (round_float_grid 24 (-149) 128 (Qnum D) (Zpos (Qden D)) 3 f'
                  eq_refl eq_refl HnD eq_refl) as (J1 & HJ1); [|exact Hf|].
      { rewrite ED. change (2 ^ 3)%Q with (8 # 1)%Q. lra. }
      destruct (representable_grid 24 (-149) (-21) q eq_refl Hrep) as (J2 & HJ2).
      { change (2 ^ (-21 + 24))%Q with (8 # 1)%Q. lra. }
      change (2 ^ (3 - 24 + 1))%Q with (1 # 1048576)%Q in HJ1.
      change (2 ^ (-21 + 1))%Q with (1 # 1048576)%Q in HJ2.
      assert (HqD : (Qabs (q - D) <= 1002 # 2000000000)%Q).
      { apply Qabs_Qle_condition. split; lra. }
      assert (Hfq : (Qabs (f' - q) <= 1002 # 1000000000)%Q).
      { setoid_replace (f' - q)%Q with ((f' - D) + (D - q))%Q by ring.
        eapply Qle_trans; [apply Qabs_triangle|].
        rewrite <- (Qabs_opp (D - q)).
        setoid_replace (- (D - q))%Q with (q - D)%Q by ring.
        lra. }
      apply Qabs_Qle_condition in Hfq. destruct Hfq as [Hf1 Hf2].
      rewrite HJ1, HJ2 in Hf1, Hf2.
      assert (HJ : -1 <= J1 - J2 <= 1).
      { assert (Ha : (inject_Z (J1 - J2) < inject_Z 2)%Q).
        { rewrite inject_Z_minus. change (inject_Z 2) with 2%Q. lra. }
        assert (Hb : (inject_Z (-2) < inject_Z (J1 - J2))%Q).
        { rewrite inject_Z_minus. change (inject_Z (-2)) with (-2)%Q. lra. }
        rewrite <- Zlt_Qlt in Ha, Hb. lia. }
      destruct HJ as [Ha Hb]. rewrite Zle_Qle in Ha, Hb.
      rewrite inject_Z_minus in Ha, Hb.
      change (inject_Z (-1)) with (-1)%Q in Ha. change (inject_Z 1) with 1%Q in Hb.
      rewrite HJ1, HJ2. apply Qabs_Qle_condition. split; lra.
  - (* from 2^23 on the six decimals are exact *)
    destruct (representable_grid 24 (-149) (-2) q eq_refl Hrep) as (J & HJ).
    { change (2 ^ (-2 + 24))%Q with (4194304 # 1)%Q.
      change (2 ^ 23)%Q with (8388608 # 1)%Q in Hbig. lra. }
    change (2 ^ (-2 + 1))%Q with (1 # 2)%Q in HJ.
    assert (HkJ : k = J * 500000).
    { unfold k, millionths. rewrite Z.abs_eq by (apply Qnum_nonneg; exact Hq).
      apply round_div_exact; [pose proof (Qnum_nonneg q Hq); lia|lia|].
      rewrite !inject_Z_mult. change (inject_Z (10 ^ 6)) with (1000000 # 1)%Q.
      change (inject_Z 500000) with (500000 # 1)%Q.
      transitivity (q * (1000000 # 1))%Q.
      - rewrite <- (inject_Z_div q) at 3. field.
        pose proof (inject_Z_pos (Zpos (Qden q)) ltac:(lia)). lra.
      - rewrite HJ. ring. }
    assert (Exq : (x == q)%Q).
    { unfold x. rewrite HkJ, inject_Z_mult.
      change (inject_Z (10 ^ 6)) with (1000000 # 1)%Q.
      change (inject_Z 500000) with (500000 # 1)%Q. rewrite HJ. field. }
    destruct (round_float_exact 53 (-1074) 1024 k (10 ^ 6) q
                eq_refl eq_refl Hkp Hdp Exq) as (D & HD & EDq).
    { apply (representable_weaken 24 53 (-149) (-1074)); [lia|lia|exact Hrep]. }
    { eapply Qlt_trans; [exact Hmax|]. apply p2_lt. lia. }
    assert (HDp : (0 < D)%Q).
    { rewrite EDq. change (2 ^ 23)%Q with (8388608 # 1)%Q in Hbig. lra. }
    pose proof (Qnum_pos D HDp) as HnD.
    destruct (round_float_exact 24 (-149) 128 (Qnum D) (Zpos (Qden D)) q
                eq_refl eq_refl HnD eq_refl) as (f' & Hf & Efq).
    { rewrite inject_Z_div. exact EDq. }
    { exact Hrep. }
    { exact Hmax. }
    exists D, f'. split; [exact HD|]. split; [exact Hf|].
    rewrite Efq. setoid_replace (q - q)%Q with 0%Q by ring. discriminate.
Qed.

(** ** Pointers into the file *)

Lemma span_len_le (keep : ascii -> bool) (l : list ascii) :
  (span_len keep l <= List.length l)%nat.
Proof.
  induction l as [|c l IH]; simpl; [lia|].
  destruct (keep c); simpl; lia.
Qed.

Lemma from_nil (p : parser) (q : nat) :
  (fe p <= q)%nat -> from p q = [].
Proof. intros H. unfold from. apply skipn_all2. exact H. Qed.

Lemma from_cons (p : parser) (q : nat) :
  (q < fe p)%nat -> from p q = deref p q :: from p (S q).
Proof.
  unfold from, deref, fe. generalize (fb p). induction q as [|q IH]; intros l H.
  - destruct l; simpl in *; [lia|reflexivity].
  - destruct l as [|c l]; simpl in H; [lia|].
    change (skipn (S q) (c :: l)) with (skipn q l).
    change (skipn (S (S q)) (c :: l)) with (skipn (S q) l).
    simpl nth. apply IH. lia.
Qed.

Lemma from_length (p : parser) (q : nat) :
  List.length (from p q) = (fe p - q)%nat.
Proof. unfold from, fe. apply length_skipn. Qed.

Lemma from_add (p : parser) (q k : nat) :
  from p (q + k) = skipn k (from p q).
Proof. unfold from. rewrite skipn_skipn. f_equal. lia. Qed.

(** ** White space and comments *)

Lemma blank_after_comment (r : list ascii) :
  blank_from true r = true ->
  blank_from false (skipn (span_len not_newline r) r) = true.
Proof.
  induction r as [|c r IH]; simpl; intros H; [reflexivity|].
  destruct (not_newline c) eqn:E; simpl.
  - apply IH. exact H.
  - unfold not_newline in E. apply negb_false_iff in E.
    unfold eqc in E. apply Ascii.eqb_eq in E. subst c. simpl. exact H.
Qed.

Lemma isspace_not_hash (c : ascii) : isspace c = true -> eqc c "#" = false.
Proof.
  intros H. destruct (eqc c "#") eqn:E; [|reflexivity].
  unfold eqc in E. apply Ascii.eqb_eq in E. subst c. discriminate H.
Qed.

Lemma blank_after_space (l : list ascii) :
  blank_from false l = true ->
  blank_from false (skipn (span_len isspace l) l) = true.
Proof.
  induction l as [|c l IH]; simpl; intros H; [reflexivity|].
  destruct (isspace c) eqn:E; simpl.
  - rewrite (isspace_not_hash c E) in H. simpl in H. apply IH. exact H.
  - rewrite E. exact H.
Qed.

Lemma eat_space_loop_blank (fuel : nat) :
  forall p : parser,
    tb p = te p -> (te p <= fe p)%nat -> (fe p - te p < fuel)%nat ->
    blank (from p (te p)) = true ->
    let p' := eat_space_loop fuel p in
    tb p' = fe p' /\ fb p' = fb p /\ t p' = t p.
Proof.
  induction fuel as [|fuel IH]; intros p Hb Hle Hf Hbl; [lia|].
  simpl. destruct (tb p =? fe p)%nat eqn:E.
  - apply Nat.eqb_eq in E. auto.
  - apply Nat.eqb_neq in E.
    assert (Hlt : (te p < fe p)%nat) by lia.
    pose proof (from_cons p (te p) Hlt) as Hc.
    unfold blank in Hbl. rewrite Hc in Hbl. simpl in Hbl.
    destruct (eqc (deref p (te p)) "#") eqn:Eh.
    + set (k := span_len not_newline (from p (te p))).
      assert (Hk : (1 <= k <= fe p - te p)%nat).
      { unfold k. split.
        - rewrite Hc. simpl. unfold eqc in Eh. apply Ascii.eqb_eq in Eh.
          rewrite Eh. simpl. lia.
        - rewrite <- from_length. apply span_len_le. }
      specialize (IH (mk_parser (fb p) (t p) (te p + k) (te p + k) (line p + 1))).
      simpl in IH. unfold fe in IH at 1 2 3. simpl in IH.
      apply IH; try reflexivity; try (unfold fe in *; lia).
      change (blank (from p (te p + k)) = true).
      rewrite from_add. unfold blank, k. rewrite Hc.
      unfold eqc in Eh. apply Ascii.eqb_eq in Eh. rewrite Eh. simpl.
      rewrite Eh in Hc. apply blank_after_comment. exact Hbl.
    + destruct (isspace (deref p (te p))) eqn:Es; [|discriminate Hbl].
      set (k := span_len isspace (from p (te p))).
      assert (Hk : (1 <= k <= fe p - te p)%nat).
      { unfold k. split.
        - rewrite Hc. simpl. rewrite Es. lia.
        - rewrite <- from_length. apply span_len_le. }
      specialize (IH (mk_parser (fb p) (t p) (te p + k) (te p + k)
                        (line p + newlines k (from p (te p))))).
      simpl in IH. unfold fe in IH at 1 2 3. simpl in IH.
      apply IH; try reflexivity; try (unfold fe in *; lia).
      change (blank (from p (te p + k)) = true).
      rewrite from_add. unfold blank, k. apply blank_after_space.
      rewrite Hc. simpl. rewrite Eh, Es. exact Hbl.
Qed.

Lemma get_token_blank (buf : list ascii) :
  blank buf = true ->
  t (_get_token (mk_parser buf TOK_EOF 0 0 1)) = TOK_EOF.
Proof.
  intros H. unfold _get_token.
  set (p0 := set_tb (mk_parser buf TOK_EOF 0 0 1) (te (mk_parser buf TOK_EOF 0 0 1))).
  destruct (eat_space_loop_blank (S (fe p0 - te p0)) p0) as (H1 & H2 & H3);
    try (simpl; lia); try reflexivity.
  { exact H. }
  unfold _eat_space. rewrite H1, Nat.eqb_refl. reflexivity.
Qed.

(** C2. On a buffer that holds only white space and comments [_file]
    matches zero sections and returns a NULL root, which [read_config]
    takes for a failure: it returns 0, with an empty document and nothing
    logged. *)
Theorem read_config_blank_returns_0 (buf : list ascii) :
  blank buf = true ->
  read_config buf = mk_outcome 0 [] None.
Proof.
  intros H. unfold read_config, parse_fuel.
  replace (2 * List.length buf + 2)%nat with (S (2 * List.length buf + 1)) by lia.
  simpl _file. rewrite (get_token_blank buf H). reflexivity.
Qed.

Lemma read_config_blank_returns_0_witness :
  blank (str "  # only a comment") = true /\
  read_config (str "  # only a comment") = mk_outcome 0 [] None.
Proof.
  split; [reflexivity|].
  apply (read_config_blank_returns_0 (str "  # only a comment")). reflexivity.
Defined.

(** C5. A comment line before the faulty binding is counted twice: once
    when the comment is skipped and once when its newline is. The missing
    value of ['a = '] on line 2 is reported on line 3; no node is left in
    the document. *)
Theorem missing_value_after_comment_line :
  read_config (str "# c" ++ newline :: str "a = ")
  = mk_outcome 0 [] (Some (expected_a_value 3)).
Proof. reflexivity. Qed.

(** The same binding after a blank line instead is reported on line 2. *)
Lemma missing_value_after_blank_line :
  read_config (newline :: str "a = ")
  = mk_outcome 0 [] (Some (expected_a_value 2)).
Proof. reflexivity. Qed.

(** ** Path lookup *)

Lemma hunt_empty_segment (l : list config_node) :
  (forall n, In n l -> key n <> []) -> hunt [] l = None.
Proof.
  induction l as [|n l IH]; intros Hl; [reflexivity|].
  simpl. destruct (key n) eqn:Ek.
  - exfalso. apply (Hl n); [left; reflexivity|exact Ek].
  - simpl. apply IH. intros m Hm. apply Hl. right. exact Hm.
Qed.

Lemma skip_separators_only (sep : ascii) (path : list ascii) :
  forallb (eqc sep) path = true ->
  skipn (span_len (eqc sep) path) path = [].
Proof.
  induction path as [|c path IH]; [reflexivity|].
  simpl. intros Hp. apply andb_true_iff in Hp. destruct Hp as [Hc Hp].
  rewrite Hc. simpl. apply IH. exact Hp.
Qed.

Lemma hunt_empty_key (l : list config_node) : hunt [] l = find empty_key l.
Proof.
  induction l as [|n l IH]; [reflexivity|].
  cbn [hunt find]. unfold empty_key at 1.
  destruct (key n) as [|c k]; cbn [_tok_match]; [reflexivity|exact IH].
Qed.

(** C10, as stated, fails on a tree that holds an empty key, which the
    parser builds from an identifier token that starts with a NUL byte:
    there the empty path, and a path of separators only, find the node
    with that key. *)
Lemma empty_path_finds_empty_key :
  let doc := cf_root (read_config (NUL :: str "=1")) in
  ret (read_config (NUL :: str "=1")) = 1 /\
  doc = [mk_node [] [] [CFG_INT 1]] /\
  find_config_node doc [] "/" = Some (mk_node [] [] [CFG_INT 1]) /\
  find_config_node doc (str "//") "/" = Some (mk_node [] [] [CFG_INT 1]).
Proof. cbv zeta. repeat split; vm_compute; reflexivity. Qed.

(** C10, amended. An empty path, or a path made of separators only, finds
    the first top-level node whose key is empty; so on a tree whose
    top-level keys are not empty it finds nothing. *)
Theorem find_config_node_empty_path
    (cn : list config_node) (path : list ascii) (sep : ascii) :
  forallb (eqc sep) path = true ->
  find_config_node cn path sep = find empty_key cn /\
  ((forall n, In n cn -> key n <> []) -> find_config_node cn path sep = None).
Proof.
  intros Hp.
  assert (E : find_config_node cn path sep = hunt [] cn).
  { unfold find_config_node.
    destruct cn as [|n0 cn0]; [reflexivity|].
    cbn -[hunt span_len skipn firstn].
    rewrite (skip_separators_only sep path Hp).
    cbn -[hunt]. destruct (hunt [] (n0 :: cn0)); reflexivity. }
  split.
  - rewrite E. apply hunt_empty_key.
  - intros Hk. rewrite E. apply hunt_empty_segment. exact Hk.
Qed.

Lemma find_config_node_empty_path_witness :
  let doc := cf_root (read_config (str "a { b { c = 1 } }")) in
  find_config_node doc (str "//") "/" = find empty_key doc /\
  ((forall n, In n doc -> key n <> []) ->
   find_config_node doc (str "//") "/" = None).
Proof.
  cbv zeta. apply find_config_node_empty_path. reflexivity.
Defined.

(** C3. When the path resolves to a section, whose [v] is NULL, each typed
    lookup reads [n->v->type] through the NULL pointer instead of returning
    the default. *)
Theorem typed_lookup_on_section
    (cn : list config_node) (path : list ascii) (sep : ascii) (n : config_node) :
  find_config_node cn path sep = Some n ->
  v n = [] ->
  (forall fail, find_config_str cn path sep fail = NullDeref) /\
  (forall fail, find_config_int cn path sep fail = NullDeref) /\
  (forall fail, find_config_float cn path sep fail = NullDeref).
Proof.
  intros Hn Hv.
  unfold find_config_str, find_config_int, find_config_float.
  rewrite Hn, Hv. repeat split.
Qed.

Lemma typed_lookup_on_section_witness :
  find_config_int (cf_root (read_config (str "a { b = 1 }"))) (str "a") "/" (-1)
  = NullDeref.
Proof.
  assert (H1 : find_config_node (cf_root (read_config (str "a { b = 1 }")))
                 (str "a") "/"
               = Some (mk_node (str "a") [mk_node (str "b") [] [CFG_INT 1]] []))
    by (vm_compute; reflexivity).
  exact (proj1 (proj2 (typed_lookup_on_section _ _ _ _ H1 eq_refl)) (-1)).
Defined.

(** Where the resolved node is a binding the lookups do what is asked of
    them: the first value when its type is the one requested, the default
    otherwise, and the default when nothing is found. *)
Lemma typed_lookup_on_binding
    (cn : list config_node) (path : list ascii) (sep : ascii) (fail : Z) :
  match find_config_node cn path sep with
  | Some n =>
      match v n with
      | CFG_INT i :: _ => find_config_int cn path sep fail = Returned i
      | _ :: _ => find_config_int cn path sep fail = Returned fail
      | [] => True
      end
  | None => find_config_int cn path sep fail = Returned fail
  end.
Proof.
  unfold find_config_int.
  destruct (find_config_node cn path sep) as [n|]; [|reflexivity].
  destruct (v n) as [|[s|r|i] vs]; auto.
Qed.

(** *** The lookup against its specification *)

Lemma same_bytes_true (a b : list ascii) : same_bytes a b = true <-> a = b.
Proof.
  unfold same_bytes. destruct (list_eq_dec ascii_dec a b); split; intros H;
    try reflexivity; try assumption; try discriminate. contradiction.
Qed.

Lemma tok_match_true (s seg : list ascii) : _tok_match s seg = true <-> s = seg.
Proof.
  revert seg. induction s as [|c s IH]; intros [|d seg]; simpl;
    try (split; [discriminate|discriminate]); [split; reflexivity|].
  unfold eqc. destruct (Ascii.eqb c d) eqn:Ecd.
  - apply Ascii.eqb_eq in Ecd. subst d. rewrite IH.
    split; intros H; [rewrite H; reflexivity|injection H; auto].
  - apply Ascii.eqb_neq in Ecd. split; [discriminate|].
    intros H. exfalso. apply Ecd. injection H. auto.
Qed.

Lemma tok_match_same_bytes (s seg : list ascii) :
  _tok_match s seg = same_bytes s seg.
Proof.
  destruct (_tok_match s seg) eqn:E1; destruct (same_bytes s seg) eqn:E2;
    try reflexivity.
  - apply tok_match_true in E1. apply same_bytes_true in E1. congruence.
  - apply same_bytes_true in E2. apply tok_match_true in E2. congruence.
Qed.

Lemma hunt_find (seg : list ascii) (cn : list config_node) :
  hunt seg cn = find (fun n => same_bytes (key n) seg) cn.
Proof.
  induction cn as [|n cn IH]; simpl; [reflexivity|].
  rewrite tok_match_same_bytes, IH. reflexivity.
Qed.

Lemma span_len_stops (f : ascii -> bool) (l : list ascii) (c : ascii) (r : list ascii) :
  skipn (span_len f l) l = c :: r -> f c = false.
Proof.
  induction l as [|d l IH]; simpl; [discriminate|].
  destruct (f d) eqn:E; simpl.
  - exact IH.
  - intros H. injection H as -> _. exact E.
Qed.

Lemma split_on_not_nil (sep : ascii) (l : list ascii) : split_on sep l <> [].
Proof.
  destruct l as [|c l]; simpl; [discriminate|].
  destruct (eqc sep c); [discriminate|].
  destruct (split_on sep l); discriminate.
Qed.

Lemma segments_trim (sep : ascii) (l : list ascii) :
  segments sep l = segments sep (skipn (span_len (eqc sep) l) l).
Proof.
  unfold segments. induction l as [|c l IH]; [reflexivity|].
  simpl. destruct (eqc sep c) eqn:E; simpl.
  - destruct (split_on sep l) eqn:Es.
    + exfalso. exact (split_on_not_nil sep l Es).
    + exact IH.
  - rewrite E. reflexivity.
Qed.

Lemma eqc_sym (a b : ascii) : eqc a b = eqc b a.
Proof. unfold eqc. apply Ascii.eqb_sym. Qed.

Lemma split_on_segment (sep : ascii) (l : list ascii) :
  let k := span_len (fun c => negb (eqc c sep)) l in
  split_on sep l
  = firstn k l :: match skipn k l with
                  | [] => []
                  | _ :: r => split_on sep r
                  end.
Proof.
  induction l as [|c l IH]; [reflexivity|].
  simpl. rewrite (eqc_sym c sep). destruct (eqc sep c) eqn:E; simpl.
  - reflexivity.
  - simpl in IH. rewrite IH. reflexivity.
Qed.

Lemma drop_empty_not_nil (ss : list (list ascii)) :
  ss <> [] -> drop_empty ss <> [].
Proof.
  induction ss as [|s ss IH]; intros H; [contradiction|].
  simpl. destruct s; destruct ss; try discriminate.
  apply IH. discriminate.
Qed.

Lemma segments_after_separator (sep : ascii) (r : list ascii) :
  segments sep (sep :: r) = segments sep r.
Proof.
  unfold segments. simpl. unfold eqc. rewrite Ascii.eqb_refl. simpl.
  destruct (split_on sep r) eqn:E; [|reflexivity].
  exfalso. exact (split_on_not_nil sep r E).
Qed.

Lemma find_loop_walk (sep : ascii) (fuel : nat) :
  forall (cn : list config_node) (path : list ascii),
    (List.length path < fuel)%nat ->
    find_loop fuel cn path sep = Some (walk cn (segments sep path)).
Proof.
  induction fuel as [|fuel IH]; intros cn path Hf; [lia|].
  destruct cn as [|n0 cn0].
  { simpl. destruct (segments sep path); reflexivity. }
  cbn -[hunt span_len skipn firstn walk segments].
  rewrite (segments_trim sep path).
  set (path1 := skipn (span_len (eqc sep) path) path).
  assert (Hlen : (List.length path1 <= List.length path)%nat).
  { unfold path1. rewrite length_skipn. lia. }
  assert (Hhd : forall c r, path1 = c :: r -> eqc sep c = false).
  { intros c r. unfold path1. apply span_len_stops. }
  clearbody path1.
  unfold segments. rewrite (split_on_segment sep path1).
  set (k := span_len (fun c => negb (eqc c sep)) path1).
  cbv zeta. fold k.
  rewrite hunt_find.
  destruct (skipn k path1) as [|c r] eqn:Ee.
  - (* the last segment *)
    assert (Ed : drop_empty [firstn k path1] = [firstn k path1])
      by (simpl; destruct (firstn k path1); reflexivity).
    rewrite Ed. cbn [walk].
    destruct (find _ (n0 :: cn0)); reflexivity.
  - (* a separator follows *)
    assert (Hc : c = sep).
    { pose proof (span_len_stops _ path1 c r Ee) as H. simpl in H.
      apply negb_false_iff in H. unfold eqc in H.
      apply Ascii.eqb_eq in H. exact H. }
    subst c.
    assert (Hk : (1 <= k)%nat).
    { destruct k; [|lia]. simpl in Ee. specialize (Hhd sep r Ee).
      unfold eqc in Hhd. rewrite Ascii.eqb_refl in Hhd. discriminate. }
    assert (Hseg : firstn k path1 <> []).
    { destruct path1; [simpl in Ee; destruct k; discriminate|].
      destruct k; [lia|]. discriminate. }
    assert (Hrest : drop_empty (split_on sep r) <> [])
      by (apply drop_empty_not_nil, split_on_not_nil).
    assert (Ed : drop_empty (firstn k path1 :: split_on sep r)
                 = firstn k path1 :: drop_empty (split_on sep r)).
    { simpl. destruct (firstn k path1); [contradiction|reflexivity]. }
    rewrite Ed. cbn [walk].
    destruct (find _ (n0 :: cn0)) as [n|]; [|reflexivity].
    rewrite IH.
    + rewrite segments_after_separator. unfold segments.
      destruct (drop_empty (split_on sep r)); [contradiction|reflexivity].
    + assert (Hl : List.length (skipn k path1) = (List.length path1 - k)%nat)
        by apply length_skipn.
      rewrite Ee in Hl. simpl in Hl |- *. lia.
Qed.

(** C6. [find_config_node] is the lookup the specification describes: the
    path is split on the separator, leading separators are trimmed at each
    segment boundary, each segment is searched for among the siblings from
    the left by exact comparison of the bytes, the search goes down into
    the children of the match only while segments remain, and the match of
    the last segment is the answer; nothing is found as soon as a segment
    has no match. On the tree of ['a { b { c = 1 } }'] the path ["a/b/c"]
    finds the binding [c] and ["a/x"] finds nothing. *)
Theorem find_config_node_is_walk :
  (forall cn path sep,
      find_config_node cn path sep = walk cn (segments sep path)) /\
  find_config_node (cf_root (read_config (str "a { b { c = 1 } }")))
    (str "a/b/c") "/"
  = Some (mk_node (str "c") [] [CFG_INT 1]) /\
  find_config_node (cf_root (read_config (str "a { b { c = 1 } }")))
    (str "a/x") "/"
  = None.
Proof.
  split.
  - intros cn path sep. unfold find_config_node.
    rewrite find_loop_walk by lia. reflexivity.
  - split; vm_compute; reflexivity.
Qed.

(** ** The tokeniser stays inside the file and moves forward *)

Lemma eat_space_loop_spec (fuel : nat) :
  forall p : parser,
    tb p = te p -> (te p <= fe p)%nat -> (fe p - te p < fuel)%nat ->
    let p' := eat_space_loop fuel p in
    fb p' = fb p /\ t p' = t p /\ tb p' = te p' /\
    (te p <= te p' <= fe p)%nat /\
    (te p' = fe p \/
     (isspace (deref p' (te p')) = false /\ eqc (deref p' (te p')) "#" = false)).
Proof.
  induction fuel as [|fuel IH]; intros p Hb Hle Hf; [lia|].
  simpl. destruct (tb p =? fe p)%nat eqn:E.
  - apply Nat.eqb_eq in E. repeat split; auto; lia.
  - apply Nat.eqb_neq in E.
    assert (Hlt : (te p < fe p)%nat) by lia.
    pose proof (from_cons p (te p) Hlt) as Hc.
    destruct (eqc (deref p (te p)) "#") eqn:Eh.
    + set (k := span_len not_newline (from p (te p))).
      assert (Hk : (1 <= k <= fe p - te p)%nat).
      { unfold k. split.
        - rewrite Hc. simpl. unfold eqc in Eh. apply Ascii.eqb_eq in Eh.
          rewrite Eh. simpl. lia.
        - rewrite <- from_length. apply span_len_le. }
      specialize (IH (mk_parser (fb p) (t p) (te p + k) (te p + k) (line p + 1))).
      unfold fe in *. simpl in IH.
      destruct IH as (H1 & H2 & H3 & H4 & H5); try reflexivity; try lia.
      repeat split; auto; lia.
    + destruct (isspace (deref p (te p))) eqn:Es.
      * set (k := span_len isspace (from p (te p))).
        assert (Hk : (1 <= k <= fe p - te p)%nat).
        { unfold k. split.
          - rewrite Hc. simpl. rewrite Es. lia.
          - rewrite <- from_length. apply span_len_le. }
        specialize (IH (mk_parser (fb p) (t p) (te p + k) (te p + k)
                          (line p + newlines k (from p (te p))))).
        unfold fe in *. simpl in IH.
        destruct IH as (H1 & H2 & H3 & H4 & H5); try reflexivity; try lia.
        repeat split; auto; lia.
      * repeat split; auto; lia.
Qed.

Lemma scan_string_le (l : list ascii) : (scan_string l <= List.length l)%nat.
Proof.
  assert (H : forall n l, (List.length l <= n)%nat ->
                          (scan_string l <= List.length l)%nat).
  { clear l. induction n as [|n IH]; intros l Hl.
    - destruct l; simpl in *; lia.
    - destruct l as [|c l]; simpl in *; [lia|].
      destruct (eqc c dquote); [lia|].
      destruct (eqc c backslash).
      + destruct l as [|d l]; simpl in *; [lia|].
        specialize (IH l ltac:(lia)). lia.
      + specialize (IH l ltac:(lia)). lia. }
  apply (H (List.length l)). lia.
Qed.

Lemma scan_number_le (l : list ascii) :
  forall ty, (fst (scan_number ty l) <= List.length l)%nat.
Proof.
  induction l as [|c l IH]; intros ty; simpl; [lia|].
  destruct (eqc c ".").
  - destruct (token_eqb ty TOK_FLOAT); simpl; [lia|].
    specialize (IH TOK_FLOAT). destruct (scan_number TOK_FLOAT l). simpl in *. lia.
  - destruct (isdigit c); simpl; [|lia].
    specialize (IH ty). destruct (scan_number ty l). simpl in *. lia.
Qed.

Lemma scan_number_type (l : list ascii) :
  forall ty, (ty = TOK_INT \/ ty = TOK_FLOAT) ->
             snd (scan_number ty l) = TOK_INT \/ snd (scan_number ty l) = TOK_FLOAT.
Proof.
  induction l as [|c l IH]; intros ty Hty; simpl; [exact Hty|].
  destruct (eqc c ".").
  - destruct (token_eqb ty TOK_FLOAT); simpl; [exact Hty|].
    specialize (IH TOK_FLOAT (or_intror eq_refl)).
    destruct (scan_number TOK_FLOAT l). exact IH.
  - destruct (isdigit c); simpl; [|exact Hty].
    specialize (IH ty Hty). destruct (scan_number ty l). exact IH.
Qed.

Lemma get_token_spec (p : parser) :
  (te p <= fe p)%nat ->
  let p' := _get_token p in
  fb p' = fb p /\
  (te p <= tb p' <= te p')%nat /\ (te p' <= fe p)%nat /\
  (t p' = TOK_EOF -> te p' = fe p) /\
  (t p' <> TOK_EOF -> (tb p' < te p')%nat).
Proof.
  intros Hle. unfold _get_token.
  set (p0 := set_tb p (te p)).
  destruct (eat_space_loop_spec (S (fe p0 - te p0)) p0)
    as (H1 & H2 & H3 & H4 & H5); try reflexivity; try (simpl; lia).
  { exact Hle. }
  fold (_eat_space p0) in *. set (q := _eat_space p0) in *.
  change (te p0) with (te p) in *. change (fe p0) with (fe p) in *.
  assert (Hfe : fe q = fe p) by (unfold fe; rewrite H1; reflexivity).
  rewrite Hfe.
  destruct (tb q =? fe p)%nat eqn:E.
  { apply Nat.eqb_eq in E. simpl. repeat split; auto; try lia. congruence. }
  apply Nat.eqb_neq in E.
  assert (Hlt : (te q < fe q)%nat) by lia.
  destruct H5 as [H5|[Hs Hh]]; [lia|].
  pose proof (from_length q (S (te q))) as HlenS.
  pose proof (from_length q (te q)) as Hlen0.
  repeat match goal with
         | |- context [if eqc (deref q (te q)) ?c then _ else _] =>
             destruct (eqc (deref q (te q)) c) eqn:?;
             [simpl; repeat split; auto; try lia; discriminate|]
         end.
  destruct (eqc (deref q (te q)) dquote) eqn:Eq.
  { pose proof (scan_string_le (from q (S (te q)))) as Hs'.
    destruct (_ =? fe p)%nat eqn:E'; simpl;
      [apply Nat.eqb_eq in E'|apply Nat.eqb_neq in E'];
      repeat split; auto; try lia; discriminate. }
  destruct (eqc (deref q (te q)) "." || isdigit (deref q (te q))) eqn:En.
  { set (ty0 := if eqc (deref q (te q)) "." then TOK_FLOAT else TOK_INT).
    pose proof (scan_number_le (from q (S (te q))) ty0) as Hn.
    assert (Hty : ty0 = TOK_INT \/ ty0 = TOK_FLOAT)
      by (unfold ty0; destruct (eqc _ "."); auto).
    pose proof (scan_number_type (from q (S (te q))) ty0 Hty) as Hn'.
    destruct (scan_number ty0 (from q (S (te q)))) as [k ty]. simpl in *.
    repeat split; auto; try lia; destruct Hn' as [-> | ->]; discriminate. }
  pose proof (span_len_le ident_char (from q (te q))) as Hi.
  assert (Hi1 : (1 <= span_len ident_char (from q (te q)))%nat).
  { rewrite (from_cons q (te q) Hlt). simpl. unfold ident_char.
    rewrite Hs, Hh. simpl.
    match goal with H : eqc (deref q (te q)) "=" = false |- _ => rewrite H end.
    simpl. lia. }
  simpl. repeat split; auto; try lia; discriminate.
Qed.

(** A String token starts at a quote, and holds one byte only when that
    quote ends the file. *)
Lemma get_token_string_shape (p : parser) :
  (te p <= fe p)%nat ->
  let p' := _get_token p in
  t p' = TOK_STRING ->
  deref p (tb p') = dquote /\ (te p' = fe p \/ (tb p' + 2 <= te p')%nat).
Proof.
  intros Hle. unfold _get_token.
  set (p0 := set_tb p (te p)).
  destruct (eat_space_loop_spec (S (fe p0 - te p0)) p0)
    as (H1 & H2 & H3 & H4 & H5); try reflexivity; try (simpl; lia).
  { exact Hle. }
  fold (_eat_space p0) in *. set (q := _eat_space p0) in *.
  change (te p0) with (te p) in *. change (fe p0) with (fe p) in *.
  assert (Hfe : fe q = fe p) by (unfold fe; rewrite H1; reflexivity).
  rewrite Hfe.
  destruct (tb q =? fe p)%nat eqn:E.
  { simpl. discriminate. }
  apply Nat.eqb_neq in E.
  assert (Hlt : (te q < fe q)%nat) by lia.
  repeat match goal with
         | |- context [if eqc (deref q (te q)) ?c then _ else _] =>
             destruct (eqc (deref q (te q)) c) eqn:?;
             [simpl; discriminate|]
         end.
  destruct (eqc (deref q (te q)) dquote) eqn:Eq.
  { unfold eqc in Eq. apply Ascii.eqb_eq in Eq. intros _.
    assert (Hd : deref p (tb q) = dquote).
    { rewrite H3. rewrite <- Eq. unfold deref. rewrite H1. reflexivity. }
    destruct (_ =? fe p)%nat eqn:E'; simpl;
      [apply Nat.eqb_eq in E'|apply Nat.eqb_neq in E'];
      (split; [exact Hd|]); [left; exact E'|right; lia]. }
  destruct (eqc (deref q (te q)) "." || isdigit (deref q (te q))) eqn:En.
  { set (ty0 := if eqc (deref q (te q)) "." then TOK_FLOAT else TOK_INT).
    assert (Hty : ty0 = TOK_INT \/ ty0 = TOK_FLOAT)
      by (unfold ty0; destruct (eqc _ "."); auto).
    pose proof (scan_number_type (from q (S (te q))) ty0 Hty) as Hn'.
    destruct (scan_number ty0 (from q (S (te q)))) as [k ty]. simpl in *.
    destruct Hn' as [-> | ->]; discriminate. }
  simpl. discriminate.
Qed.

(** The bytes of a String token between its quotes are among those the
    scan of the literal went over. *)
Lemma get_token_string_extent (p : parser) :
  (te p <= fe p)%nat ->
  let p' := _get_token p in
  t p' = TOK_STRING ->
  (te p' - tb p' - 2 <= scan_string (from p' (S (tb p'))))%nat.
Proof.
  intros Hle. unfold _get_token.
  set (p0 := set_tb p (te p)).
  destruct (eat_space_loop_spec (S (fe p0 - te p0)) p0)
    as (H1 & H2 & H3 & H4 & H5); try reflexivity; try (simpl; lia).
  { exact Hle. }
  fold (_eat_space p0) in *. set (q := _eat_space p0) in *.
  change (te p0) with (te p) in *. change (fe p0) with (fe p) in *.
  assert (Hfe : fe q = fe p) by (unfold fe; rewrite H1; reflexivity).
  rewrite Hfe.
  destruct (tb q =? fe p)%nat eqn:E.
  { simpl. discriminate. }
  repeat match goal with
         | |- context [if eqc (deref q (te q)) ?c then _ else _] =>
             destruct (eqc (deref q (te q)) c) eqn:?;
             [simpl; discriminate|]
         end.
  destruct (eqc (deref q (te q)) dquote) eqn:Eq.
  { intros _. unfold from. rewrite H3.
    destruct (S (te q) + _ =? fe p)%nat; cbn [te tb fb]; lia. }
  destruct (eqc (deref q (te q)) "." || isdigit (deref q (te q))) eqn:En.
  { set (ty0 := if eqc (deref q (te q)) "." then TOK_FLOAT else TOK_INT).
    assert (Hty : ty0 = TOK_INT \/ ty0 = TOK_FLOAT)
      by (unfold ty0; destruct (eqc _ "."); auto).
    pose proof (scan_number_type (from q (S (te q))) ty0 Hty) as Hn'.
    destruct (scan_number ty0 (from q (S (te q)))) as [k ty]. simpl in *.
    destruct Hn' as [-> | ->]; discriminate. }
  simpl. discriminate.
Qed.

(** ** The shape of parsed trees *)

Lemma bind_ok {A B : Type} (r : result A) (k : A -> result B) (b : B) :
  bind r k = Ok b -> exists a, r = Ok a /\ k a = Ok b.
Proof.
  destruct r as [a|f]; simpl; intros H; [|discriminate].
  exists a. split; [reflexivity|exact H].
Qed.

Ltac bind_inv H :=
  let x := fresh "x" in
  let E := fresh "E" in
  apply bind_ok in H; destruct H as (x & E & H).

Lemma section_shaped (fuel : nat) :
  (forall p n p', _section fuel p = Ok (n, p') -> shaped n) /\
  (forall p ns p', section_body fuel p = Ok (ns, p') -> Forall shaped ns).
Proof.
  induction fuel as [|fuel [IHs IHb]]; [split; intros; discriminate|].
  split.
  - intros p n p' H. simpl in H.
    bind_inv H. bind_inv H.
    destruct (token_eqb (t x0) TOK_SECTION_B).
    + bind_inv H. bind_inv H. destruct x2 as [ns p3].
      bind_inv H. injection H as <- _.
      apply shaped_section. exact (IHb _ _ _ E2).
    + bind_inv H. bind_inv H. destruct x2 as [vs p3].
      destruct vs as [|v0 vs]; [discriminate|].
      injection H as <- _. apply shaped_binding. discriminate.
  - intros p ns p' H. simpl in H.
    destruct (token_eqb (t p) TOK_SECTION_E).
    + injection H as <- _. constructor.
    + bind_inv H. destruct x as [n p1].
      bind_inv H. destruct x as [ns' p2].
      injection H as <- _. constructor.
      * exact (IHs _ _ _ E).
      * exact (IHb _ _ _ E0).
Qed.

Lemma file_shaped (fuel : nat) :
  forall p ns, _file fuel p = Ok ns -> Forall shaped ns.
Proof.
  induction fuel as [|fuel IH]; intros p ns H; [discriminate|].
  simpl in H. destruct (token_eqb (t p) TOK_EOF).
  - injection H as <-. constructor.
  - bind_inv H. destruct x as [n p1]. bind_inv H.
    injection H as <-. constructor.
    + exact (proj1 (section_shaped fuel) _ _ _ E).
    + exact (IH _ _ E0).
Qed.

Lemma shaped_children (n : config_node) :
  shaped n -> Forall shaped (child n).
Proof. intros H. destruct H; simpl; [assumption|constructor]. Qed.

Lemma reachable_shaped (cn : list config_node) (n : config_node) :
  reachable cn n -> Forall shaped cn -> shaped n.
Proof.
  induction 1 as [cn n Hin|cn m n Hin Hr IH]; intros Hall.
  - rewrite Forall_forall in Hall. exact (Hall n Hin).
  - apply IH. apply shaped_children.
    rewrite Forall_forall in Hall. exact (Hall m Hin).
Qed.

Lemma read_config_shaped (buf : list ascii) :
  Forall shaped (cf_root (read_config buf)).
Proof.
  unfold read_config.
  destruct (_file _ _) as [root|f] eqn:E.
  - apply file_shaped in E. destruct root; [constructor|exact E].
  - destruct f; constructor.
Qed.

(** C4, as stated, fails on an empty section body: the node parsed from
    ['a { }'] has neither children nor values. *)
Lemma empty_section_has_neither :
  cf_root (read_config (str "a { }")) = [mk_node (str "a") [] []].
Proof. vm_compute. reflexivity. Qed.

(** C4, amended. Every node of a parsed document either holds no value (a
    section, whose list of children may be empty) or holds at least one
    value and no child; never both children and values. *)
Theorem parsed_node_section_or_binding (buf : list ascii) (n : config_node) :
  reachable (cf_root (read_config buf)) n ->
  v n = [] \/ (v n <> [] /\ child n = []).
Proof.
  intros H. apply reachable_shaped in H; [|apply read_config_shaped].
  destruct H; simpl; [left; reflexivity|right; split; [assumption|reflexivity]].
Qed.

Lemma parsed_node_section_or_binding_witness :
  v (mk_node (str "b") [] [CFG_INT 1]) = [] \/
  (v (mk_node (str "b") [] [CFG_INT 1]) <> [] /\
   child (mk_node (str "b") [] [CFG_INT 1]) = []).
Proof.
  apply (parsed_node_section_or_binding (str "a { b = 1 }")).
  apply reach_child with (m := mk_node (str "a") [mk_node (str "b") [] [CFG_INT 1]] []).
  - vm_compute. left. reflexivity.
  - apply reach_sibling. left. reflexivity.
Defined.


(** ** The tokeniser on a known suffix *)

Lemma from_deref (p : parser) (q : nat) (c : ascii) (r : list ascii) :
  from p q = c :: r -> (q < fe p)%nat /\ deref p q = c /\ from p (S q) = r.
Proof.
  intros H.
  assert (Hq : (q < fe p)%nat).
  { pose proof (from_length p q) as Hl. rewrite H in Hl. simpl in Hl. lia. }
  rewrite (from_cons p q Hq) in H. injection H as H1 H2. auto.
Qed.

Lemma from_skip (p : parser) (q : nat) (ws r : list ascii) :
  from p q = ws ++ r -> from p (q + List.length ws) = r.
Proof.
  intros H. rewrite from_add, H, skipn_app, skipn_all, Nat.sub_diag. reflexivity.
Qed.

Lemma from_end (p : parser) (q : nat) :
  (q <= fe p)%nat -> from p q = [] -> q = fe p.
Proof.
  intros Hq H. pose proof (from_length p q) as Hl. rewrite H in Hl. simpl in Hl. lia.
Qed.

Lemma span_len_app (f : ascii -> bool) (ws r : list ascii) :
  forallb f ws = true ->
  match r with [] => True | c :: _ => f c = false end ->
  span_len f (ws ++ r) = List.length ws.
Proof.
  intros Hws Hr. induction ws as [|w ws IH]; simpl in *.
  - destruct r as [|c r]; [reflexivity|]. simpl. rewrite Hr. reflexivity.
  - apply andb_true_iff in Hws. destruct Hws as [Hw Hws].
    rewrite Hw, IH by exact Hws. reflexivity.
Qed.

Lemma newlines_app (ws r : list ascii) :
  newlines (List.length ws) (ws ++ r) = newlines (List.length ws) ws.
Proof. induction ws as [|w ws IH]; simpl; [reflexivity|]. rewrite IH. reflexivity. Qed.

Lemma eat_space_loop_stop (fuel : nat) (p : parser) :
  starts_token (from p (te p)) -> tb p = te p -> (te p <= fe p)%nat ->
  eat_space_loop (S fuel) p = p.
Proof.
  intros Hs Hb Hle. simpl.
  destruct (tb p =? fe p)%nat eqn:E; [reflexivity|].
  apply Nat.eqb_neq in E.
  assert (Hlt : (te p < fe p)%nat) by lia.
  rewrite (from_cons p (te p) Hlt) in Hs. simpl in Hs. destruct Hs as [H1 H2].
  rewrite H1, H2. reflexivity.
Qed.

Lemma eat_space_ws (p : parser) (ws r : list ascii) :
  tb p = te p -> (te p <= fe p)%nat ->
  from p (te p) = ws ++ r -> forallb isspace ws = true -> starts_token r ->
  _eat_space p
  = mk_parser (fb p) (t p) (te p + List.length ws) (te p + List.length ws)
      (line p + newlines (List.length ws) ws).
Proof.
  intros Hb Hle Hfrom Hws Hr. unfold _eat_space.
  destruct ws as [|w ws].
  - simpl in Hfrom. rewrite eat_space_loop_stop; try assumption.
    + destruct p as [b ty b0 e0 ln]. simpl in *. subst b0.
      rewrite Nat.add_0_r, Z.add_0_r. reflexivity.
    + rewrite Hfrom. exact Hr.
  - pose proof (from_length p (te p)) as Hlen. rewrite Hfrom in Hlen.
    simpl in Hlen.
    destruct (from_deref p (te p) w (ws ++ r) Hfrom) as (Hlt & Hd & HS).
    simpl in Hws. apply andb_true_iff in Hws. destruct Hws as [Hw Hws].
    cbn [eat_space_loop].
    replace (tb p =? fe p)%nat with false by (symmetry; apply Nat.eqb_neq; lia).
    rewrite Hd, (isspace_not_hash w Hw), Hw.
    assert (Hk : span_len isspace (from p (te p)) = S (List.length ws)).
    { rewrite Hfrom. change (w :: ws ++ r) with ((w :: ws) ++ r).
      rewrite span_len_app; [reflexivity| |].
      - simpl. rewrite Hw. exact Hws.
      - destruct r; [exact I|]. apply Hr. }
    rewrite Hk.
    rewrite Hfrom at 1. change (w :: ws ++ r) with ((w :: ws) ++ r).
    change (S (List.length ws)) with (List.length (w :: ws)).
    rewrite newlines_app.
    destruct (fe p - te p)%nat as [|fuel] eqn:Ef; [lia|].
    rewrite eat_space_loop_stop; try reflexivity.
    + unfold from. cbn [te fb]. fold (from p (te p + List.length (w :: ws))).
      rewrite (from_skip p (te p) (w :: ws) r Hfrom). exact Hr.
    + unfold fe. cbn [te fb]. fold (fe p). rewrite length_app in Hlen.
      cbn [List.length]. lia.
Qed.



(** [_get_token] read off the bytes that follow [te]: white space [ws],
    then [r]. *)
Lemma get_token_view (p : parser) (ws r : list ascii) :
  (te p <= fe p)%nat ->
  from p (te p) = ws ++ r -> forallb isspace ws = true -> starts_token r ->
  let e := (te p + List.length ws)%nat in
  let ln := line p + newlines (List.length ws) ws in
  _get_token p
  = match r with
    | [] => mk_parser (fb p) TOK_EOF e e ln
    | c :: r' =>
        if eqc c "{" then mk_parser (fb p) TOK_SECTION_B e (S e) ln
        else if eqc c "}" then mk_parser (fb p) TOK_SECTION_E e (S e) ln
        else if eqc c "[" then mk_parser (fb p) TOK_ARRAY_B e (S e) ln
        else if eqc c "]" then mk_parser (fb p) TOK_ARRAY_E e (S e) ln
        else if eqc c "," then mk_parser (fb p) TOK_COMMA e (S e) ln
        else if eqc c "=" then mk_parser (fb p) TOK_EQ e (S e) ln
        else if eqc c dquote then
          let k := scan_string r' in
          mk_parser (fb p) TOK_STRING e
            (if (k =? List.length r')%nat then S e + k else S (S e + k)) ln
        else if eqc c "." || isdigit c then
          let (k, ty) := scan_number (if eqc c "." then TOK_FLOAT else TOK_INT) r' in
          mk_parser (fb p) ty e (S e + k) ln
        else mk_parser (fb p) TOK_IDENTIFIER e (e + span_len ident_char r) ln
    end.
Proof.
  intros Hle Hfrom Hws Hr e ln. unfold _get_token.
  rewrite (eat_space_ws (set_tb p (te p)) ws r); try assumption; try reflexivity.
  cbn [set_tb fb t tb te line]. fold e. fold ln.
  pose proof (from_skip p (te p) ws r Hfrom) as He. fold e in He.
  pose proof (from_length p e) as Hlen. rewrite He in Hlen.
  assert (Hein : (e <= fe p)%nat).
  { pose proof (from_length p (te p)) as Hl. rewrite Hfrom, length_app in Hl.
    unfold e. lia. }
  unfold fe at 1. cbn [fb]. fold (fe p).
  destruct r as [|c r'].
  - simpl in Hlen. replace (e =? fe p)%nat with true by (symmetry; apply Nat.eqb_eq; lia).
    reflexivity.
  - simpl in Hlen.
    replace (e =? fe p)%nat with false by (symmetry; apply Nat.eqb_neq; lia).
    destruct (from_deref p e c r' He) as (_ & Hd & HS).
    unfold deref, from, fe. cbn [fb te tb t line].
    fold (deref p e). fold (from p (S e)). fold (from p e). fold (fe p).
    rewrite Hd, HS, He.
    repeat (match goal with
            | |- (if ?b then _ else _) = (if ?b then _ else _) =>
                destruct b; [reflexivity|]
            end).
    destruct (eqc c dquote).
    { cbv zeta. f_equal.
      destruct (scan_string r' =? List.length r')%nat eqn:E.
      - apply Nat.eqb_eq in E.
        replace (S e + scan_string r' =? fe p)%nat with true
          by (symmetry; apply Nat.eqb_eq; lia). reflexivity.
      - apply Nat.eqb_neq in E.
        replace (S e + scan_string r' =? fe p)%nat with false
          by (symmetry; apply Nat.eqb_neq; lia). reflexivity. }
    reflexivity.
Qed.



(** ** String literals *)

Lemma scan_string_body (s r : list ascii) :
  escaped_ok s = true -> scan_string (s ++ dquote :: r) = List.length s.
Proof.
  assert (H : forall n s, (List.length s <= n)%nat -> escaped_ok s = true ->
                          scan_string (s ++ dquote :: r) = List.length s).
  { clear s. induction n as [|n IH]; intros s Hl Hs.
    - destruct s; [|simpl in Hl; lia]. reflexivity.
    - destruct s as [|c s]; simpl in *.
      + reflexivity.
      + destruct (eqc c dquote); [discriminate|].
        destruct (eqc c backslash).
        * destruct s as [|d s]; [discriminate|]. simpl in *.
          rewrite IH; [reflexivity|lia|exact Hs].
        * rewrite IH; [reflexivity|lia|exact Hs]. }
  apply (H (List.length s)). lia.
Qed.

Lemma starts_token_dquote (r : list ascii) : starts_token (dquote :: r).
Proof. split; reflexivity. Qed.

Lemma get_token_string (p : parser) (ws s r : list ascii) :
  (te p <= fe p)%nat ->
  from p (te p) = ws ++ dquote :: s ++ dquote :: r ->
  forallb isspace ws = true -> escaped_ok s = true ->
  _get_token p
  = mk_parser (fb p) TOK_STRING (te p + List.length ws)
      (te p + List.length ws + List.length s + 2)
      (line p + newlines (List.length ws) ws).
Proof.
  intros Hle Hfrom Hws Hs.
  rewrite (get_token_view p ws _ Hle Hfrom Hws (starts_token_dquote _)).
  cbn -[scan_string Nat.eqb List.length].
  rewrite (scan_string_body s r Hs).
  replace (List.length s =? List.length (s ++ dquote :: r))%nat with false.
  - f_equal. lia.
  - symmetry. apply Nat.eqb_neq. rewrite length_app. simpl. lia.
Qed.

Lemma type_string (p : parser) (ws s r : list ascii) :
  (te p <= fe p)%nat ->
  from p (te p) = ws ++ dquote :: s ++ dquote :: r ->
  forallb isspace ws = true -> escaped_ok s = true ->
  exists q,
    _type (_get_token p) = Ok (CFG_STRING (cstr s), _get_token q) /\
    fb q = fb p /\ (te q <= fe q)%nat /\ from q (te q) = r.
Proof.
  intros Hle Hfrom Hws Hs.
  rewrite (get_token_string p ws s r Hle Hfrom Hws Hs).
  set (e := (te p + List.length ws)%nat).
  set (ln := line p + newlines (List.length ws) ws).
  pose proof (from_skip p (te p) ws _ Hfrom) as He. fold e in He.
  destruct (from_deref p e _ _ He) as (Hlt & _ & HS).
  pose proof (from_skip p (S e) s _ HS) as He2.
  destruct (from_deref p _ _ _ He2) as (Hlt2 & _ & HS2).
  exists (mk_parser (fb p) TOK_STRING (S e) (e + List.length s + 2) ln).
  unfold _type, _dup_tok, match_, _match_aux, set_te, set_tb, from, fe.
  cbn [t te tb fb line token_eqb].
  fold (fe p). fold (from p (S e)).
  replace (e + List.length s + 2 =? 0)%nat with false
    by (symmetry; apply Nat.eqb_neq; lia).
  replace (pred (e + List.length s + 2) <? S e)%nat with false
    by (symmetry; apply Nat.ltb_ge; lia).
  cbn [bind].
  replace (S (pred (e + List.length s + 2))) with (e + List.length s + 2)%nat by lia.
  rewrite HS.
  replace (pred (e + List.length s + 2) - S e)%nat with (List.length s) by lia.
  rewrite firstn_app, Nat.sub_diag, firstn_all. cbn [firstn]. rewrite app_nil_r.
  split; [reflexivity|]. split; [reflexivity|].
  replace (e + List.length s + 2)%nat with (S (S e + List.length s)) by lia.
  fold (from p (S (S e + List.length s))).
  split; [lia|exact HS2].
Qed.



Lemma cstr_no_nul (s : list ascii) :
  forallb (fun c => negb (eqc c NUL)) s = true -> cstr s = s.
Proof.
  intros H. unfold cstr.
  replace (span_len (fun c => negb (eqc c NUL)) s) with (List.length s).
  - apply firstn_all.
  - symmetry. rewrite <- (app_nil_r s) at 1. apply span_len_app; [exact H|exact I].
Qed.

(** C7, as stated, fails on an escaped quote: the literal whose body is
    x, backslash, quote, y is stored with its backslash, as the four bytes
    between the quotes, not as the three bytes that resolving the escape
    would leave. *)
Lemma escaped_quote_keeps_backslash :
  let body := ["x"%char; backslash; dquote; "y"%char] in
  cf_root (read_config (str "a = " ++ dquote :: body ++ [dquote]))
  = [mk_node (str "a") [] [CFG_STRING body]] /\
  unescape body = ["x"%char; dquote; "y"%char] /\
  body <> unescape body.
Proof. cbv zeta. repeat split; try (vm_compute; reflexivity). discriminate. Qed.

(** C7, amended. For every string literal that a closing quote ends,
    wherever it stands in the file, the parser stores the bytes between the
    two quotes as they are, up to the first NUL: the quotes are stripped
    and no backslash is removed or interpreted, that of an escaped quote
    included. *)
Theorem string_literal_stored_verbatim (p : parser) (ws s r : list ascii) :
  (te p <= fe p)%nat ->
  from p (te p) = ws ++ dquote :: s ++ dquote :: r ->
  forallb isspace ws = true -> escaped_ok s = true ->
  exists p',
    _type (_get_token p) = Ok (CFG_STRING (cstr s), p') /\
    (forallb (fun c => negb (eqc c NUL)) s = true -> cstr s = s).
Proof.
  intros Hle Hfrom Hws Hs.
  destruct (type_string p ws s r Hle Hfrom Hws Hs) as (q & Hq & _).
  exists (_get_token q). split; [exact Hq|apply cstr_no_nul].
Qed.

Lemma string_literal_stored_verbatim_witness :
  let body := ["x"%char; backslash; dquote; "y"%char] in
  let p := mk_parser (str "a = " ++ dquote :: body ++ [dquote]) TOK_EQ 2 3 1 in
  exists p',
    _type (_get_token p) = Ok (CFG_STRING (cstr body), p') /\
    (forallb (fun c => negb (eqc c NUL)) body = true -> cstr body = body).
Proof.
  cbv zeta.
  apply (string_literal_stored_verbatim _ [" "%char] _ []).
  - apply Nat.leb_le. vm_compute. reflexivity.
  - vm_compute. reflexivity.
  - reflexivity.
  - reflexivity.
Defined.



(** ** Decimal numerals *)

Lemma digit_char_spec (d : Z) :
  0 <= d <= 9 -> isdigit (digit_char d) = true /\ digit_val (digit_char d) = d.
Proof.
  intros H.
  assert (E : d = 0 \/ d = 1 \/ d = 2 \/ d = 3 \/ d = 4 \/ d = 5 \/ d = 6
              \/ d = 7 \/ d = 8 \/ d = 9) by lia.
  repeat (destruct E as [->|E]; [split; reflexivity|]). subst d. split; reflexivity.
Qed.

Lemma rev_digits_all (fuel : nat) :
  forall n, 0 <= n -> forallb isdigit (rev_digits fuel n) = true.
Proof.
  induction fuel as [|fuel IH]; intros n Hn; [reflexivity|].
  cbn [rev_digits forallb].
  destruct (digit_char_spec (n mod 10)) as [Hd _].
  { pose proof (Z.mod_pos_bound n 10). lia. }
  rewrite Hd. cbn [andb].
  destruct (n <? 10); [reflexivity|].
  apply IH. apply Z.div_pos; lia.
Qed.

Lemma digits_acc_app (ds r : list ascii) :
  forall a, forallb isdigit ds = true ->
            digits_acc a (ds ++ r) = digits_acc (digits_acc a ds) r.
Proof.
  induction ds as [|d ds IH]; intros a H; [reflexivity|].
  cbn [forallb] in H. apply andb_true_iff in H. destruct H as [Hd H].
  cbn [app digits_acc]. rewrite Hd. apply IH. exact H.
Qed.

Lemma forallb_rev (f : ascii -> bool) (l : list ascii) :
  forallb f l = true -> forallb f (rev l) = true.
Proof.
  rewrite !forallb_forall. intros H x Hx. apply H. apply in_rev. exact Hx.
Qed.

Lemma digits_acc_rev_digits (fuel : nat) :
  forall n a,
    0 <= n < 10 ^ Z.of_nat fuel ->
    digits_acc a (rev (rev_digits fuel n))
    = a * 10 ^ Z.of_nat (List.length (rev_digits fuel n)) + n.
Proof.
  induction fuel as [|fuel IH]; intros n a Hn.
  - simpl in Hn. assert (n = 0) by lia. subst n. simpl. lia.
  - cbn [rev_digits].
    destruct (digit_char_spec (n mod 10)) as [Hd Hv].
    { pose proof (Z.mod_pos_bound n 10). lia. }
    destruct (n <? 10) eqn:E.
    + apply Z.ltb_lt in E. cbn [rev app digits_acc List.length].
      rewrite Hd, Hv. cbn [digits_acc]. rewrite Z.mod_small by lia.
      change (10 ^ Z.of_nat 1) with 10. lia.
    + apply Z.ltb_ge in E.
      assert (Hq : 0 <= n / 10 < 10 ^ Z.of_nat fuel).
      { split; [apply Z.div_pos; lia|].
        apply Z.div_lt_upper_bound; [lia|].
        rewrite Nat2Z.inj_succ, Z.pow_succ_r in Hn by lia. lia. }
      cbn [rev List.length].
      rewrite digits_acc_app
        by (apply forallb_rev, rev_digits_all; lia).
      rewrite (IH (n / 10) a Hq). cbn [digits_acc]. rewrite Hd, Hv.
      cbn [digits_acc].
      rewrite Nat2Z.inj_succ, Z.pow_succ_r by lia.
      pose proof (Z.div_mod n 10 ltac:(lia)). lia.
Qed.

Lemma print_uint_fuel (n : Z) :
  0 <= n -> n < 10 ^ Z.of_nat (S (Z.to_nat (Z.log2 n))).
Proof.
  intros Hn. destruct (Z.eq_dec n 0) as [->|Hz]; [reflexivity|].
  pose proof (Z.log2_spec n ltac:(lia)) as [_ Hlt].
  pose proof (Z.log2_nonneg n) as Hl.
  rewrite Nat2Z.inj_succ, Z2Nat.id by lia.
  eapply Z.lt_le_trans; [exact Hlt|].
  apply Z.pow_le_mono_l. lia.
Qed.

Lemma print_uint_digits (n : Z) :
  0 <= n -> forallb isdigit (print_uint n) = true /\ print_uint n <> [].
Proof.
  intros Hn. unfold print_uint. split.
  - apply forallb_rev, rev_digits_all. exact Hn.
  - cbn [rev_digits rev]. intros H. apply app_eq_nil in H. destruct H; discriminate.
Qed.

Lemma digits_acc_stop (a : Z) (r : list ascii) :
  match r with c :: _ => isdigit c = false | [] => True end ->
  digits_acc a r = a.
Proof. destruct r as [|c r]; [reflexivity|]. simpl. intros ->. reflexivity. Qed.

Lemma strtol_print_uint (n : Z) (r : list ascii) :
  0 <= n < 2 ^ 31 ->
  match r with c :: _ => isdigit c = false | [] => True end ->
  to_int (strtol (print_uint n ++ r)) = n.
Proof.
  intros Hn Hr. unfold strtol.
  rewrite digits_acc_app by (apply print_uint_digits; lia).
  unfold print_uint. rewrite digits_acc_rev_digits by (split; [lia|apply print_uint_fuel; lia]).
  rewrite digits_acc_stop by exact Hr.
  rewrite Z.mul_0_l, Z.add_0_l.
  unfold LONG_MAX, to_int. rewrite Z.min_l by lia.
  rewrite Z.mod_small by lia. lia.
Qed.



(** ** Tokens of the serialised text *)

Lemma ahead_mk (q : parser) (ty : token) (b n : nat) (ln : Z) (pre r : list ascii) :
  ahead q (pre ++ r) -> n = List.length pre ->
  ahead (mk_parser (fb q) ty b (te q + n) ln) r.
Proof.
  intros [Hle Hfrom] ->. unfold ahead, fe, from. cbn [fb te].
  fold (fe q). fold (from q (te q + List.length pre)).
  split; [|apply from_skip; exact Hfrom].
  pose proof (from_length q (te q)) as Hl. rewrite Hfrom, length_app in Hl. lia.
Qed.

Lemma get_token_eof (q : parser) (ws : list ascii) :
  ahead q ws -> forallb isspace ws = true ->
  t (_get_token q) = TOK_EOF.
Proof.
  intros [Hle Hfrom] Hws. rewrite <- (app_nil_r ws) in Hfrom.
  rewrite (get_token_view q ws [] Hle Hfrom Hws I). reflexivity.
Qed.

Lemma get_token_single (q : parser) (ws : list ascii) (c : ascii) (r : list ascii)
    (ty : token) :
  ahead q (ws ++ c :: r) -> forallb isspace ws = true ->
  single_token c = Some ty ->
  _get_token q
  = mk_parser (fb q) ty (te q + List.length ws) (S (te q + List.length ws))
      (line q + newlines (List.length ws) ws).
Proof.
  intros [Hle Hfrom] Hws Hc.
  assert (Hst : starts_token (c :: r)).
  { unfold single_token in Hc. split.
    - destruct (isspace c) eqn:E; [|reflexivity]. exfalso.
      unfold isspace, chr in E.
      repeat match type of Hc with
             | (if eqc c ?d then _ else _) = _ =>
                 let H := fresh in
                 destruct (eqc c d) eqn:H;
                 [apply Ascii.eqb_eq in H; subst c; discriminate E|]
             end.
      discriminate Hc.
    - destruct (eqc c "#") eqn:E; [|reflexivity]. exfalso.
      apply Ascii.eqb_eq in E. subst c. discriminate Hc. }
  rewrite (get_token_view q ws _ Hle Hfrom Hws Hst).
  unfold single_token in Hc.
  repeat match type of Hc with
         | (if eqc c ?d then _ else _) = _ =>
             destruct (eqc c d); [injection Hc as <-; reflexivity|]
         end.
  discriminate Hc.
Qed.

Lemma digit_not_special (d : ascii) :
  isdigit d = true ->
  eqc d "{" = false /\ eqc d "}" = false /\ eqc d "[" = false /\
  eqc d "]" = false /\ eqc d "," = false /\ eqc d "=" = false /\
  eqc d dquote = false /\ eqc d "." = false /\ isspace d = false /\
  eqc d "#" = false.
Proof.
  intros H.
  repeat split;
    match goal with
    | |- eqc d ?c = false =>
        destruct (eqc d c) eqn:E; [|reflexivity];
        apply Ascii.eqb_eq in E; subst d; discriminate H
    | |- _ => idtac
    end.
  unfold isdigit, isspace, chr in *.
  apply andb_true_iff in H. destruct H as [H1 H2].
  apply Nat.leb_le in H1. apply Nat.leb_le in H2.
  apply orb_false_iff. split.
  - apply Nat.eqb_neq. lia.
  - apply andb_false_iff. right. apply Nat.leb_gt. lia.
Qed.

Lemma scan_number_digits (ds r : list ascii) (ty : token) :
  forallb isdigit ds = true -> ends_number r ->
  scan_number ty (ds ++ r) = (List.length ds, ty).
Proof.
  intros Hds Hr. induction ds as [|d ds IH].
  - destruct r as [|c r]; [reflexivity|]. destruct Hr as [H1 H2].
    simpl. rewrite H2, H1. reflexivity.
  - cbn [forallb] in Hds. apply andb_true_iff in Hds. destruct Hds as [Hd Hds].
    destruct (digit_not_special d Hd) as (_ & _ & _ & _ & _ & _ & _ & Hdot & _).
    cbn [app scan_number]. rewrite Hdot, Hd. cbn [negb].
    rewrite (IH Hds). reflexivity.
Qed.

Lemma get_token_int (q : parser) (ws : list ascii) (n : Z) (r : list ascii) :
  ahead q (ws ++ print_uint n ++ r) -> forallb isspace ws = true ->
  0 <= n -> ends_number r ->
  _get_token q
  = mk_parser (fb q) TOK_INT (te q + List.length ws)
      (te q + List.length ws + List.length (print_uint n))
      (line q + newlines (List.length ws) ws).
Proof.
  intros [Hle Hfrom] Hws Hn Hr.
  destruct (print_uint_digits n Hn) as [Hds Hne].
  destruct (print_uint n) as [|d ds]; [contradiction|].
  cbn [forallb] in Hds. apply andb_true_iff in Hds. destruct Hds as [Hd Hds].
  destruct (digit_not_special d Hd)
    as (H1 & H2 & H3 & H4 & H5 & H6 & H7 & H8 & H9 & H10).
  rewrite (get_token_view q ws _ Hle Hfrom Hws).
  - cbn [app]. rewrite H1, H2, H3, H4, H5, H6, H7, H8, Hd. cbn [orb].
    rewrite (scan_number_digits ds r TOK_INT Hds Hr).
    f_equal. cbn [List.length]. lia.
  - split; assumption.
Qed.

(** *** Floats in the serialised text *)

Lemma scan_number_fraction (ds r : list ascii) :
  forallb isdigit ds = true ->
  match r with c :: _ => isdigit c = false | [] => True end ->
  scan_number TOK_FLOAT (ds ++ r) = (List.length ds, TOK_FLOAT).
Proof.
  intros Hds Hr. induction ds as [|d ds IH].
  - destruct r as [|c r]; [reflexivity|].
    cbn [app scan_number token_eqb]. rewrite Hr. cbn [negb].
    destruct (eqc c "."); reflexivity.
  - cbn [forallb] in Hds. apply andb_true_iff in Hds. destruct Hds as [Hd Hds].
    destruct (digit_not_special d Hd) as (_ & _ & _ & _ & _ & _ & _ & Hdot & _).
    cbn [app scan_number]. rewrite Hdot, Hd. cbn [negb].
    rewrite (IH Hds). reflexivity.
Qed.

Lemma scan_number_float (ds1 ds2 r : list ascii) :
  forallb isdigit ds1 = true -> forallb isdigit ds2 = true ->
  match r with c :: _ => isdigit c = false | [] => True end ->
  scan_number TOK_INT (ds1 ++ "."%char :: ds2 ++ r)
  = (List.length ds1 + S (List.length ds2), TOK_FLOAT)%nat.
Proof.
  intros H1 H2 Hr. induction ds1 as [|d ds IH].
  - cbn [app scan_number token_eqb]. change (eqc "." ".") with true. cbn iota.
    rewrite (scan_number_fraction ds2 r H2 Hr). reflexivity.
  - cbn [forallb] in H1. apply andb_true_iff in H1. destruct H1 as [Hd Hds].
    destruct (digit_not_special d Hd) as (_ & _ & _ & _ & _ & _ & _ & Hdot & _).
    cbn [app scan_number]. rewrite Hdot, Hd. cbn [negb].
    rewrite (IH Hds). reflexivity.
Qed.

Lemma get_token_float (q : parser) (ws ds1 ds2 r : list ascii) :
  ahead q (ws ++ (ds1 ++ "."%char :: ds2) ++ r) -> forallb isspace ws = true ->
  ds1 <> [] -> forallb isdigit ds1 = true -> forallb isdigit ds2 = true ->
  match r with c :: _ => isdigit c = false | [] => True end ->
  _get_token q
  = mk_parser (fb q) TOK_FLOAT (te q + List.length ws)
      (te q + List.length ws + List.length (ds1 ++ "."%char :: ds2))
      (line q + newlines (List.length ws) ws).
Proof.
  intros [Hle Hfrom] Hws Hne H1 H2 Hr.
  destruct ds1 as [|d ds]; [contradiction|].
  cbn [forallb] in H1. apply andb_true_iff in H1. destruct H1 as [Hd Hds].
  destruct (digit_not_special d Hd)
    as (E1 & E2 & E3 & E4 & E5 & E6 & E7 & E8 & E9 & E10).
  rewrite <- app_assoc in Hfrom.
  rewrite (get_token_view q ws _ Hle Hfrom Hws).
  - cbn [app]. rewrite E1, E2, E3, E4, E5, E6, E7, E8, Hd. cbn [orb].
    rewrite (scan_number_float ds ds2 r Hds H2 Hr).
    f_equal. cbn [List.length]. rewrite length_app. cbn [List.length]. lia.
  - split; assumption.
Qed.

Lemma numeral_written (ds1 ds2 r : list ascii) :
  forallb isdigit ds1 = true -> forallb isdigit ds2 = true ->
  match r with c :: _ => isdigit c = false | [] => True end ->
  numeral ((ds1 ++ "."%char :: ds2) ++ r) = (ds1, ds2, r).
Proof.
  intros H1 H2 Hr. unfold numeral. rewrite <- app_assoc. cbn [app].
  rewrite (span_len_app isdigit ds1 ("."%char :: ds2 ++ r) H1 eq_refl).
  rewrite skipn_app, skipn_all, Nat.sub_diag. cbn [skipn app].
  change (eqc "." ".") with true. cbn iota.
  rewrite (span_len_app isdigit ds2 r H2 Hr).
  rewrite firstn_app, firstn_all, Nat.sub_diag. cbn [firstn]. rewrite app_nil_r.
  rewrite firstn_app, firstn_all, Nat.sub_diag. cbn [firstn]. rewrite app_nil_r.
  rewrite skipn_app, skipn_all, Nat.sub_diag. reflexivity.
Qed.

Lemma delimits_not_digit (r : list ascii) :
  delimits r -> match r with c :: _ => isdigit c = false | [] => True end.
Proof. destruct r as [|c r]; [auto|]. intros H. apply H. Qed.

Lemma delimits_ends_number (r : list ascii) : delimits r -> ends_number r.
Proof. destruct r as [|c r]; [contradiction|]. intros H. split; apply H. Qed.

Lemma exponent_delimits (r : list ascii) : delimits r -> exponent r = 0.
Proof.
  destruct r as [|c r]; [contradiction|]. intros (_ & _ & He & HE).
  cbn [exponent]. rewrite He, HE. reflexivity.
Qed.

Lemma strtod_written (ds1 ds2 r : list ascii) :
  forallb isdigit ds1 = true -> forallb isdigit ds2 = true -> delimits r ->
  strtod ((ds1 ++ "."%char :: ds2) ++ r) = strtod (ds1 ++ "."%char :: ds2).
Proof.
  intros H1 H2 Hr. unfold strtod.
  rewrite (numeral_written ds1 ds2 r H1 H2 (delimits_not_digit r Hr)).
  rewrite <- (app_nil_r (ds1 ++ "."%char :: ds2)).
  rewrite (numeral_written ds1 ds2 [] H1 H2 I).
  rewrite (exponent_delimits r Hr). reflexivity.
Qed.

Lemma strtod_past_written (ds1 ds2 r : list ascii) :
  ds1 <> [] ->
  forallb isdigit ds1 = true -> forallb isdigit ds2 = true -> delimits r ->
  strtod_past ((ds1 ++ "."%char :: ds2) ++ r) = false.
Proof.
  intros Hne H1 H2 Hr. unfold strtod_past.
  rewrite (numeral_written ds1 ds2 r H1 H2 (delimits_not_digit r Hr)).
  destruct ds1 as [|d ds1]; [contradiction|]. cbn [app].
  destruct r as [|c r]; [contradiction|]. destruct Hr as (_ & _ & He & HE).
  cbn [exponent_past]. rewrite He, HE. reflexivity.
Qed.

Lemma forallb_repeat_zero (k : nat) : forallb isdigit (repeat "0"%char k) = true.
Proof. induction k as [|k IH]; [reflexivity|]. cbn [repeat forallb]. exact IH. Qed.

(** The text of a float that is not negative: digits, a dot, digits. *)
Lemma print_f_shape (q : Q) :
  exists ds1 ds2,
    print_f (F_finite false q) = ds1 ++ "."%char :: ds2 /\
    ds1 <> [] /\ forallb isdigit ds1 = true /\ forallb isdigit ds2 = true.
Proof.
  pose proof (millionths_nonneg q) as Hm.
  exists (print_uint (millionths q / 10 ^ 6)).
  eexists. split; [reflexivity|].
  destruct (print_uint_digits (millionths q / 10 ^ 6)) as [H1 H2].
  { apply Z.div_pos; lia. }
  split; [exact H2|]. split; [exact H1|].
  rewrite forallb_app, forallb_repeat_zero. cbn [andb].
  apply print_uint_digits. apply Z.mod_pos_bound. lia.
Qed.

Lemma get_token_ident (q : parser) (ws k r : list ascii) :
  ahead q (ws ++ k ++ r) -> forallb isspace ws = true ->
  wf_key k = true -> ends_ident r ->
  _get_token q
  = mk_parser (fb q) TOK_IDENTIFIER (te q + List.length ws)
      (te q + List.length ws + List.length k)
      (line q + newlines (List.length ws) ws).
Proof.
  intros [Hle Hfrom] Hws Hk Hr.
  destruct k as [|c k]; [discriminate|].
  unfold wf_key in Hk. apply andb_true_iff in Hk. destruct Hk as [Hk _].
  apply andb_true_iff in Hk. destruct Hk as [Hst Hall].
  assert (Hc : ident_char c = true).
  { cbn [forallb] in Hall. apply andb_true_iff in Hall. tauto. }
  unfold ident_start in Hst. apply negb_true_iff in Hst.
  repeat (apply orb_false_iff in Hst; destruct Hst as [Hst ?]).
  unfold ident_char in Hc.
  apply andb_true_iff in Hc. destruct Hc as [Hc Heq].
  apply andb_true_iff in Hc. destruct Hc as [Hsp Hh].
  apply negb_true_iff in Hsp, Hh, Heq.
  rewrite (get_token_view q ws _ Hle Hfrom Hws).
  - cbn [app].
    repeat match goal with
           | H : ?b = false |- context [?b] => rewrite H
           end.
    cbn [orb].
    change (c :: k ++ r) with ((c :: k) ++ r).
    rewrite span_len_app; [reflexivity|exact Hall|].
    destruct r; [exact I|exact Hr].
  - split; assumption.
Qed.



(** ** The keys of parsed trees *)

Lemma forallb_firstn (f : ascii -> bool) (n : nat) (l : list ascii) :
  forallb f l = true -> forallb f (firstn n l) = true.
Proof.
  intros H. rewrite <- (firstn_skipn n l), forallb_app in H.
  apply andb_true_iff in H. tauto.
Qed.

Lemma forallb_skipn (f : ascii -> bool) (n : nat) (l : list ascii) :
  forallb f l = true -> forallb f (skipn n l) = true.
Proof.
  intros H. rewrite <- (firstn_skipn n l), forallb_app in H.
  apply andb_true_iff in H. tauto.
Qed.

Lemma span_len_all (f : ascii -> bool) (l : list ascii) :
  forallb f (firstn (span_len f l) l) = true.
Proof.
  induction l as [|c l IH]; [reflexivity|].
  simpl. destruct (f c) eqn:E; [|reflexivity]. simpl. rewrite E. exact IH.
Qed.

Lemma from_mk (p : parser) (ty : token) (b e : nat) (ln : Z) (x : nat) :
  from (mk_parser (fb p) ty b e ln) x = from p x.
Proof. reflexivity. Qed.

Lemma get_token_identifier_text (q : parser) :
  (te q <= fe q)%nat -> no_nul (fb q) = true ->
  t (_get_token q) = TOK_IDENTIFIER ->
  wf_key (token_text (_get_token q)) = true.
Proof.
  intros Hle Hnul. unfold _get_token.
  set (p0 := set_tb q (te q)).
  destruct (eat_space_loop_spec (S (fe p0 - te p0)) p0)
    as (H1 & H2 & H3 & H4 & H5); try reflexivity; try (simpl; lia).
  { exact Hle. }
  fold (_eat_space p0) in *. set (p := _eat_space p0) in *.
  change (te p0) with (te q) in *. change (fe p0) with (fe q) in *.
  change (fb p0) with (fb q) in *.
  assert (Hfe : fe p = fe q) by (unfold fe; rewrite H1; reflexivity).
  destruct (tb p =? fe p)%nat eqn:E; [discriminate|].
  apply Nat.eqb_neq in E.
  assert (Hlt : (te p < fe p)%nat) by lia.
  destruct H5 as [H5|[Hs Hh]]; [lia|].
  repeat match goal with
         | |- context [if eqc (deref p (te p)) ?c then _ else _] =>
             destruct (eqc (deref p (te p)) c) eqn:?; [discriminate|]
         end.
  destruct (eqc (deref p (te p)) dquote) eqn:Eq; [discriminate|].
  destruct (eqc (deref p (te p)) "." || isdigit (deref p (te p))) eqn:En.
  { set (ty0 := if eqc (deref p (te p)) "." then TOK_FLOAT else TOK_INT).
    assert (Hty : ty0 = TOK_INT \/ ty0 = TOK_FLOAT)
      by (unfold ty0; destruct (eqc _ "."); auto).
    pose proof (scan_number_type (from p (S (te p))) ty0 Hty) as Hn'.
    destruct (scan_number ty0 (from p (S (te p)))) as [k ty]. simpl in *.
    intros Ht. rewrite Ht in Hn'. destruct Hn'; discriminate. }
  intros _. unfold token_text. cbn [tb te]. rewrite from_mk, H3.
  replace (te p + span_len ident_char (from p (te p)) - te p)%nat
    with (span_len ident_char (from p (te p))) by lia.
  pose proof (from_cons p (te p) Hlt) as Hc.
  set (c := deref p (te p)) in *.
  apply orb_false_iff in En. destruct En as [Edot Edig].
  assert (Hic : ident_char c = true).
  { unfold ident_char. rewrite Hs, Hh.
    match goal with H : eqc c "=" = false |- _ => rewrite H end. reflexivity. }
  assert (Hspan : span_len ident_char (from p (te p))
                  = S (span_len ident_char (from p (S (te p))))).
  { rewrite Hc. simpl. rewrite Hic. reflexivity. }
  unfold wf_key.
  assert (Hall : forallb ident_char
                   (firstn (span_len ident_char (from p (te p))) (from p (te p))) = true)
    by apply span_len_all.
  assert (Hnn : no_nul (firstn (span_len ident_char (from p (te p))) (from p (te p)))
                = true).
  { unfold no_nul. apply forallb_firstn. unfold from. rewrite H1.
    apply forallb_skipn. exact Hnul. }
  rewrite Hall, Hnn. rewrite Hspan, Hc. cbn [firstn].
  unfold ident_start.
  repeat match goal with
         | H : eqc c ?d = false |- context [eqc c ?d] => rewrite H
         end.
  rewrite Edig. reflexivity.
Qed.


Lemma get_token_identifier_bytes (q : parser) :
  (te q <= fe q)%nat ->
  t (_get_token q) = TOK_IDENTIFIER ->
  ident_token (token_text (_get_token q)) = true.
Proof.
  intros Hle. unfold _get_token.
  set (p0 := set_tb q (te q)).
  destruct (eat_space_loop_spec (S (fe p0 - te p0)) p0)
    as (H1 & H2 & H3 & H4 & H5); try reflexivity; try (simpl; lia).
  { exact Hle. }
  fold (_eat_space p0) in *. set (p := _eat_space p0) in *.
  change (te p0) with (te q) in *. change (fe p0) with (fe q) in *.
  change (fb p0) with (fb q) in *.
  assert (Hfe : fe p = fe q) by (unfold fe; rewrite H1; reflexivity).
  destruct (tb p =? fe p)%nat eqn:E; [discriminate|].
  apply Nat.eqb_neq in E.
  assert (Hlt : (te p < fe p)%nat) by lia.
  destruct H5 as [H5|[Hs Hh]]; [lia|].
  repeat match goal with
         | |- context [if eqc (deref p (te p)) ?c then _ else _] =>
             destruct (eqc (deref p (te p)) c) eqn:?; [discriminate|]
         end.
  destruct (eqc (deref p (te p)) dquote) eqn:Eq; [discriminate|].
  destruct (eqc (deref p (te p)) "." || isdigit (deref p (te p))) eqn:En.
  { set (ty0 := if eqc (deref p (te p)) "." then TOK_FLOAT else TOK_INT).
    assert (Hty : ty0 = TOK_INT \/ ty0 = TOK_FLOAT)
      by (unfold ty0; destruct (eqc _ "."); auto).
    pose proof (scan_number_type (from p (S (te p))) ty0 Hty) as Hn'.
    destruct (scan_number ty0 (from p (S (te p)))) as [k ty]. simpl in *.
    intros Ht. rewrite Ht in Hn'. destruct Hn'; discriminate. }
  intros _. unfold token_text. cbn [tb te]. rewrite from_mk, H3.
  replace (te p + span_len ident_char (from p (te p)) - te p)%nat
    with (span_len ident_char (from p (te p))) by lia.
  pose proof (from_cons p (te p) Hlt) as Hc.
  set (c := deref p (te p)) in *.
  apply orb_false_iff in En. destruct En as [Edot Edig].
  assert (Hic : ident_char c = true).
  { unfold ident_char. rewrite Hs, Hh.
    match goal with H : eqc c "=" = false |- _ => rewrite H end. reflexivity. }
  assert (Hspan : span_len ident_char (from p (te p))
                  = S (span_len ident_char (from p (S (te p))))).
  { rewrite Hc. simpl. rewrite Hic. reflexivity. }
  unfold ident_token.
  assert (Hall : forallb ident_char
                   (firstn (span_len ident_char (from p (te p))) (from p (te p))) = true)
    by apply span_len_all.
  rewrite Hall. rewrite Hspan, Hc. cbn [firstn].
  unfold ident_start.
  repeat match goal with
         | H : eqc c ?d = false |- context [eqc c ?d] => rewrite H
         end.
  rewrite Edig. reflexivity.
Qed.


(** * Further properties of the tokeniser *)

Lemma eat_space_loop_fuel (f1 : nat) :
  forall f2 p,
    tb p = te p -> (te p <= fe p)%nat ->
    (fe p - te p < f1)%nat -> (fe p - te p < f2)%nat ->
    eat_space_loop f1 p = eat_space_loop f2 p.
Proof.
  induction f1 as [|f1 IH]; intros f2 p Hb Hle H1 H2; [lia|].
  destruct f2 as [|f2]; [lia|].
  cbn [eat_space_loop].
  destruct (tb p =? fe p)%nat eqn:E; [reflexivity|].
  apply Nat.eqb_neq in E.
  assert (Hlt : (te p < fe p)%nat) by lia.
  pose proof (from_cons p (te p) Hlt) as Hc.
  destruct (eqc (deref p (te p)) "#") eqn:Eh.
  - set (k := span_len not_newline (from p (te p))).
    assert (Hk : (1 <= k <= fe p - te p)%nat).
    { unfold k. split.
      - rewrite Hc. cbn [span_len]. unfold eqc in Eh. apply Ascii.eqb_eq in Eh.
        rewrite Eh. cbn. lia.
      - rewrite <- from_length. apply span_len_le. }
    apply IH; unfold fe in *; cbn [tb te fb]; try reflexivity; lia.
  - destruct (isspace (deref p (te p))) eqn:Es; [|reflexivity].
    set (k := span_len isspace (from p (te p))).
    assert (Hk : (1 <= k <= fe p - te p)%nat).
    { unfold k. split.
      - rewrite Hc. cbn [span_len]. rewrite Es. lia.
      - rewrite <- from_length. apply span_len_le. }
    apply IH; unfold fe in *; cbn [tb te fb]; try reflexivity; lia.
Qed.

Lemma eat_space_loop_comment (fuel : nat) (p : parser) :
  tb p <> fe p -> eqc (deref p (te p)) "#" = true ->
  eat_space_loop (S fuel) p
  = eat_space_loop fuel
      (mk_parser (fb p) (t p)
         (te p + span_len not_newline (from p (te p)))
         (te p + span_len not_newline (from p (te p)))
         (line p + 1)).
Proof.
  intros Hb Hh. cbn [eat_space_loop].
  replace (tb p =? fe p)%nat with false by (symmetry; apply Nat.eqb_neq; exact Hb).
  rewrite Hh. reflexivity.
Qed.

(** X17. A comment is skipped up to the end of its line: the token read
    with a comment ahead is the token read from the end of that comment,
    be it a newline or the end of the file, and the line counter has moved
    by one for the comment itself, before the newline is counted. *)
Theorem comment_is_skipped (q : parser) (body r : list ascii) :
  (te q <= fe q)%nat ->
  from q (te q) = "#"%char :: body ++ r ->
  forallb not_newline body = true ->
  match r with [] => True | c :: _ => c = newline end ->
  _get_token q
  = _get_token (mk_parser (fb q) (t q) (tb q) (te q + S (List.length body))
                  (line q + 1)).
Proof.
  intros Hle Hfrom Hbody Hr.
  assert (Hk : span_len not_newline (from q (te q)) = S (List.length body)).
  { rewrite Hfrom. change ("#"%char :: body ++ r) with (("#"%char :: body) ++ r).
    rewrite span_len_app; [reflexivity| |].
    - cbn [forallb]. rewrite Hbody. reflexivity.
    - destruct r as [|c r]; [exact I|]. subst c. reflexivity. }
  pose proof (from_length q (te q)) as Hlen. rewrite Hfrom in Hlen.
  cbn [List.length] in Hlen. rewrite length_app in Hlen.
  destruct (from_deref q (te q) _ _ Hfrom) as (Hlt & Hd & _).
  unfold _get_token.
  set (p1 := mk_parser (fb q) (t q) (te q + S (List.length body))
               (te q + S (List.length body)) (line q + 1)).
  assert (E : _eat_space (set_tb q (te q)) = _eat_space p1).
  { unfold _eat_space. rewrite eat_space_loop_comment.
    - change (from (set_tb q (te q)) (te (set_tb q (te q)))) with (from q (te q)).
      rewrite Hk. change (fb (set_tb q (te q))) with (fb q).
      change (t (set_tb q (te q))) with (t q).
      change (te (set_tb q (te q))) with (te q).
      change (line (set_tb q (te q))) with (line q).
      change (fe (set_tb q (te q))) with (fe q). fold p1.
      apply eat_space_loop_fuel; unfold fe; cbn [p1 tb te fb]; fold (fe q);
        try reflexivity; lia.
    - change (tb (set_tb q (te q))) with (te q).
      change (fe (set_tb q (te q))) with (fe q). lia.
    - change (deref (set_tb q (te q)) (te (set_tb q (te q)))) with (deref q (te q)).
      rewrite Hd. reflexivity. }
  change (set_tb (mk_parser (fb q) (t q) (tb q) (te q + S (List.length body))
                    (line q + 1))
            (te (mk_parser (fb q) (t q) (tb q) (te q + S (List.length body))
                   (line q + 1))))
    with p1.
  rewrite E. reflexivity.
Qed.

Lemma comment_is_skipped_witness :
  let q := mk_parser (str "a # note" ++ newline :: str "b") TOK_IDENTIFIER 0 2 1 in
  _get_token q
  = _get_token (mk_parser (fb q) (t q) (tb q) (te q + S (List.length (str " note")))
                  (line q + 1)).
Proof.
  cbv zeta.
  apply (comment_is_skipped _ (str " note") (newline :: str "b")).
  - apply Nat.leb_le. reflexivity.
  - reflexivity.
  - reflexivity.
  - reflexivity.
Defined.

Lemma scan_number_shape (l : list ascii) :
  forall ty0, ty0 = TOK_INT \/ ty0 = TOK_FLOAT ->
    let k := fst (scan_number ty0 l) in
    let ty := snd (scan_number ty0 l) in
    (ty = TOK_INT -> ty0 = TOK_INT /\ forallb isdigit (firstn k l) = true) /\
    (ty = TOK_FLOAT ->
     forallb (fun c => isdigit c || eqc c ".") (firstn k l) = true /\
     dots (firstn k l) = (if token_eqb ty0 TOK_FLOAT then 0 else 1)%nat).
Proof.
  induction l as [|c l IH]; intros ty0 Hty0.
  - cbn. split.
    + intros ->. auto.
    + intros ->. cbn. auto.
  - cbn [scan_number]. destruct (eqc c ".") eqn:Edot.
    + apply Ascii.eqb_eq in Edot. subst c.
      destruct Hty0 as [-> | ->]; cbn [token_eqb].
      * specialize (IH TOK_FLOAT (or_intror eq_refl)).
        destruct (scan_number TOK_FLOAT l) as [k ty]. cbn [fst snd] in *.
        destruct IH as [IHi IHf]. split.
        -- intros ->. destruct (IHi eq_refl) as [Hc _]. discriminate.
        -- intros ->. destruct (IHf eq_refl) as [Ha Hd].
           cbn [firstn forallb]. rewrite Ha. split; [reflexivity|].
           unfold dots in *. cbn [count_occ].
           destruct (ascii_dec "." "."); [|contradiction]. rewrite Hd. reflexivity.
      * cbn. split; [discriminate|auto].
    + destruct (isdigit c) eqn:Edig; cbn [negb].
      * specialize (IH ty0 Hty0).
        destruct (scan_number ty0 l) as [k ty]. cbn [fst snd] in *.
        destruct IH as [IHi IHf]. split.
        -- intros ->. destruct (IHi eq_refl) as [Hc Ha]. split; [exact Hc|].
           cbn [firstn forallb]. rewrite Edig, Ha. reflexivity.
        -- intros ->. destruct (IHf eq_refl) as [Ha Hd].
           cbn [firstn forallb]. rewrite Edig, Ha. split; [reflexivity|].
           unfold dots in *. cbn [count_occ].
           destruct (ascii_dec c ".") as [->|]; [discriminate Edot|]. exact Hd.
      * cbn. destruct Hty0 as [-> | ->]; split; try discriminate; auto.
Qed.

(** X18. A number token is a numeral: an [Int] token holds digits only,
    and a [Float] token holds digits and exactly one dot, so a second dot
    always starts a new token. *)
Theorem number_token_shape (q : parser) :
  (te q <= fe q)%nat ->
  (t (_get_token q) = TOK_INT ->
   forallb isdigit (token_text (_get_token q)) = true) /\
  (t (_get_token q) = TOK_FLOAT ->
   forallb (fun c => isdigit c || eqc c ".") (token_text (_get_token q)) = true /\
   dots (token_text (_get_token q)) = 1%nat).
Proof.
  intros Hle. unfold _get_token.
  set (p0 := set_tb q (te q)).
  destruct (eat_space_loop_spec (S (fe p0 - te p0)) p0)
    as (H1 & H2 & H3 & H4 & H5); try reflexivity; try (simpl; lia).
  { exact Hle. }
  fold (_eat_space p0) in *. set (p := _eat_space p0) in *.
  change (te p0) with (te q) in *. change (fe p0) with (fe q) in *.
  change (fb p0) with (fb q) in *.
  assert (Hfe : fe p = fe q) by (unfold fe; rewrite H1; reflexivity).
  destruct (tb p =? fe p)%nat eqn:E; [split; discriminate|].
  apply Nat.eqb_neq in E.
  assert (Hlt : (te p < fe p)%nat) by lia.
  repeat match goal with
         | |- context [if eqc (deref p (te p)) ?c then _ else _] =>
             destruct (eqc (deref p (te p)) c) eqn:?; [split; discriminate|]
         end.
  destruct (eqc (deref p (te p)) dquote) eqn:Eq; [split; discriminate|].
  destruct (eqc (deref p (te p)) "." || isdigit (deref p (te p))) eqn:En;
    [|split; discriminate].
  pose proof (from_cons p (te p) Hlt) as Hc.
  set (c := deref p (te p)) in *.
  set (ty0 := if eqc c "." then TOK_FLOAT else TOK_INT).
  assert (Hty : ty0 = TOK_INT \/ ty0 = TOK_FLOAT)
    by (unfold ty0; destruct (eqc c "."); auto).
  pose proof (scan_number_shape (from p (S (te p))) ty0 Hty) as Hshape.
  destruct (scan_number ty0 (from p (S (te p)))) as [k ty]. cbn [fst snd] in Hshape.
  destruct Hshape as [Hi Hf].
  unfold token_text. cbn [t tb te]. rewrite from_mk, H3, Hc.
  replace (S (te p) + k - te p)%nat with (S k) by lia. cbn [firstn].
  split.
  - intros Ht. destruct (Hi Ht) as [Hty0 Ha].
    cbn [forallb]. rewrite Ha.
    unfold ty0 in Hty0. destruct (eqc c ".") eqn:Ed; [discriminate|].
    cbn [orb] in En. rewrite En. reflexivity.
  - intros Ht. destruct (Hf Ht) as [Ha Hd].
    cbn [forallb]. rewrite Ha.
    rewrite orb_comm in En. rewrite En. split; [reflexivity|].
    unfold dots in *. cbn [count_occ]. rewrite Hd. unfold ty0.
    destruct (eqc c ".") eqn:Ed.
    + apply Ascii.eqb_eq in Ed. rewrite Ed.
      destruct (ascii_dec "." "."); [reflexivity|contradiction].
    + destruct (ascii_dec c ".") as [->|]; [discriminate Ed|reflexivity].
Qed.

Lemma number_token_shape_witness :
  let q := mk_parser (str "a = 1.2.3") TOK_EQ 2 3 1 in
  (t (_get_token q) = TOK_INT ->
   forallb isdigit (token_text (_get_token q)) = true) /\
  (t (_get_token q) = TOK_FLOAT ->
   forallb (fun c => isdigit c || eqc c ".") (token_text (_get_token q)) = true /\
   dots (token_text (_get_token q)) = 1%nat).
Proof.
  cbv zeta. apply number_token_shape. apply Nat.leb_le. reflexivity.
Defined.

(** ** The production [Value] *)

Lemma get_token_set_tb (p : parser) (x : nat) :
  _get_token (set_tb p x) = _get_token p.
Proof. reflexivity. Qed.

Lemma match_ok (p : parser) (ty : token) (p' : parser) :
  match_ p ty = Ok p' <-> token_eqb (t p) ty = true /\ p' = _get_token p.
Proof.
  unfold match_, _match_aux. destruct (token_eqb (t p) ty); split.
  - intros H. injection H as <-. auto.
  - intros [_ ->]. reflexivity.
  - discriminate.
  - intros [H _]. discriminate.
Qed.

Lemma token_eqb_eq (a b : token) : token_eqb a b = true <-> a = b.
Proof. destruct a, b; simpl; split; intros H; try reflexivity; discriminate. Qed.

Lemma type_ok (p : parser) (x : config_value) (p' : parser) :
  _type p = Ok (x, p') ->
  classify (cur p) = TYPE /\ hazard p = false /\ p' = _get_token p.
Proof.
  unfold _type, classify, hazard, cur. cbn [fst snd].
  destruct (t p) eqn:Et; try discriminate.
  - destruct (strtol_past (from p (tb p)) && unmapped_end p); [discriminate|].
    unfold match_, _match_aux. rewrite Et. cbn [token_eqb bind].
    intros H. injection H as _ <-. auto.
  - destruct (strtod_past (from p (tb p)) && unmapped_end p); [discriminate|].
    unfold match_, _match_aux. rewrite Et. cbn [token_eqb bind].
    intros H. injection H as _ <-. auto.
  - destruct (te p =? 0)%nat eqn:E0; [discriminate|].
    apply Nat.eqb_neq in E0. intros H.
    unfold _dup_tok in H. cbn [te tb set_te set_tb] in H.
    destruct (pred (te p) <? S (tb p))%nat eqn:El; [discriminate|].
    apply Nat.ltb_ge in El.
    unfold match_, _match_aux in H. cbn [t set_te set_tb bind] in H.
    rewrite Et in H. cbn [token_eqb bind] in H.
    injection H as _ <-.
    split; [reflexivity|]. split.
    + apply Nat.ltb_ge. lia.
    + unfold _get_token. cbn [te tb set_te set_tb].
      replace (S (pred (te p))) with (te p) by lia. reflexivity.
Qed.

Lemma type_accepts (p : parser) :
  classify (cur p) = TYPE -> hazard p = false ->
  exists x, _type p = Ok (x, _get_token p).
Proof.
  unfold _type, classify, hazard, cur. cbn [fst snd].
  destruct (t p) eqn:Et; try discriminate; intros _ Hz.
  - rewrite Hz. unfold match_, _match_aux. rewrite Et. cbn [token_eqb bind].
    eexists. reflexivity.
  - rewrite Hz. unfold match_, _match_aux. rewrite Et. cbn [token_eqb bind].
    eexists. reflexivity.
  - apply Nat.ltb_ge in Hz.
    assert (E0 : (te p =? 0)%nat = false) by (apply Nat.eqb_neq; lia).
    rewrite E0. unfold _dup_tok. cbn [te tb set_te set_tb].
    assert (El : (pred (te p) <? S (tb p))%nat = false) by (apply Nat.ltb_ge; lia).
    rewrite El. cbn [bind].
    unfold match_, _match_aux. cbn [t set_te set_tb]. rewrite Et.
    cbn [token_eqb bind].
    eexists. f_equal. f_equal.
    unfold _get_token. cbn [te tb set_te set_tb].
    replace (S (pred (te p))) with (te p) by lia. reflexivity.
Qed.

Lemma type_hazard (p : parser) :
  hazard p = true -> _type p = Fail undefined_behaviour.
Proof.
  unfold _type, hazard.
  destruct (t p) eqn:Et; try discriminate; intros Hz.
  - rewrite Hz. reflexivity.
  - rewrite Hz. reflexivity.
  - apply Nat.ltb_lt in Hz.
    destruct (te p =? 0)%nat eqn:E0; [reflexivity|].
    apply Nat.eqb_neq in E0.
    unfold _dup_tok. cbn [te tb set_te set_tb].
    assert (El : (pred (te p) <? S (tb p))%nat = true) by (apply Nat.ltb_lt; lia).
    rewrite El. reflexivity.
Qed.

Lemma upcoming_app (n m : nat) :
  forall p, upcoming (n + m) p = upcoming n p ++ upcoming m (advance n p).
Proof.
  induction n as [|n IH]; intros p; simpl; [reflexivity|].
  rewrite IH. reflexivity.
Qed.

Lemma advance_add (n m : nat) :
  forall p, advance (n + m) p = advance m (advance n p).
Proof. induction n as [|n IH]; intros p; simpl; [reflexivity|apply IH]. Qed.

#[local] Opaque _get_token.

Lemma classify_type (p : parser) :
  classify (cur p) = TYPE ->
  t p <> TOK_ARRAY_E /\ t p <> TOK_COMMA /\ t p <> TOK_ARRAY_B /\ t p <> TOK_EOF.
Proof.
  unfold classify, cur. cbn [fst snd].
  destruct (t p); try discriminate; repeat split; discriminate.
Qed.

Lemma classify_comma (p : parser) :
  classify (cur p) = COMMA <-> t p = TOK_COMMA.
Proof.
  unfold classify, cur. cbn [fst snd].
  destruct (t p); split; try discriminate; try reflexivity.
Qed.

Lemma classify_rbracket (p : parser) :
  classify (cur p) = RBRACKET <-> t p = TOK_ARRAY_E.
Proof.
  unfold classify, cur. cbn [fst snd].
  destruct (t p); split; try discriminate; try reflexivity.
Qed.

Lemma classify_lbracket (p : parser) :
  classify (cur p) = LBRACKET <-> t p = TOK_ARRAY_B.
Proof.
  unfold classify, cur. cbn [fst snd].
  destruct (t p); split; try discriminate; try reflexivity.
Qed.

Lemma token_eqb_false (a b : token) : a <> b -> token_eqb a b = false.
Proof.
  intros H. destruct (token_eqb a b) eqn:E; [|reflexivity].
  apply token_eqb_eq in E. contradiction.
Qed.

Lemma array_body_eq (fuel : nat) (p : parser) :
  array_body (S fuel) p
  = if token_eqb (t p) TOK_ARRAY_E then Ok ([], p)
    else
      '(l, p1) <- _type p ;;
      p2 <- (if token_eqb (t p1) TOK_COMMA then match_ p1 TOK_COMMA
             else Ok p1) ;;
      '(ls, p3) <- array_body fuel p2 ;;
      Ok (l :: ls, p3).
Proof. reflexivity. Qed.

Lemma upcoming_S (n : nat) (p : parser) :
  upcoming (S n) p = cur p :: upcoming n (_get_token p).
Proof. reflexivity. Qed.

Lemma advance_S (n : nat) (p : parser) :
  advance (S n) p = advance n (_get_token p).
Proof. reflexivity. Qed.

Lemma hazard_type (p : parser) : hazard p = true -> classify (cur p) = TYPE.
Proof.
  unfold hazard, classify, cur. cbn [fst].
  destruct (t p); try discriminate; reflexivity.
Qed.

Lemma no_hazard (p : parser) : classify (cur p) <> TYPE -> hazard p = false.
Proof.
  intros H. destruct (hazard p) eqn:E; [|reflexivity].
  apply hazard_type in E. contradiction.
Qed.

Lemma array_body_sound (fuel : nat) :
  forall p vs p',
    array_body fuel p = Ok (vs, p') ->
    exists n,
      items (map classify (upcoming n p)) /\ p' = advance n p /\
      t p' = TOK_ARRAY_E /\ (vs = [] <-> n = O) /\
      forall i, (i < n)%nat -> hazard (advance i p) = false.
Proof.
  induction fuel as [|fuel IH]; intros p vs p' H; [discriminate|].
  rewrite array_body_eq in H.
  destruct (token_eqb (t p) TOK_ARRAY_E) eqn:Ee.
  - injection H as <- <-. exists O. apply token_eqb_eq in Ee.
    repeat split; auto; try constructor. intros i Hi. lia.
  - bind_inv H. destruct x as [l p1]. apply type_ok in E.
    destruct E as (Hty & Hz & ->).
    bind_inv H. rename x into p2. bind_inv H. destruct x as [ls p3].
    injection H as <- <-.
    destruct (IH _ _ _ E0) as (n & Hit & Hp & Ht & Hn & Hh).
    destruct (token_eqb (t (_get_token p)) TOK_COMMA) eqn:Ec.
    + apply match_ok in E. destruct E as [_ ->].
      exists (S (S n)). rewrite !upcoming_S, !advance_S. cbn [map]. rewrite Hty.
      apply token_eqb_eq in Ec. apply classify_comma in Ec. rewrite Ec.
      split; [apply items_type_comma; exact Hit|].
      repeat split; auto; try discriminate.
      intros [|[|i]] Hi.
      * exact Hz.
      * cbn [advance]. apply no_hazard. rewrite Ec. discriminate.
      * rewrite !advance_S. apply Hh. lia.
    + injection E as <-.
      exists (S n). rewrite !upcoming_S, !advance_S. cbn [map]. rewrite Hty.
      split; [apply items_type; exact Hit|].
      repeat split; auto; try discriminate.
      intros [|i] Hi.
      * exact Hz.
      * rewrite advance_S. apply Hh. lia.
Qed.

Lemma items_head (w : list sym) :
  items w -> w = [] \/ exists w', w = TYPE :: w'.
Proof. intros H. destruct H; [left|right; eexists|right; eexists]; reflexivity. Qed.

(** On lexemes the production derives, the loop of [_value] takes them
    all, unless one of them is a hazard: there it stops on the undefined
    behaviour. *)
Lemma array_body_complete (w : list sym) :
  items w ->
  forall p n fuel,
    w = map classify (upcoming n p) ->
    t (advance n p) = TOK_ARRAY_E ->
    (n < fuel)%nat ->
    ((forall i, (i < n)%nat -> hazard (advance i p) = false) /\
     exists vs, array_body fuel p = Ok (vs, advance n p) /\ (vs = [] <-> n = O))
    \/
    ((exists i, (i < n)%nat /\ hazard (advance i p) = true) /\
     array_body fuel p = Fail undefined_behaviour).
Proof.
  induction 1 as [|w Hw IH|w Hw IH]; intros p n fuel Hup Hend Hf.
  - destruct n; [|discriminate]. destruct fuel; [lia|].
    cbn [advance] in *. rewrite array_body_eq, Hend. cbn [token_eqb].
    left. split; [intros i Hi; lia|].
    exists []. split; [reflexivity|tauto].
  - destruct n as [|n]; [discriminate|]. destruct fuel as [|fuel]; [lia|].
    rewrite upcoming_S in Hup. cbn [map] in Hup. rewrite advance_S in *.
    injection Hup as Hty Hup. symmetry in Hty.
    destruct (classify_type p Hty) as (Hne & _).
    rewrite array_body_eq, (token_eqb_false _ _ Hne).
    destruct (hazard p) eqn:Hz.
    { right. split; [exists O; split; [lia|exact Hz]|].
      rewrite (type_hazard p Hz). reflexivity. }
    destruct (type_accepts p Hty Hz) as [x Hx].
    rewrite Hx. cbn [bind].
    assert (Hnc : token_eqb (t (_get_token p)) TOK_COMMA = false).
    { apply token_eqb_false.
      destruct (items_head w Hw) as [->|[w' ->]].
      - destruct n; [|discriminate]. cbn [advance] in Hend. rewrite Hend. discriminate.
      - destruct n; [discriminate|]. rewrite upcoming_S in Hup. cbn [map] in Hup.
        injection Hup as Hty' _.
        symmetry in Hty'. apply classify_type in Hty'. tauto. }
    rewrite Hnc. cbn [bind].
    destruct (IH (_get_token p) n fuel Hup Hend ltac:(lia))
      as [(Hh & vs & Hvs & _)|((i & Hi & Hzi) & Hub)].
    + left. split.
      * intros [|i] Hi; [exact Hz|]. rewrite advance_S. apply Hh. lia.
      * rewrite Hvs. cbn [bind]. exists (x :: vs). split; [reflexivity|].
        split; discriminate.
    + right. split.
      * exists (S i). split; [lia|]. rewrite advance_S. exact Hzi.
      * rewrite Hub. reflexivity.
  - destruct n as [|[|n]]; try discriminate. destruct fuel as [|fuel]; [lia|].
    rewrite !upcoming_S in Hup. cbn [map] in Hup. rewrite !advance_S in *.
    injection Hup as Hty Hc Hup. symmetry in Hty, Hc.
    destruct (classify_type p Hty) as (Hne & _).
    rewrite array_body_eq, (token_eqb_false _ _ Hne).
    destruct (hazard p) eqn:Hz.
    { right. split; [exists O; split; [lia|exact Hz]|].
      rewrite (type_hazard p Hz). reflexivity. }
    destruct (type_accepts p Hty Hz) as [x Hx].
    assert (Hzc : hazard (_get_token p) = false).
    { apply no_hazard. rewrite Hc. discriminate. }
    apply classify_comma in Hc.
    rewrite Hx. cbn [bind].
    rewrite Hc. cbn [token_eqb]. unfold match_, _match_aux.
    rewrite Hc. cbn [token_eqb bind].
    destruct (IH (_get_token (_get_token p)) n fuel Hup Hend ltac:(lia))
      as [(Hh & vs & Hvs & _)|((i & Hi & Hzi) & Hub)].
    + left. split.
      * intros [|[|i]] Hi; [exact Hz|exact Hzc|]. rewrite !advance_S. apply Hh. lia.
      * rewrite Hvs. cbn [bind]. exists (x :: vs). split; [reflexivity|].
        split; discriminate.
    + right. split.
      * exists (S (S i)). split; [lia|]. rewrite !advance_S. exact Hzi.
      * rewrite Hub. reflexivity.
Qed.

Lemma advance_progress (n : nat) :
  forall p,
    (te p <= fe p)%nat ->
    (forall i, (1 <= i <= n)%nat -> t (advance i p) <> TOK_EOF) ->
    (te p + n <= te (advance n p))%nat /\ (te (advance n p) <= fe p)%nat.
Proof.
  induction n as [|n IH]; intros p Hle Hne.
  - cbn [advance]. lia.
  - rewrite advance_S.
    destruct (get_token_spec p Hle) as (Hfb & Hb & He & _ & Hlt).
    assert (Hfe : fe (_get_token p) = fe p) by (unfold fe; rewrite Hfb; reflexivity).
    specialize (Hlt (Hne 1%nat ltac:(lia))).
    destruct (IH (_get_token p)) as [H1 H2].
    + rewrite Hfe. exact He.
    + intros i Hi. rewrite <- advance_S. apply Hne. lia.
    + rewrite Hfe in H2. lia.
Qed.

Lemma upcoming_nth (n : nat) :
  forall p i, (i < n)%nat ->
              nth i (map classify (upcoming n p)) OTHER = classify (cur (advance i p)).
Proof.
  induction n as [|n IH]; intros p i Hi; [lia|].
  rewrite upcoming_S. cbn [map]. destruct i as [|i]; [reflexivity|].
  cbn [nth]. rewrite advance_S. apply IH. lia.
Qed.

Lemma upcoming_length (n : nat) : forall p, List.length (upcoming n p) = n.
Proof. induction n as [|n IH]; intros p; simpl; [reflexivity|]. rewrite IH. reflexivity. Qed.

Lemma items_no_other (w : list sym) : items w -> forall i, (i < List.length w)%nat -> nth i w OTHER <> OTHER.
Proof.
  induction 1 as [|w Hw IH|w Hw IH]; intros i Hi; simpl in Hi; [lia| |].
  - destruct i as [|i]; simpl; [discriminate|]. apply IH. lia.
  - destruct i as [|[|i]]; simpl; try discriminate. apply IH. lia.
Qed.

Lemma classify_eof (p : parser) : t p = TOK_EOF -> classify (cur p) = OTHER.
Proof. unfold classify, cur. cbn [fst]. intros ->. reflexivity. Qed.

Lemma value_eq (fuel : nat) (p : parser) :
  _value fuel p
  = if token_eqb (t p) TOK_ARRAY_B then
      p1 <- match_ p TOK_ARRAY_B ;;
      '(h, p2) <- array_body fuel p1 ;;
      p3 <- match_ p2 TOK_ARRAY_E ;;
      Ok (h, p3)
    else
      '(h, p1) <- _type p ;;
      Ok ([h], p1).
Proof. reflexivity. Qed.

Lemma value_sound (fuel : nat) (p : parser) (vs : list config_value) (p' : parser) :
  vs <> [] -> _value fuel p = Ok (vs, p') ->
  exists n, value_code (map classify (upcoming n p)) /\ p' = advance n p /\
            forall i, (i < n)%nat -> hazard (advance i p) = false.
Proof.
  intros Hvs H. rewrite value_eq in H.
  destruct (token_eqb (t p) TOK_ARRAY_B) eqn:Eb.
  - bind_inv H. apply match_ok in E. destruct E as [_ ->].
    bind_inv H. destruct x as [h p2]. bind_inv H.
    apply match_ok in E0. destruct E0 as [_ ->]. injection H as <- <-.
    destruct (array_body_sound _ _ _ _ E) as (n & Hit & -> & Ht & Hn & Hh).
    exists (S (n + 1)). rewrite upcoming_S, !advance_S, upcoming_app, advance_add.
    cbn [map upcoming advance]. rewrite map_app. cbn [map].
    apply token_eqb_eq in Eb. apply classify_lbracket in Eb. rewrite Eb.
    pose proof Ht as Hrb. apply classify_rbracket in Hrb. rewrite Hrb.
    split; [|split; [reflexivity|]].
    + apply value_code_array; [|exact Hit].
      intros Hnil. apply Hvs. apply Hn.
      apply (f_equal (@List.length sym)) in Hnil.
      rewrite length_map, upcoming_length in Hnil. exact Hnil.
    + intros [|i] Hi.
      * cbn [advance]. apply no_hazard. rewrite Eb. discriminate.
      * rewrite advance_S. destruct (Nat.eq_dec i n) as [->|Hne].
        -- apply no_hazard. rewrite Hrb. discriminate.
        -- apply Hh. lia.
  - bind_inv H. destruct x as [h p1]. injection H as <- <-.
    apply type_ok in E. destruct E as (Hty & Hz & ->).
    exists 1%nat. cbn [upcoming map advance]. rewrite Hty.
    split; [constructor|]. split; [reflexivity|].
    intros i Hi. replace i with O by lia. exact Hz.
Qed.

Lemma value_complete (fuel : nat) (p : parser) (n : nat) :
  (te p <= fe p)%nat -> (fe p - te p + 2 <= fuel)%nat ->
  value_code (map classify (upcoming n p)) ->
  ((forall i, (i < n)%nat -> hazard (advance i p) = false) /\
   exists vs, vs <> [] /\ _value fuel p = Ok (vs, advance n p))
  \/
  ((exists i, (i < n)%nat /\ hazard (advance i p) = true) /\
   _value fuel p = Fail undefined_behaviour).
Proof.
  intros Hle Hf H. remember (map classify (upcoming n p)) as w eqn:Ew.
  destruct H as [|w Hw Hit].
  - destruct n as [|[|n]]; try discriminate.
    cbn [upcoming map] in Ew. injection Ew as Hty. symmetry in Hty.
    destruct (classify_type p Hty) as (_ & _ & Hnb & _).
    rewrite value_eq, (token_eqb_false _ _ Hnb).
    destruct (hazard p) eqn:Hz.
    + right. split; [exists O; split; [lia|exact Hz]|].
      rewrite (type_hazard p Hz). reflexivity.
    + destruct (type_accepts p Hty Hz) as [x Hx].
      left. split; [intros i Hi; replace i with O by lia; exact Hz|].
      rewrite Hx. cbn [bind advance].
      exists [x]. split; [discriminate|reflexivity].
  - destruct n as [|n]; [discriminate|].
    assert (Hn : n = (List.length w + 1)%nat).
    { apply (f_equal (@List.length sym)) in Ew.
      rewrite length_map, upcoming_length in Ew. simpl in Ew.
      rewrite length_app in Ew. simpl in Ew. lia. }
    subst n. rewrite upcoming_S in Ew. cbn [map] in Ew.
    injection Ew as Hlb Ew. symmetry in Hlb.
    assert (Hzb : hazard p = false) by (apply no_hazard; rewrite Hlb; discriminate).
    apply classify_lbracket in Hlb.
    rewrite upcoming_app, map_app in Ew. cbn [upcoming map] in Ew.
    apply app_inj_tail in Ew. destruct Ew as [Ew Hrb].
    symmetry in Hrb.
    set (m := List.length w) in *.
    assert (Hze : hazard (advance m (_get_token p)) = false)
      by (apply no_hazard; rewrite Hrb; discriminate).
    apply classify_rbracket in Hrb.
    assert (Hm : (m + 1 <= fe p - te p)%nat).
    { destruct (advance_progress (m + 1) p Hle) as [H1 H2]; [|lia].
      intros i Hi. destruct i as [|i]; [lia|]. rewrite advance_S.
      destruct (Nat.eq_dec i m) as [->|Hne].
      - rewrite Hrb. discriminate.
      - intros Heof. apply classify_eof in Heof.
        rewrite <- (upcoming_nth m) in Heof by lia. rewrite <- Ew in Heof.
        revert Heof. apply items_no_other; [exact Hit|]. unfold m in *. lia. }
    rewrite value_eq, Hlb. cbn [token_eqb].
    unfold match_, _match_aux. rewrite Hlb. cbn [token_eqb bind].
    destruct (array_body_complete w Hit (_get_token p) m fuel Ew Hrb ltac:(lia))
      as [(Hh & vs & Hvs & Hnil)|((i & Hi & Hzi) & Hub)].
    + left. split.
      * intros [|i] Hi; [exact Hzb|]. rewrite advance_S.
        destruct (Nat.eq_dec i m) as [->|Hne]; [exact Hze|]. apply Hh. lia.
      * rewrite Hvs. cbn [bind]. rewrite Hrb. cbn [token_eqb bind].
        exists vs. split.
        -- intros Hv. apply Hnil in Hv. destruct w; [contradiction|]. discriminate.
        -- rewrite advance_S, advance_add. reflexivity.
    + right. split.
      * exists (S i). split; [lia|]. rewrite advance_S. exact Hzi.
      * rewrite Hub. reflexivity.
Qed.

(** C8, as stated, fails on an array without commas: in
    ['key = [1 2 3]'] the parser accepts the value, whose lexemes
    [[ Type Type Type ]] the production of the specification does not
    derive, whatever their number. *)
Lemma array_without_commas_accepted :
  let p := advance 2 (_get_token (mk_parser (str "key = [1 2 3]") TOK_EOF 0 0 1)) in
  _value 10 p = Ok ([CFG_INT 1; CFG_INT 2; CFG_INT 3], advance 5 p) /\
  map classify (upcoming 5 p) = [LBRACKET; TYPE; TYPE; TYPE; RBRACKET] /\
  (forall n, ~ value_spec (map classify (upcoming n p))) /\
  read_config (str "key = [1 2 3]")
  = mk_outcome 1 [mk_node (str "key") [] [CFG_INT 1; CFG_INT 2; CFG_INT 3]] None.
Proof.
  cbv zeta. split; [vm_compute; reflexivity|].
  split; [vm_compute; reflexivity|].
  split; [|vm_compute; reflexivity].
  set (p := advance 2 _).
  assert (E3 : map classify (upcoming 3 p) = [LBRACKET; TYPE; TYPE])
    by (vm_compute; reflexivity).
  intros n H.
  destruct (Nat.lt_ge_cases n 3) as [Hlt|Hge].
  - assert (Hn : n = 0%nat \/ n = 1%nat \/ n = 2%nat) by lia.
    destruct Hn as [->|[->| ->]].
    + inversion H.
    + assert (E1 : map classify (upcoming 1 p) = [LBRACKET]) by (vm_compute; reflexivity).
      rewrite E1 in H. inversion H.
    + assert (E2 : map classify (upcoming 2 p) = [LBRACKET; TYPE]) by (vm_compute; reflexivity).
      rewrite E2 in H. inversion H as [|w Hw Ew]. destruct w; discriminate.
  - replace n with (3 + (n - 3))%nat in H by lia.
    rewrite upcoming_app, map_app, E3 in H. cbn [app] in H.
    inversion H as [|w Hw Ew]. destruct Hw; discriminate.
Qed.

(** C8, amended. The parser accepts a value only when its lexemes are
    derived by [Value := '[' (Type ','?)+ ']' | Type]: a bare Type, or a
    bracketed sequence of one or more Type tokens, each followed by at most
    one comma (so the commas between elements may be left out and one may
    follow the last element). When the lexemes ahead are derived by this
    production, the parser accepts the value and consumes just them,
    unless one of its Type tokens is a hazard, on which the conversion
    leaves the mapped file: a String token that is a lone quote ending the
    file, or a number read up to the end of a file that ends on a page
    boundary. On a hazard the behaviour is undefined. For
    ['key = [1, 2, 3]'] the values are three integers in source order. *)
Theorem value_accepts_code_grammar :
  (forall p fuel,
      (te p <= fe p)%nat -> (fe p - te p + 2 <= fuel)%nat ->
      (forall vs p',
          vs <> [] -> _value fuel p = Ok (vs, p') ->
          exists n, value_code (map classify (upcoming n p)) /\
                    p' = advance n p /\
                    forall i, (i < n)%nat -> hazard (advance i p) = false) /\
      (forall n,
          value_code (map classify (upcoming n p)) ->
          (forall i, (i < n)%nat -> hazard (advance i p) = false) ->
          exists vs, vs <> [] /\ _value fuel p = Ok (vs, advance n p)) /\
      (forall n,
          value_code (map classify (upcoming n p)) ->
          (exists i, (i < n)%nat /\ hazard (advance i p) = true) ->
          _value fuel p = Fail undefined_behaviour)) /\
  cf_root (read_config (str "key = [1, 2, 3]"))
  = [mk_node (str "key") [] [CFG_INT 1; CFG_INT 2; CFG_INT 3]].
Proof.
  split; [|vm_compute; reflexivity].
  intros p fuel Hle Hf. split; [|split].
  - intros vs p' Hvs H. exact (value_sound fuel p vs p' Hvs H).
  - intros n Hn Hh.
    destruct (value_complete fuel p n Hle Hf Hn) as [[_ H]|[(i & Hi & Hz) _]].
    + exact H.
    + rewrite (Hh i Hi) in Hz. discriminate.
  - intros n Hn (i & Hi & Hz).
    destruct (value_complete fuel p n Hle Hf Hn) as [[Hh _]|[_ H]].
    + rewrite (Hh i Hi) in Hz. discriminate.
    + exact H.
Qed.

Lemma value_accepts_code_grammar_witness :
  let p := advance 2 (_get_token (mk_parser (str "key = [1 2, 3,]") TOK_EOF 0 0 1)) in
  (forall vs p',
      vs <> [] -> _value 10 p = Ok (vs, p') ->
      exists n, value_code (map classify (upcoming n p)) /\
                p' = advance n p /\
                forall i, (i < n)%nat -> hazard (advance i p) = false) /\
  (forall n,
      value_code (map classify (upcoming n p)) ->
      (forall i, (i < n)%nat -> hazard (advance i p) = false) ->
      exists vs, vs <> [] /\ _value 10 p = Ok (vs, advance n p)) /\
  (forall n,
      value_code (map classify (upcoming n p)) ->
      (exists i, (i < n)%nat /\ hazard (advance i p) = true) ->
      _value 10 p = Fail undefined_behaviour).
Proof.
  cbv zeta. apply (proj1 value_accepts_code_grammar).
  - apply Nat.leb_le. vm_compute. reflexivity.
  - apply Nat.leb_le. vm_compute. reflexivity.
Defined.

(** The two hazards: on ['k = '] followed by a lone quote the lexeme ahead
    is a Type, and [_type] calls [strncpy] with the length -1; on a file of
    one page that ends in ['k = 12'], [strtol] reads the byte after the
    mapping. *)
Lemma value_hazards :
  let p := advance 2 (_get_token (mk_parser (str "k = " ++ [dquote]) TOK_EOF 0 0 1)) in
  let b := repeat " "%char 4090 ++ str "k = 12" in
  let p' := advance 2 (_get_token (mk_parser b TOK_EOF 0 0 1)) in
  (map classify (upcoming 1 p) = [TYPE] /\ hazard p = true /\
   _value 10 p = Fail undefined_behaviour) /\
  (List.length b = 4096%nat /\ map classify (upcoming 1 p') = [TYPE] /\
   hazard p' = true /\ _value 10 p' = Fail undefined_behaviour).
Proof. cbv zeta. vm_compute. repeat split; reflexivity. Qed.

(** ** Reading back what the serialiser wrote *)

Lemma unmapped_end_mk (p : parser) (ty : token) (b e : nat) (ln : Z) :
  unmapped_end (mk_parser (fb p) ty b e ln) = unmapped_end p.
Proof. reflexivity. Qed.

Lemma type_written (q : parser) (ws : list ascii) (x : config_value) (r : list ascii) :
  ahead q (ws ++ _write_value x ++ r) -> forallb isspace ws = true ->
  writable x = true -> delimits r ->
  _type (_get_token q) = Ok (reread_value x, _get_token (_get_token q)) /\
  ahead (_get_token q) r.
Proof.
  intros Hq Hws Hx Hr. destruct x as [s|f|i].
  - cbn [writable] in Hx. apply andb_true_iff in Hx. destruct Hx as [Hs Hn].
    cbn [_write_value app] in Hq. rewrite <- app_assoc in Hq. cbn [app] in Hq.
    destruct Hq as [Hle Hfrom].
    destruct (type_string q ws s r Hle Hfrom Hws Hs) as (q' & Hty & _).
    pose proof (type_ok _ _ _ Hty) as (_ & _ & Hg). rewrite Hg in Hty.
    rewrite (cstr_no_nul s Hn) in Hty. split; [exact Hty|].
    rewrite (get_token_string q ws s r Hle Hfrom Hws Hs).
    replace (te q + List.length ws + List.length s + 2)%nat
      with (te q + List.length (ws ++ dquote :: s ++ [dquote]))%nat
      by (rewrite !length_app; cbn [List.length]; rewrite length_app; cbn [List.length]; lia).
    apply (ahead_mk q _ _ _ _ (ws ++ dquote :: s ++ [dquote]) r); [|reflexivity].
    split; [exact Hle|]. rewrite Hfrom, <- !app_assoc. cbn [app].
    rewrite <- app_assoc. reflexivity.
  - destruct f as [[|] qv| |]; try discriminate.
    cbn [_write_value reread_value] in *. unfold reread_float.
    destruct (print_f_shape qv) as (ds1 & ds2 & Hp & Hne & H1 & H2).
    rewrite Hp in *.
    pose proof (delimits_not_digit r Hr) as Hnd.
    rewrite (get_token_float q ws ds1 ds2 r Hq Hws Hne H1 H2 Hnd).
    assert (Hah : ahead (mk_parser (fb q) TOK_FLOAT (te q + List.length ws)
                           (te q + List.length ws
                            + List.length (ds1 ++ "."%char :: ds2))
                           (line q + newlines (List.length ws) ws)) r).
    { replace (te q + List.length ws + List.length (ds1 ++ "."%char :: ds2))%nat
        with (te q + List.length (ws ++ ds1 ++ "."%char :: ds2))%nat
        by (rewrite (length_app ws); lia).
      apply (ahead_mk q _ _ _ _ (ws ++ ds1 ++ "."%char :: ds2) r); [|reflexivity].
      rewrite <- app_assoc. exact Hq. }
    split; [|exact Hah].
    unfold _type. cbn [t tb]. rewrite from_mk, unmapped_end_mk.
    destruct Hq as [Hle Hfrom].
    rewrite (from_skip q (te q) ws _ Hfrom).
    rewrite (strtod_past_written ds1 ds2 r Hne H1 H2 Hr). cbn [andb].
    rewrite (strtod_written ds1 ds2 r H1 H2 Hr).
    unfold match_, _match_aux. cbn [t token_eqb bind]. reflexivity.
  - cbn [writable] in Hx. apply andb_true_iff in Hx. destruct Hx as [H0 H31].
    apply Z.leb_le in H0. apply Z.ltb_lt in H31.
    cbn [_write_value] in Hq. unfold print_d in Hq.
    replace (i <? 0) with false in Hq by (symmetry; apply Z.ltb_ge; lia).
    rewrite (get_token_int q ws i r Hq Hws H0 (delimits_ends_number r Hr)).
    assert (Hah : ahead (mk_parser (fb q) TOK_INT (te q + List.length ws)
                           (te q + List.length ws + List.length (print_uint i))
                           (line q + newlines (List.length ws) ws)) r).
    { replace (te q + List.length ws + List.length (print_uint i))%nat
        with (te q + List.length (ws ++ print_uint i))%nat
        by (rewrite length_app; lia).
      apply (ahead_mk q _ _ _ _ (ws ++ print_uint i) r); [|reflexivity].
      rewrite <- app_assoc. exact Hq. }
    split; [|exact Hah].
    unfold _type. cbn [t tb]. rewrite from_mk, unmapped_end_mk.
    destruct Hq as [Hle Hfrom].
    rewrite (from_skip q (te q) ws _ Hfrom).
    assert (Hpast : strtol_past (print_uint i ++ r) = false).
    { unfold strtol_past. rewrite forallb_app.
      destruct r as [|c r]; [contradiction|]. destruct Hr as (Hc & _).
      cbn [forallb]. rewrite Hc. apply andb_false_iff. right. reflexivity. }
    rewrite Hpast. cbn [andb].
    unfold match_, _match_aux. cbn [t token_eqb bind].
    rewrite strtol_print_uint; [reflexivity|lia|].
    apply (delimits_not_digit r Hr).
Qed.

Lemma type_token (p : parser) (x : config_value) (p' : parser) :
  _type p = Ok (x, p') -> token_eqb (t p) TOK_ARRAY_E = false /\
                          token_eqb (t p) TOK_ARRAY_B = false.
Proof.
  intros H. apply type_ok in H. destruct H as [H _].
  destruct (classify_type p H) as (H1 & _ & H2 & _).
  split; apply token_eqb_false; assumption.
Qed.

Lemma array_written (vs : list config_value) :
  vs <> [] -> forallb writable vs = true ->
  forall q ws r,
    ahead q (ws ++ write_array vs ++ "]"%char :: r) ->
    forallb isspace ws = true ->
    exists q',
      ahead q' ("]"%char :: r) /\
      forall fuel, (List.length vs < fuel)%nat ->
                   array_body fuel (_get_token q)
                   = Ok (map reread_value vs, _get_token q').
Proof.
  induction vs as [|x vs IH]; intros Hne Hwf q ws r Hq Hws; [contradiction|].
  cbn [forallb] in Hwf. apply andb_true_iff in Hwf. destruct Hwf as [Hx Hvs].
  destruct vs as [|y vs].
  - cbn [write_array] in Hq.
    destruct (type_written q ws x _ Hq Hws Hx) as [Hty Hah]; [repeat split|].
    exists (_get_token q). split; [exact Hah|].
    intros fuel Hf. destruct fuel as [|[|fuel]]; try (cbn [List.length] in Hf; lia).
    rewrite array_body_eq. destruct (type_token _ _ _ Hty) as [He _].
    rewrite He, Hty. cbn [bind].
    assert (Hrb : _get_token (_get_token q)
                  = mk_parser (fb (_get_token q)) TOK_ARRAY_E
                      (te (_get_token q) + 0) (S (te (_get_token q) + 0))
                      (line (_get_token q) + 0)).
    { apply (get_token_single _ [] "]" r); [exact Hah|reflexivity|reflexivity]. }
    rewrite Hrb. cbn [t token_eqb bind]. rewrite array_body_eq. cbn [t token_eqb bind].
    reflexivity.
  - cbn [write_array] in Hq. rewrite <- !app_assoc in Hq.
    change (str ", " ++ write_array (y :: vs) ++ "]"%char :: r)
      with (","%char :: " "%char :: write_array (y :: vs) ++ "]"%char :: r) in Hq.
    destruct (type_written q ws x _ Hq Hws Hx) as [Hty Hah]; [repeat split|].
    assert (Hc : _get_token (_get_token q)
                 = mk_parser (fb (_get_token q)) TOK_COMMA
                     (te (_get_token q) + 0) (S (te (_get_token q) + 0))
                     (line (_get_token q) + 0)).
    { eapply (get_token_single _ [] ","); [exact Hah|reflexivity|reflexivity]. }
    assert (Hah2 : ahead (_get_token (_get_token q))
                     ([" "%char] ++ write_array (y :: vs) ++ "]"%char :: r)).
    { rewrite Hc. rewrite Nat.add_0_r.
      replace (S (te (_get_token q))) with (te (_get_token q) + 1)%nat by lia.
      apply (ahead_mk _ _ _ _ _ [","%char]); [exact Hah|reflexivity]. }
    destruct (IH ltac:(discriminate) Hvs _ _ _ Hah2 eq_refl) as (q' & Hq' & Hbody).
    exists q'. split; [exact Hq'|].
    intros fuel Hf. destruct fuel as [|fuel]; [lia|].
    rewrite array_body_eq. destruct (type_token _ _ _ Hty) as [He _].
    rewrite He, Hty. cbn [bind].
    assert (Htc : t (_get_token (_get_token q)) = TOK_COMMA) by (rewrite Hc; reflexivity).
    rewrite Htc. cbn [token_eqb]. unfold match_, _match_aux. rewrite Htc.
    cbn [token_eqb bind]. rewrite Hbody by (cbn [List.length] in *; lia).
    reflexivity.
Qed.


Lemma config_node_induction (P : config_node -> Prop) :
  (forall k ch vs, Forall P ch -> P (mk_node k ch vs)) ->
  forall n, P n.
Proof.
  intros H. fix IH 1. intros [k ch vs]. apply H.
  induction ch as [|c ch IHch]; constructor; [apply IH|exact IHch].
Qed.

Lemma indent_spaces (level : nat) : forallb isspace (indent level) = true.
Proof.
  unfold indent. induction (Nat.min level MAX_INDENT) as [|k IH]; [reflexivity|].
  simpl. exact IH.
Qed.

Lemma siblings_eq (level : nat) (ch : list config_node) :
  (fix siblings (l : list config_node) : list ascii :=
     match l with
     | [] => []
     | c :: l' => write_node (S level) c ++ siblings l'
     end) ch
  = _write_config ch (S level).
Proof.
  induction ch as [|c ch IH]; [reflexivity|].
  cbn [_write_config]. rewrite <- IH. reflexivity.
Qed.

Lemma write_node_eq (level : nat) (k : list ascii) (ch : list config_node)
    (vs : list config_value) :
  write_node level (mk_node k ch vs)
  = indent level ++ k ++
    match vs with
    | [] => str " {" ++ newline :: _write_config ch (S level)
                     ++ indent level ++ str "}"
    | [x] => "="%char :: _write_value x
    | _ => "="%char :: "["%char :: write_array vs ++ str "]"
    end ++ [newline].
Proof.
  cbn [write_node]. fold (indent level).
  destruct vs as [|x [|y vs]]; try reflexivity.
  rewrite siblings_eq. reflexivity.
Qed.

Lemma value_written (vs : list config_value) :
  vs <> [] -> forallb writable vs = true ->
  forall q r,
    ahead q (match vs with
             | [x] => _write_value x
             | _ => "["%char :: write_array vs ++ str "]"
             end ++ newline :: r) ->
    exists q',
      ahead q' (newline :: r) /\
      forall fuel, (List.length vs < fuel)%nat ->
                   _value fuel (_get_token q)
                   = Ok (map reread_value vs, _get_token q').
Proof.
  intros Hne Hwf q r Hq.
  destruct vs as [|x [|y vs]]; [contradiction| |].
  - cbn [forallb] in Hwf. apply andb_true_iff in Hwf. destruct Hwf as [Hx _].
    destruct (type_written q [] x (newline :: r) Hq eq_refl Hx) as [Hty Hah];
      [repeat split|].
    exists (_get_token q). split; [exact Hah|]. intros fuel _.
    rewrite value_eq. destruct (type_token _ _ _ Hty) as [_ Hb].
    rewrite Hb, Hty. reflexivity.
  - cbn [app] in Hq. rewrite <- app_assoc in Hq.
    change (str "]" ++ newline :: r) with ("]"%char :: newline :: r) in Hq.
    assert (Hb : _get_token q
                 = mk_parser (fb q) TOK_ARRAY_B (te q + 0) (S (te q + 0)) (line q + 0)).
    { apply (get_token_single q [] "[" _ _ Hq); reflexivity. }
    assert (Hah : ahead (_get_token q)
                    ([] ++ write_array (x :: y :: vs) ++ "]"%char :: newline :: r)).
    { rewrite Hb, Nat.add_0_r. replace (S (te q)) with (te q + 1)%nat by lia.
      apply (ahead_mk q _ _ _ _ ["["%char]); [exact Hq|reflexivity]. }
    destruct (array_written _ Hne Hwf _ _ _ Hah eq_refl) as (q2 & Hq2 & Hbody).
    assert (He : _get_token q2
                 = mk_parser (fb q2) TOK_ARRAY_E (te q2 + 0) (S (te q2 + 0)) (line q2 + 0)).
    { apply (get_token_single q2 [] "]" _ _ Hq2); reflexivity. }
    exists (_get_token q2). split.
    + rewrite He, Nat.add_0_r. replace (S (te q2)) with (te q2 + 1)%nat by lia.
      apply (ahead_mk q2 _ _ _ _ ["]"%char]); [exact Hq2|reflexivity].
    + intros fuel Hf. rewrite value_eq.
      assert (Htb : t (_get_token q) = TOK_ARRAY_B) by (rewrite Hb; reflexivity).
      rewrite Htb. cbn [token_eqb]. unfold match_ at 1, _match_aux at 1.
      rewrite Htb. cbn [token_eqb bind]. rewrite (Hbody fuel Hf). cbn [bind].
      unfold match_, _match_aux.
      assert (Hte : t (_get_token q2) = TOK_ARRAY_E) by (rewrite He; reflexivity).
      rewrite Hte. reflexivity.
Qed.



Lemma section_eq (fuel : nat) (p : parser) :
  _section (S fuel) p
  = (k <- _dup_tok p ;;
     p1 <- match_ p TOK_IDENTIFIER ;;
     if token_eqb (t p1) TOK_SECTION_B then
       p2 <- match_ p1 TOK_SECTION_B ;;
       '(ns, p3) <- section_body fuel p2 ;;
       p4 <- match_ p3 TOK_SECTION_E ;;
       Ok (mk_node k ns [], p4)
     else
       p2 <- match_ p1 TOK_EQ ;;
       '(vs, p3) <- _value fuel p2 ;;
       match vs with
       | [] => Fail null_value
       | _ :: _ => Ok (mk_node k [] vs, p3)
       end).
Proof. reflexivity. Qed.

Lemma section_body_eq (fuel : nat) (p : parser) :
  section_body (S fuel) p
  = if token_eqb (t p) TOK_SECTION_E then Ok ([], p)
    else
      '(n, p1) <- _section fuel p ;;
      '(ns, p2) <- section_body fuel p1 ;;
      Ok (n :: ns, p2).
Proof. reflexivity. Qed.

Lemma file_eq (fuel : nat) (p : parser) :
  _file (S fuel) p
  = if token_eqb (t p) TOK_EOF then Ok []
    else
      '(n, p1) <- _section fuel p ;;
      ns <- _file fuel p1 ;;
      Ok (n :: ns).
Proof. reflexivity. Qed.

Lemma section_ok_identifier (fuel : nat) (p : parser) (x : config_node * parser) :
  _section fuel p = Ok x -> t p = TOK_IDENTIFIER.
Proof.
  destruct fuel as [|fuel]; [discriminate|]. rewrite section_eq. intros H.
  bind_inv H. bind_inv H. apply match_ok in E0. destruct E0 as [E0 _].
  apply token_eqb_eq in E0. exact E0.
Qed.

Lemma dup_tok_written (q : parser) (ty : token) (ln : Z) (ws k r : list ascii) :
  ahead q (ws ++ k ++ r) -> no_nul k = true ->
  _dup_tok (mk_parser (fb q) ty (te q + List.length ws)
              (te q + List.length ws + List.length k) ln)
  = Ok k.
Proof.
  intros [Hle Hfrom] Hk. unfold _dup_tok, from. cbn [te tb fb].
  replace (te q + List.length ws + List.length k <? te q + List.length ws)%nat
    with false by (symmetry; apply Nat.ltb_ge; lia).
  fold (from q (te q + List.length ws)).
  rewrite (from_skip q (te q) ws _ Hfrom).
  replace (te q + List.length ws + List.length k - (te q + List.length ws))%nat
    with (List.length k) by lia.
  rewrite firstn_app, Nat.sub_diag, firstn_all. cbn [firstn]. rewrite app_nil_r.
  rewrite (cstr_no_nul k Hk). reflexivity.
Qed.

Lemma forallb_app_true (f : ascii -> bool) (a b : list ascii) :
  forallb f a = true -> forallb f b = true -> forallb f (a ++ b) = true.
Proof. intros Ha Hb. rewrite forallb_app, Ha, Hb. reflexivity. Qed.

Lemma siblings_read_back (cs : list config_node) :
  Forall reads_back cs -> forallb writable_node cs = true ->
  forall level q ws wt r,
    ahead q (ws ++ _write_config cs level ++ wt ++ "}"%char :: r) ->
    forallb isspace ws = true -> forallb isspace wt = true ->
    exists q2 ws2 f0,
      forallb isspace ws2 = true /\ ahead q2 (ws2 ++ "}"%char :: r) /\
      forall fuel, (f0 <= fuel)%nat ->
                   section_body fuel (_get_token q)
                   = Ok (map reread_node cs, _get_token q2).
Proof.
  induction 1 as [|c cs Hc Hcs IH]; intros Hwf level q ws wt r Hq Hws Hwt.
  - cbn [_write_config app] in Hq. rewrite app_assoc in Hq.
    pose proof (forallb_app_true _ _ _ Hws Hwt) as Hsp.
    pose proof (get_token_single q (ws ++ wt) "}" r TOK_SECTION_E Hq Hsp eq_refl) as Hg.
    exists q, (ws ++ wt), 1%nat. split; [exact Hsp|]. split; [exact Hq|].
    intros fuel Hf. destruct fuel as [|fuel]; [lia|].
    rewrite section_body_eq, Hg. reflexivity.
  - cbn [forallb] in Hwf. apply andb_true_iff in Hwf. destruct Hwf as [Hwc Hwcs].
    cbn [_write_config] in Hq. rewrite <- app_assoc in Hq.
    destruct (Hc Hwc level q ws _ Hq Hws) as (q1 & f1 & Hq1 & Hsec).
    change (newline :: _write_config cs level ++ wt ++ "}"%char :: r)
      with ([newline] ++ _write_config cs level ++ wt ++ "}"%char :: r) in Hq1.
    destruct (IH Hwcs level q1 [newline] wt r Hq1 eq_refl Hwt)
      as (q2 & ws2 & f2 & Hsp2 & Hq2 & Hbody).
    exists q2, ws2, (S (Nat.max f1 f2)). split; [exact Hsp2|]. split; [exact Hq2|].
    intros fuel Hf. destruct fuel as [|fuel]; [lia|].
    rewrite section_body_eq.
    pose proof (Hsec fuel ltac:(lia)) as Hs.
    rewrite (section_ok_identifier _ _ _ Hs). cbn [token_eqb].
    rewrite Hs. cbn [bind]. rewrite (Hbody fuel) by lia. reflexivity.
Qed.

Lemma file_read_back (cs : list config_node) :
  Forall reads_back cs -> forallb writable_node cs = true ->
  forall q ws,
    ahead q (ws ++ _write_config cs 0) ->
    forallb isspace ws = true ->
    exists f0, forall fuel, (f0 <= fuel)%nat ->
                            _file fuel (_get_token q) = Ok (map reread_node cs).
Proof.
  induction 1 as [|c cs Hc Hcs IH]; intros Hwf q ws Hq Hws.
  - cbn [_write_config] in Hq. rewrite app_nil_r in Hq.
    exists 1%nat. intros fuel Hf. destruct fuel as [|fuel]; [lia|].
    rewrite file_eq, (get_token_eof q ws Hq Hws). reflexivity.
  - cbn [forallb] in Hwf. apply andb_true_iff in Hwf. destruct Hwf as [Hwc Hwcs].
    cbn [_write_config] in Hq.
    destruct (Hc Hwc 0%nat q ws _ Hq Hws) as (q1 & f1 & Hq1 & Hsec).
    change (newline :: _write_config cs 0)
      with ([newline] ++ _write_config cs 0) in Hq1.
    destruct (IH Hwcs q1 [newline] Hq1 eq_refl) as (f2 & Hfile).
    exists (S (Nat.max f1 f2)).
    intros fuel Hf. destruct fuel as [|fuel]; [lia|].
    rewrite file_eq.
    pose proof (Hsec fuel ltac:(lia)) as Hs.
    rewrite (section_ok_identifier _ _ _ Hs). cbn [token_eqb].
    rewrite Hs. cbn [bind]. rewrite (Hfile fuel) by lia. reflexivity.
Qed.



Lemma node_reads_back : forall n, reads_back n.
Proof.
  induction n as [k ch vs IHch] using config_node_induction.
  intros Hwf level q ws r Hq Hws.
  unfold writable_node in Hwf. cbn [tree_ok] in Hwf.
  fold writable_node in Hwf.
  apply andb_true_iff in Hwf. destruct Hwf as [Hk Hrest].
  assert (Hnn : no_nul k = true).
  { destruct k; [discriminate|]. unfold wf_key in Hk.
    apply andb_true_iff in Hk. tauto. }
  rewrite write_node_eq in Hq. rewrite <- !app_assoc in Hq. rewrite app_assoc in Hq.
  pose proof (forallb_app_true _ _ _ Hws (indent_spaces level)) as Hsp.
  set (w := ws ++ indent level) in *.
  set (e := (te q + List.length w)%nat).
  set (ln := line q + newlines (List.length w) w).
  destruct vs as [|x vs].
  - (* a section *)
    change (str " {" ++ newline :: _write_config ch (S level)
                     ++ indent level ++ str "}")
      with (" "%char :: "{"%char :: newline :: _write_config ch (S level)
                     ++ indent level ++ str "}") in Hq.
    cbn [app] in Hq.
    assert (Hg : _get_token q
                 = mk_parser (fb q) TOK_IDENTIFIER e (e + List.length k) ln).
    { apply (get_token_ident q w k _ Hq Hsp Hk). reflexivity. }
    assert (Hdup : _dup_tok (_get_token q) = Ok k).
    { rewrite Hg. apply (dup_tok_written q _ _ w k _ Hq Hnn). }
    assert (Hah : ahead (_get_token q)
                    ([" "%char] ++ "{"%char :: newline :: (_write_config ch (S level)
                       ++ indent level ++ str "}") ++ [newline] ++ r)).
    { rewrite Hg. unfold e.
      replace (te q + List.length w + List.length k)%nat
        with (te q + List.length (w ++ k))%nat by (rewrite length_app; lia).
      apply (ahead_mk q _ _ _ _ (w ++ k)); [|reflexivity].
      rewrite <- app_assoc. exact Hq. }
    pose proof (get_token_single _ [" "%char] "{" _ TOK_SECTION_B Hah eq_refl eq_refl)
      as Hg2.
    assert (Hah2 : ahead (_get_token (_get_token q))
                     ([newline] ++ _write_config ch (S level)
                        ++ indent level ++ "}"%char :: newline :: r)).
    { rewrite Hg2.
      replace (S (te (_get_token q) + List.length [" "%char]))
        with (te (_get_token q) + List.length [" "%char; "{"%char])%nat
        by (cbn [List.length]; lia).
      apply (ahead_mk _ _ _ _ _ [" "%char; "{"%char]); [|reflexivity].
      destruct Hah as [H1 H2]. split; [exact H1|]. rewrite H2.
      cbn [app]. rewrite <- !app_assoc. reflexivity. }
    destruct (siblings_read_back ch IHch Hrest (S level) _ [newline] (indent level)
                (newline :: r) Hah2 eq_refl (indent_spaces level))
      as (q2 & ws2 & f2 & Hsp2 & Hq2 & Hbody).
    pose proof (get_token_single q2 ws2 "}" _ TOK_SECTION_E Hq2 Hsp2 eq_refl) as Hg3.
    exists (_get_token q2), (S f2). split.
    + rewrite Hg3.
      replace (S (te q2 + List.length ws2))
        with (te q2 + List.length (ws2 ++ ["}"%char]))%nat
        by (rewrite length_app; cbn [List.length]; lia).
      apply (ahead_mk q2 _ _ _ _ (ws2 ++ ["}"%char])); [|reflexivity].
      rewrite <- app_assoc. exact Hq2.
    + intros fuel Hf. destruct fuel as [|fuel]; [lia|].
      rewrite section_eq, Hdup. cbn [bind].
      unfold match_ at 1, _match_aux at 1. rewrite Hg at 1. cbn [t token_eqb bind].
      rewrite Hg2 at 1. cbn [t token_eqb].
      unfold match_ at 1, _match_aux at 1. rewrite Hg2 at 1. cbn [t token_eqb bind].
      rewrite (Hbody fuel) by lia. cbn [bind].
      unfold match_, _match_aux. rewrite Hg3 at 1. cbn [t token_eqb bind].
      reflexivity.
  - (* a binding *)
    apply andb_true_iff in Hrest. destruct Hrest as [Hvs Hch].
    destruct ch as [|c ch]; [|discriminate].
    assert (Hq' : ahead q (w ++ k ++ "="%char ::
                             match x :: vs with
                             | [x0] => _write_value x0
                             | _ => "["%char :: write_array (x :: vs) ++ str "]"
                             end ++ newline :: r)).
    { destruct Hq as [H1 H2]. split; [exact H1|]. rewrite H2.
      destruct vs; cbn [app]; rewrite <- ?app_assoc; reflexivity. }
    clear Hq. rename Hq' into Hq.
    assert (Hg : _get_token q
                 = mk_parser (fb q) TOK_IDENTIFIER e (e + List.length k) ln).
    { apply (get_token_ident q w k _ Hq Hsp Hk). reflexivity. }
    assert (Hdup : _dup_tok (_get_token q) = Ok k).
    { rewrite Hg. apply (dup_tok_written q _ _ w k _ Hq Hnn). }
    assert (Hah : ahead (_get_token q)
                    ([] ++ "="%char ::
                       match x :: vs with
                       | [x0] => _write_value x0
                       | _ => "["%char :: write_array (x :: vs) ++ str "]"
                       end ++ newline :: r)).
    { rewrite Hg. unfold e.
      replace (te q + List.length w + List.length k)%nat
        with (te q + List.length (w ++ k))%nat by (rewrite length_app; lia).
      apply (ahead_mk q _ _ _ _ (w ++ k)); [|reflexivity].
      rewrite <- app_assoc. exact Hq. }
    pose proof (get_token_single _ [] "=" _ TOK_EQ Hah eq_refl eq_refl) as Hg2.
    assert (Hah2 : ahead (_get_token (_get_token q))
                     (match x :: vs with
                      | [x0] => _write_value x0
                      | _ => "["%char :: write_array (x :: vs) ++ str "]"
                      end ++ newline :: r)).
    { rewrite Hg2. cbn [List.length]. rewrite Nat.add_0_r.
      replace (S (te (_get_token q))) with (te (_get_token q) + 1)%nat by lia.
      apply (ahead_mk _ _ _ _ _ ["="%char]); [exact Hah|reflexivity]. }
    destruct (value_written (x :: vs) ltac:(discriminate) Hvs _ _ Hah2)
      as (q' & Hq' & Hval).
    exists q', (S (S (List.length (x :: vs)))). split; [exact Hq'|].
    intros fuel Hf. destruct fuel as [|fuel]; [lia|].
    rewrite section_eq, Hdup. cbn [bind].
    unfold match_ at 1, _match_aux at 1. rewrite Hg at 1. cbn [t token_eqb bind].
    rewrite Hg2 at 1. cbn [t token_eqb].
    unfold match_ at 1, _match_aux at 1. rewrite Hg2 at 1. cbn [t token_eqb bind].
    rewrite (Hval fuel) by lia. reflexivity.
Qed.



(** ** Fuel

    More fuel never changes a result, and twice the bytes left, plus two,
    is enough for the parser of a file. *)

Lemma le_res_refl {A : Type} (r : result A) : le_res r r.
Proof. right. reflexivity. Qed.

Lemma le_res_bind {A B : Type} (a a' : result A) (k k' : A -> result B) :
  le_res a a' -> (forall x, le_res (k x) (k' x)) ->
  le_res (bind a k) (bind a' k').
Proof.
  intros [->| ->] Hk; [left; reflexivity|].
  destruct a' as [x|f]; [apply Hk|right; reflexivity].
Qed.

Lemma le_res_ok {A : Type} (r r' : result A) (x : A) :
  le_res r r' -> r = Ok x -> r' = Ok x.
Proof. intros [->| ->] H; [discriminate|exact H]. Qed.

Lemma array_body_mono (f : nat) :
  forall f' p, (f <= f')%nat -> le_res (array_body f p) (array_body f' p).
Proof.
  induction f as [|f IH]; intros f' p Hf; [left; reflexivity|].
  destruct f' as [|f']; [lia|]. rewrite !array_body_eq.
  destruct (token_eqb (t p) TOK_ARRAY_E); [apply le_res_refl|].
  apply le_res_bind; [apply le_res_refl|]. intros [l p1].
  apply le_res_bind; [apply le_res_refl|]. intros p2.
  apply le_res_bind; [apply IH; lia|]. intros [ls p3]. apply le_res_refl.
Qed.

Lemma value_mono (f f' : nat) (p : parser) :
  (f <= f')%nat -> le_res (_value f p) (_value f' p).
Proof.
  intros Hf. rewrite !value_eq.
  destruct (token_eqb (t p) TOK_ARRAY_B); [|apply le_res_refl].
  apply le_res_bind; [apply le_res_refl|]. intros p1.
  apply le_res_bind; [apply array_body_mono; exact Hf|]. intros [h p2].
  apply le_res_refl.
Qed.

Lemma section_mono (f : nat) :
  forall f', (f <= f')%nat ->
             (forall p, le_res (_section f p) (_section f' p)) /\
             (forall p, le_res (section_body f p) (section_body f' p)).
Proof.
  induction f as [|f IH]; intros f' Hf; [split; intros p; left; reflexivity|].
  destruct f' as [|f']; [lia|].
  destruct (IH f' ltac:(lia)) as [IHs IHb].
  split; intros p.
  - rewrite !section_eq.
    apply le_res_bind; [apply le_res_refl|]. intros k.
    apply le_res_bind; [apply le_res_refl|]. intros p1.
    destruct (token_eqb (t p1) TOK_SECTION_B).
    + apply le_res_bind; [apply le_res_refl|]. intros p2.
      apply le_res_bind; [apply IHb|]. intros [ns p3]. apply le_res_refl.
    + apply le_res_bind; [apply le_res_refl|]. intros p2.
      apply le_res_bind; [apply value_mono; lia|]. intros [vs p3].
      apply le_res_refl.
  - rewrite !section_body_eq.
    destruct (token_eqb (t p) TOK_SECTION_E); [apply le_res_refl|].
    apply le_res_bind; [apply IHs|]. intros [n p1].
    apply le_res_bind; [apply IHb|]. intros [ns p2]. apply le_res_refl.
Qed.

Lemma file_mono (f : nat) :
  forall f' p, (f <= f')%nat -> le_res (_file f p) (_file f' p).
Proof.
  induction f as [|f IH]; intros f' p Hf; [left; reflexivity|].
  destruct f' as [|f']; [lia|]. rewrite !file_eq.
  destruct (token_eqb (t p) TOK_EOF); [apply le_res_refl|].
  apply le_res_bind; [apply (section_mono f f'); lia|]. intros [n p1].
  apply le_res_bind; [apply IH; lia|]. intros ns. apply le_res_refl.
Qed.


Lemma match_advanced (p : parser) (ty : token) (p' : parser) :
  (te p <= fe p)%nat -> ty <> TOK_EOF ->
  match_ p ty = Ok p' -> advanced true p p'.
Proof.
  intros Hle Hty H. apply match_ok in H. destruct H as [Ht ->].
  apply token_eqb_eq in Ht.
  destruct (get_token_spec p Hle) as (Hfb & Hb & He & Heof & Hlt).
  assert (Hfe : fe (_get_token p) = fe p) by (unfold fe; rewrite Hfb; reflexivity).
  unfold advanced, left. rewrite Hfe.
  split; [exact He|]. split; [reflexivity|].
  rewrite (token_eqb_false (t p) TOK_EOF) by congruence.
  destruct (token_eqb (t (_get_token p)) TOK_EOF) eqn:E; [lia|].
  assert (Hne : t (_get_token p) <> TOK_EOF).
  { intros H. apply token_eqb_eq in H. congruence. }
  specialize (Hlt Hne). lia.
Qed.

Lemma match_finished (p : parser) (ty : token) : finished (match_ p ty).
Proof.
  unfold finished, match_, _match_aux.
  destruct (token_eqb (t p) ty); discriminate.
Qed.

Lemma type_finished (p : parser) : finished (_type p).
Proof.
  unfold finished, _type, _dup_tok, match_, _match_aux.
  destruct (t p) eqn:Et; cbn [token_eqb bind]; try discriminate.
  - destruct (_ && _); discriminate.
  - destruct (_ && _); discriminate.
  - destruct (te p =? 0)%nat; [discriminate|].
    cbn [tb te set_te set_tb].
    destruct (_ <? _)%nat; cbn [bind t set_te set_tb]; [discriminate|].
    rewrite Et. discriminate.
Qed.

Lemma type_advanced (p : parser) (x : config_value) (p' : parser) :
  (te p <= fe p)%nat -> _type p = Ok (x, p') -> advanced true p p'.
Proof.
  intros Hle H. apply type_ok in H. destruct H as (Hty & _ & ->).
  destruct (classify_type p Hty) as (_ & _ & _ & Hne).
  apply (match_advanced p (t p)); [exact Hle|exact Hne|].
  apply match_ok. split; [apply token_eqb_eq|]; reflexivity.
Qed.

Lemma advanced_trans (b1 b2 : bool) (p p1 p2 : parser) :
  advanced b1 p p1 -> advanced b2 p1 p2 -> advanced (b1 || b2) p p2.
Proof.
  unfold advanced. intros (H1 & H2 & H3) (H4 & H5 & H6).
  split; [exact H4|]. split; [congruence|].
  destruct b1, b2; cbn [orb]; lia.
Qed.

Lemma advanced_weaken (b : bool) (p p' : parser) :
  advanced b p p' -> advanced false p p'.
Proof. unfold advanced. intros (H1 & H2 & H3). destruct b; repeat split; auto; lia. Qed.

Lemma advanced_refl (p : parser) : (te p <= fe p)%nat -> advanced false p p.
Proof. unfold advanced. intros H. repeat split; auto. Qed.

Lemma finished_fail {A B : Type} (e : failure) :
  finished (@Fail A e) -> finished (@Fail B e).
Proof. unfold finished. intros H E. apply H. injection E as ->. reflexivity. Qed.

Lemma array_body_enough (f : nat) :
  forall p, (te p <= fe p)%nat -> (left p < f)%nat ->
            finished (array_body f p) /\
            forall vs p', array_body f p = Ok (vs, p') -> advanced false p p'.
Proof.
  induction f as [|f IH]; intros p Hle Hf; [lia|].
  rewrite array_body_eq.
  destruct (token_eqb (t p) TOK_ARRAY_E).
  { split; [discriminate|]. intros vs p' H. injection H as _ <-.
    apply advanced_refl. exact Hle. }
  destruct (_type p) as [[l p1]|e] eqn:Ety.
  2:{ pose proof (type_finished p) as Hfin. rewrite Ety in Hfin.
      cbn [bind]. split; [exact (finished_fail e Hfin)|discriminate]. }
  cbn [bind].
  pose proof (type_advanced p l p1 Hle Ety) as Ha1.
  assert (Hp2 : exists p2, (if token_eqb (t p1) TOK_COMMA then match_ p1 TOK_COMMA
                            else Ok p1) = Ok p2 /\ advanced false p1 p2).
  { destruct (token_eqb (t p1) TOK_COMMA) eqn:Ec.
    - unfold match_, _match_aux. rewrite Ec. eexists. split; [reflexivity|].
      apply (advanced_weaken true). apply (match_advanced p1 TOK_COMMA).
      + apply Ha1.
      + discriminate.
      + unfold match_, _match_aux. rewrite Ec. reflexivity.
    - exists p1. split; [reflexivity|]. apply advanced_refl. apply Ha1. }
  destruct Hp2 as (p2 & -> & Ha2). cbn [bind].
  pose proof (advanced_trans _ _ _ _ _ Ha1 Ha2) as Ha. cbn [orb] in Ha.
  destruct (IH p2) as [Hfin Hadv].
  { apply Ha2. }
  { destruct Ha as (_ & _ & Hlt). lia. }
  destruct (array_body f p2) as [[ls p3]|e] eqn:Eb; cbn [bind].
  - split; [discriminate|]. intros vs p' H. injection H as _ <-.
    apply (advanced_weaken true).
    apply (advanced_trans true false _ p2 _ Ha). apply (Hadv ls). reflexivity.
  - split; [exact (finished_fail e Hfin)|discriminate].
Qed.



Lemma dup_tok_finished (p : parser) : finished (_dup_tok p).
Proof. unfold finished, _dup_tok. destruct (_ <? _)%nat; discriminate. Qed.

Lemma value_enough (f : nat) (p : parser) :
  (te p <= fe p)%nat -> (left p <= f)%nat ->
  finished (_value f p) /\
  forall vs p', _value f p = Ok (vs, p') -> advanced true p p'.
Proof.
  intros Hle Hf. rewrite value_eq.
  destruct (token_eqb (t p) TOK_ARRAY_B) eqn:Eb.
  - destruct (match_ p TOK_ARRAY_B) as [p1|e] eqn:E1; cbn [bind];
      [|split; [exact (finished_fail e (eq_ind _ _ (match_finished p TOK_ARRAY_B) _ E1))
               |discriminate]].
    pose proof (match_advanced p TOK_ARRAY_B p1 Hle ltac:(discriminate) E1) as Ha1.
    destruct (array_body_enough f p1) as [Hfin Hadv].
    { apply Ha1. }
    { destruct Ha1 as (_ & _ & Hlt). lia. }
    destruct (array_body f p1) as [[h p2]|e] eqn:E2; cbn [bind];
      [|split; [exact (finished_fail e Hfin)|discriminate]].
    pose proof (Hadv h p2 eq_refl) as Ha2.
    destruct (match_ p2 TOK_ARRAY_E) as [p3|e] eqn:E3; cbn [bind];
      [|split; [exact (finished_fail e (eq_ind _ _ (match_finished p2 TOK_ARRAY_E) _ E3))
               |discriminate]].
    split; [discriminate|]. intros vs p' H. injection H as _ <-.
    pose proof (match_advanced p2 TOK_ARRAY_E p3 ltac:(apply Ha2) ltac:(discriminate) E3)
      as Ha3.
    apply (advanced_trans true true _ p2 _); [|exact Ha3].
    apply (advanced_trans true false _ p1 _ Ha1 Ha2).
  - destruct (_type p) as [[h p1]|e] eqn:E1; cbn [bind].
    + split; [discriminate|]. intros vs p' H. injection H as _ <-.
      apply (type_advanced p h p1 Hle E1).
    + split; [|discriminate].
      pose proof (type_finished p) as Hfin. rewrite E1 in Hfin.
      exact (finished_fail e Hfin).
Qed.

Ltac fail_case e H :=
  cbn [bind]; split; [exact (finished_fail e H)|discriminate].

Lemma section_enough (f : nat) :
  forall p, (te p <= fe p)%nat ->
    ((2 * left p + 1 <= f)%nat ->
     finished (_section f p) /\
     forall n p', _section f p = Ok (n, p') -> advanced true p p') /\
    ((2 * left p + 2 <= f)%nat ->
     finished (section_body f p) /\
     forall ns p', section_body f p = Ok (ns, p') -> advanced false p p').
Proof.
  induction f as [|f IH]; intros p Hle; [split; intros; lia|].
  split; intros Hf.
  - rewrite section_eq.
    destruct (_dup_tok p) as [k|e] eqn:E0;
      [|fail_case e (eq_ind _ _ (dup_tok_finished p) _ E0)].
    cbn [bind].
    destruct (match_ p TOK_IDENTIFIER) as [p1|e] eqn:E1;
      [|fail_case e (eq_ind _ _ (match_finished p TOK_IDENTIFIER) _ E1)].
    cbn [bind].
    pose proof (match_advanced p TOK_IDENTIFIER p1 Hle ltac:(discriminate) E1) as Ha1.
    destruct (token_eqb (t p1) TOK_SECTION_B).
    + destruct (match_ p1 TOK_SECTION_B) as [p2|e] eqn:E2;
        [|fail_case e (eq_ind _ _ (match_finished p1 TOK_SECTION_B) _ E2)].
      cbn [bind].
      pose proof (match_advanced p1 TOK_SECTION_B p2 ltac:(apply Ha1) ltac:(discriminate) E2) as Ha2.
      pose proof (advanced_trans _ _ _ _ _ Ha1 Ha2) as Ha12. cbn [orb] in Ha12.
      destruct (IH p2 ltac:(apply Ha2)) as [_ IHb].
      destruct IHb as [Hfin Hadv].
      { destruct Ha1 as (_ & _ & H1). destruct Ha2 as (_ & _ & H2). lia. }
      destruct (section_body f p2) as [[ns p3]|e] eqn:E3; [|fail_case e Hfin].
      cbn [bind]. pose proof (Hadv ns p3 eq_refl) as Ha3.
      destruct (match_ p3 TOK_SECTION_E) as [p4|e] eqn:E4;
        [|fail_case e (eq_ind _ _ (match_finished p3 TOK_SECTION_E) _ E4)].
      cbn [bind]. split; [discriminate|]. intros n p' H. injection H as _ <-.
      pose proof (match_advanced p3 TOK_SECTION_E p4 ltac:(apply Ha3) ltac:(discriminate) E4) as Ha4.
      apply (advanced_trans true true _ p3 _); [|exact Ha4].
      apply (advanced_trans true false _ p2 _ Ha12 Ha3).
    + destruct (match_ p1 TOK_EQ) as [p2|e] eqn:E2;
        [|fail_case e (eq_ind _ _ (match_finished p1 TOK_EQ) _ E2)].
      cbn [bind].
      pose proof (match_advanced p1 TOK_EQ p2 ltac:(apply Ha1) ltac:(discriminate) E2) as Ha2.
      pose proof (advanced_trans _ _ _ _ _ Ha1 Ha2) as Ha12. cbn [orb] in Ha12.
      destruct (value_enough f p2) as [Hfin Hadv].
      { apply Ha2. }
      { destruct Ha12 as (_ & _ & H). lia. }
      destruct (_value f p2) as [[vs p3]|e] eqn:E3; [|fail_case e Hfin].
      cbn [bind]. destruct vs as [|x vs]; [split; discriminate|].
      split; [discriminate|]. intros n p' H. injection H as _ <-.
      apply (advanced_trans true true _ p2 _ Ha12). apply (Hadv (x :: vs)). reflexivity.
  - rewrite section_body_eq.
    destruct (token_eqb (t p) TOK_SECTION_E).
    { split; [discriminate|]. intros ns p' H. injection H as _ <-.
      apply advanced_refl. exact Hle. }
    destruct (IH p Hle) as [IHs _]. destruct IHs as [Hfin Hadv]; [lia|].
    destruct (_section f p) as [[n p1]|e] eqn:E1; [|fail_case e Hfin].
    cbn [bind]. pose proof (Hadv n p1 eq_refl) as Ha1.
    destruct (IH p1 ltac:(apply Ha1)) as [_ IHb].
    destruct IHb as [Hfin2 Hadv2].
    { destruct Ha1 as (_ & _ & H). lia. }
    destruct (section_body f p1) as [[ns p2]|e] eqn:E2; [|fail_case e Hfin2].
    cbn [bind]. split; [discriminate|]. intros ns' p' H. injection H as _ <-.
    apply (advanced_weaken true).
    apply (advanced_trans true false _ p1 _ Ha1). apply (Hadv2 ns). reflexivity.
Qed.

Lemma file_enough (f : nat) :
  forall p, (te p <= fe p)%nat -> (2 * left p + 2 <= f)%nat -> finished (_file f p).
Proof.
  induction f as [|f IH]; intros p Hle Hf; [lia|].
  rewrite file_eq. destruct (token_eqb (t p) TOK_EOF); [discriminate|].
  destruct (section_enough f p Hle) as [[Hfin Hadv] _]; [lia|].
  destruct (_section f p) as [[n p1]|e] eqn:E1;
    [|cbn [bind]; exact (finished_fail e Hfin)].
  cbn [bind]. pose proof (Hadv n p1 eq_refl) as Ha1.
  assert (Hfin2 : finished (_file f p1)).
  { apply IH; [apply Ha1|]. destruct Ha1 as (_ & _ & H). lia. }
  destruct (_file f p1) as [ns|e]; cbn [bind]; [discriminate|].
  exact (finished_fail e Hfin2).
Qed.

(** The fuel [read_config] gives the parser is enough on every file. *)
Lemma parse_fuel_enough (buf : list ascii) :
  finished (_file (parse_fuel buf) (_get_token (mk_parser buf TOK_EOF 0 0 1))).
Proof.
  set (p0 := mk_parser buf TOK_EOF 0 0 1).
  destruct (get_token_spec p0) as (Hfb & Hb & He & Heof & Hlt).
  { cbn. lia. }
  apply file_enough.
  - unfold fe. rewrite Hfb. exact He.
  - unfold parse_fuel, left.
    destruct (token_eqb (t (_get_token p0)) TOK_EOF) eqn:E; [lia|].
    assert (Hne : t (_get_token p0) <> TOK_EOF).
    { intros H. apply token_eqb_eq in H. congruence. }
    specialize (Hlt Hne). unfold fe in *. rewrite Hfb. cbn [fb p0] in *. lia.
Qed.



(** ** Round trip *)

(** Reading what [write_config] wrote for a writable tree gives the tree
    back, each float read from its six decimals. *)
Lemma round_trip_writable (root : list config_node) :
  root <> [] -> forallb writable_node root = true ->
  read_config (write_config root) = mk_outcome 1 (map reread_node root) None.
Proof.
  intros Hne Hwf. unfold read_config, write_config.
  set (buf := _write_config root 0).
  set (q := mk_parser buf TOK_EOF 0 0 1).
  assert (Hall : Forall reads_back root).
  { apply Forall_forall. intros n _. apply node_reads_back. }
  destruct (file_read_back root Hall Hwf q []) as (f0 & Hf0).
  { split; [apply Nat.le_0_l|reflexivity]. }
  { reflexivity. }
  pose proof (parse_fuel_enough buf) as Hfin. fold q in Hfin.
  pose proof (file_mono (parse_fuel buf) (Nat.max (parse_fuel buf) f0) (_get_token q)
                ltac:(lia)) as Hle.
  rewrite (Hf0 (Nat.max (parse_fuel buf) f0) ltac:(lia)) in Hle.
  destruct Hle as [Hoof|Heq]; [contradiction|].
  rewrite Heq. destruct root; [contradiction|reflexivity].
Qed.

Lemma cfloat_eqb_eq (a b : cfloat) : cfloat_eqb a b = true -> a = b.
Proof.
  destruct a as [s [n d]| s|], b as [s' [n' d']| s'|]; cbn [cfloat_eqb Qnum Qden];
    try discriminate; intros H.
  - apply andb_true_iff in H. destruct H as [H Hd].
    apply andb_true_iff in H. destruct H as [Hs Hn].
    apply Bool.eqb_prop in Hs. apply Z.eqb_eq in Hn. apply Z.eqb_eq in Hd.
    injection Hd as ->. subst. reflexivity.
  - apply Bool.eqb_prop in H. subst. reflexivity.
  - reflexivity.
Qed.

Lemma wf_value_writable (x : config_value) :
  wf_value x = true -> writable x = true /\ reread_value x = x.
Proof.
  unfold wf_value. intros H. apply andb_true_iff in H. destruct H as [Hw Hr].
  split; [exact Hw|]. destruct x as [s|f|i]; try reflexivity.
  cbn [reread_value]. rewrite (cfloat_eqb_eq _ _ Hr). reflexivity.
Qed.

Lemma wf_values_writable (vs : list config_value) :
  forallb wf_value vs = true ->
  forallb writable vs = true /\ map reread_value vs = vs.
Proof.
  induction vs as [|x vs IH]; intros H; [split; reflexivity|].
  cbn [forallb] in H. apply andb_true_iff in H. destruct H as [Hx Hvs].
  destruct (wf_value_writable x Hx) as [H1 H2]. destruct (IH Hvs) as [H3 H4].
  cbn [forallb map]. rewrite H1, H2, H3, H4. split; reflexivity.
Qed.

Lemma wf_node_writable : forall n,
  wf_node n = true -> writable_node n = true /\ reread_node n = n.
Proof.
  induction n as [k ch vs IHch] using config_node_induction.
  unfold wf_node, writable_node. cbn [tree_ok reread_node].
  fold wf_node. fold writable_node.
  intros H. apply andb_true_iff in H. destruct H as [Hk H]. rewrite Hk. cbn [andb].
  destruct vs as [|x vs].
  - assert (Hch : forallb writable_node ch = true /\ map reread_node ch = ch).
    { clear Hk. induction IHch as [|c ch Hc Hcs IH]; [split; reflexivity|].
      cbn [forallb] in H. apply andb_true_iff in H. destruct H as [H1 H2].
      destruct (Hc H1) as [H3 H4]. destruct (IH H2) as [H5 H6].
      cbn [forallb map]. rewrite H3, H4, H5, H6. split; reflexivity. }
    destruct Hch as [H1 H2]. rewrite H1, H2. split; reflexivity.
  - apply andb_true_iff in H. destruct H as [Hvs Hc].
    destruct ch as [|c ch]; [|discriminate].
    destruct (wf_values_writable (x :: vs) Hvs) as [H1 H2].
    rewrite H1, H2. split; reflexivity.
Qed.

Lemma round_trip_wf (root : list config_node) :
  root <> [] -> forallb wf_node root = true ->
  read_config (write_config root) = mk_outcome 1 root None.
Proof.
  intros Hne Hwf.
  assert (H : forallb writable_node root = true /\ map reread_node root = root).
  { clear Hne. induction root as [|n root IH]; [split; reflexivity|].
    cbn [forallb] in Hwf. apply andb_true_iff in Hwf. destruct Hwf as [H1 H2].
    destruct (wf_node_writable n H1) as [H3 H4]. destruct (IH H2) as [H5 H6].
    cbn [forallb map]. rewrite H3, H4, H5, H6. split; reflexivity. }
  destruct H as [H1 H2].
  rewrite (round_trip_writable root Hne H1), H2. reflexivity.
Qed.


Lemma get_token_lexed (q : parser) :
  (te q <= fe q)%nat -> no_nul (fb q) = true -> lexed (_get_token q).
Proof.
  intros Hle Hnul.
  destruct (get_token_spec q Hle) as (Hfb & Hb & He & _ & _).
  unfold lexed. unfold fe. rewrite Hfb. fold (fe q).
  split; [exact He|]. split; [exact Hnul|].
  apply get_token_identifier_text; assumption.
Qed.

Lemma match_lexed (p : parser) (ty : token) (p' : parser) :
  lexed p -> match_ p ty = Ok p' -> lexed p'.
Proof.
  intros (Hle & Hnul & _) H. apply match_ok in H. destruct H as [_ ->].
  apply get_token_lexed; assumption.
Qed.

Lemma type_lexed (p : parser) (x : config_value) (p' : parser) :
  lexed p -> _type p = Ok (x, p') -> lexed p'.
Proof.
  intros (Hle & Hnul & _) H. apply type_ok in H. destruct H as (_ & _ & ->).
  apply get_token_lexed; assumption.
Qed.

Lemma advance_lexed (n : nat) : forall p, lexed p -> lexed (advance n p).
Proof.
  induction n as [|n IH]; intros p Hp; [exact Hp|].
  rewrite advance_S. apply IH. destruct Hp as (Hle & Hnul & _).
  apply get_token_lexed; assumption.
Qed.

Lemma value_lexed (f : nat) (p : parser) (vs : list config_value) (p' : parser) :
  lexed p -> _value f p = Ok (vs, p') -> lexed p'.
Proof.
  intros Hp H. rewrite value_eq in H.
  destruct (token_eqb (t p) TOK_ARRAY_B).
  - bind_inv H. pose proof (match_lexed _ _ _ Hp E) as Hp1.
    bind_inv H. destruct x0 as [h p2].
    destruct (array_body_sound _ _ _ _ E0) as (n & _ & -> & _).
    bind_inv H. injection H as _ <-.
    apply (match_lexed _ _ _ (advance_lexed n x Hp1) E1).
  - bind_inv H. destruct x as [h p1]. injection H as _ <-.
    apply (type_lexed _ _ _ Hp E).
Qed.

Lemma dup_tok_key (p : parser) (k : list ascii) :
  lexed p -> t p = TOK_IDENTIFIER -> _dup_tok p = Ok k -> wf_key k = true.
Proof.
  intros (Hle & Hnul & Hid) Ht H. specialize (Hid Ht).
  unfold _dup_tok in H. destruct (te p <? tb p)%nat; [discriminate|].
  injection H as <-. fold (token_text p).
  rewrite cstr_no_nul; [exact Hid|].
  unfold wf_key in Hid. destruct (token_text p); [discriminate|].
  apply andb_true_iff in Hid. tauto.
Qed.

Lemma section_keyed (f : nat) :
  (forall p n p', lexed p -> _section f p = Ok (n, p') -> keyed n /\ lexed p') /\
  (forall p ns p', lexed p -> section_body f p = Ok (ns, p') ->
                   Forall keyed ns /\ lexed p').
Proof.
  induction f as [|f [IHs IHb]]; [split; intros; discriminate|].
  split.
  - intros p n p' Hp H. rewrite section_eq in H.
    bind_inv H. rename x into k. bind_inv H. rename x into p1.
    pose proof (match_lexed _ _ _ Hp E0) as Hp1.
    assert (Hk : wf_key k = true).
    { apply (dup_tok_key p k Hp); [|exact E].
      apply match_ok in E0. destruct E0 as [E0 _]. apply token_eqb_eq in E0. exact E0. }
    destruct (token_eqb (t p1) TOK_SECTION_B).
    + bind_inv H. rename x into p2. pose proof (match_lexed _ _ _ Hp1 E1) as Hp2.
      bind_inv H. destruct x as [ns p3]. destruct (IHb _ _ _ Hp2 E2) as [Hns Hp3].
      bind_inv H. injection H as <- <-.
      split; [constructor; assumption|]. apply (match_lexed _ _ _ Hp3 E3).
    + bind_inv H. rename x into p2. pose proof (match_lexed _ _ _ Hp1 E1) as Hp2.
      bind_inv H. destruct x as [vs p3].
      pose proof (value_lexed _ _ _ _ Hp2 E2) as Hp3.
      destruct vs as [|x vs]; [discriminate|]. injection H as <- <-.
      split; [constructor; [assumption|constructor]|exact Hp3].
  - intros p ns p' Hp H. rewrite section_body_eq in H.
    destruct (token_eqb (t p) TOK_SECTION_E).
    + injection H as <- <-. split; [constructor|exact Hp].
    + bind_inv H. destruct x as [n p1]. destruct (IHs _ _ _ Hp E) as [Hn Hp1].
      bind_inv H. destruct x as [ns' p2]. destruct (IHb _ _ _ Hp1 E0) as [Hns Hp2].
      injection H as <- <-. split; [constructor; assumption|exact Hp2].
Qed.

Lemma file_keyed (f : nat) :
  forall p ns, lexed p -> _file f p = Ok ns -> Forall keyed ns.
Proof.
  induction f as [|f IH]; intros p ns Hp H; [discriminate|].
  rewrite file_eq in H. destruct (token_eqb (t p) TOK_EOF).
  - injection H as <-. constructor.
  - bind_inv H. destruct x as [n p1].
    destruct (proj1 (section_keyed f) _ _ _ Hp E) as [Hn Hp1].
    bind_inv H. injection H as <-. constructor; [exact Hn|].
    apply (IH _ _ Hp1 E0).
Qed.

Lemma read_config_keyed (buf : list ascii) :
  no_nul buf = true -> Forall keyed (cf_root (read_config buf)).
Proof.
  intros Hnul. unfold read_config.
  destruct (_file _ _) as [root|e] eqn:E.
  - apply file_keyed in E.
    + destruct root; [constructor|exact E].
    + apply get_token_lexed; [apply Nat.le_0_l|exact Hnul].
  - destruct e; constructor.
Qed.

(** ** What the parser builds on any file *)

Lemma get_token_tokenised (q : parser) :
  (te q <= fe q)%nat -> tokenised (_get_token q).
Proof.
  intros Hle.
  destruct (get_token_spec q Hle) as (Hfb & Hb & He & _ & _).
  unfold tokenised. unfold fe. rewrite Hfb. fold (fe q).
  split; [exact He|]. split; [apply get_token_identifier_bytes; assumption|].
  apply get_token_string_extent. exact Hle.
Qed.

Lemma match_tokenised (p : parser) (ty : token) (p' : parser) :
  tokenised p -> match_ p ty = Ok p' -> tokenised p'.
Proof.
  intros (Hle & _) H. apply match_ok in H. destruct H as [_ ->].
  apply get_token_tokenised; assumption.
Qed.

Lemma advance_tokenised (n : nat) : forall p, tokenised p -> tokenised (advance n p).
Proof.
  induction n as [|n IH]; intros p Hp; [exact Hp|].
  rewrite advance_S. apply IH. destruct Hp as (Hle & _).
  apply get_token_tokenised; assumption.
Qed.

Lemma digit_val_nonneg (c : ascii) : isdigit c = true -> 0 <= digit_val c.
Proof.
  unfold isdigit, digit_val. intros H. apply andb_true_iff in H.
  destruct H as [H _]. apply Nat.leb_le in H. lia.
Qed.

Lemma digits_acc_nonneg (l : list ascii) :
  forall a, 0 <= a -> 0 <= digits_acc a l.
Proof.
  induction l as [|c l IH]; intros a Ha; [exact Ha|].
  cbn [digits_acc]. destruct (isdigit c) eqn:E; [|exact Ha].
  apply IH. pose proof (digit_val_nonneg c E). lia.
Qed.

Lemma Qnum_nonneg_le (q : Q) : 0 <= Qnum q -> (0 <= q)%Q.
Proof. destruct q as [a b]. unfold Qle. cbn. lia. Qed.

(** [strtod] returns a [double] that is not negative. *)
Lemma strtod_nonneg (l : list ascii) :
  strtod l = F_inf false \/
  exists D, strtod l = F_finite false D /\ (0 <= D)%Q.
Proof.
  unfold strtod. destruct (numeral l) as [[ip fp] rest].
  destruct (ip ++ fp) as [|c ds] eqn:E.
  - right. exists 0%Q. split; [reflexivity|apply Qle_refl].
  - pose proof (digits_acc_nonneg (c :: ds) 0 ltac:(lia)) as Hm.
    set (m := digits_acc 0 (c :: ds)) in *.
    set (x := exponent rest - Z.of_nat (List.length fp)).
    destruct (0 <=? x) eqn:Ex.
    + apply Z.leb_le in Ex.
      destruct (round_double (m * 10 ^ x) 1) as [q|] eqn:R; [right|left; reflexivity].
      exists q. split; [reflexivity|].
      apply (round_float_representable 53 (-1074) 1024 (m * 10 ^ x) 1 q);
        try reflexivity; [|exact R].
      pose proof (Z.pow_nonneg 10 x ltac:(lia)). nia.
    + apply Z.leb_gt in Ex.
      destruct (round_double m (10 ^ (- x))) as [q|] eqn:R; [right|left; reflexivity].
      exists q. split; [reflexivity|].
      apply (round_float_representable 53 (-1074) 1024 m (10 ^ (- x)) q);
        try reflexivity; [exact Hm| |exact R].
      apply Z.pow_pos_nonneg; lia.
Qed.

(** The value stored for a Float token is a binary32 number that is not
    negative, or an infinity. *)
Lemma to_float_strtod (l : list ascii) :
  to_float (strtod l) = F_inf false \/
  exists q, to_float (strtod l) = F_finite false q /\ (0 <= q)%Q /\
            representable 24 (-149) q /\ (q < 2 ^ 128)%Q.
Proof.
  destruct (strtod_nonneg l) as [->|(D & -> & HD)]; [left; reflexivity|].
  cbn [to_float].
  destruct (round_single (Qnum D) (Zpos (Qden D))) as [q|] eqn:R;
    [right|left; reflexivity].
  exists q. split; [reflexivity|].
  destruct (round_float_representable 24 (-149) 128 (Qnum D) (Zpos (Qden D)) q)
    as (H1 & H2 & H3); try reflexivity; [|exact R|tauto].
  apply Qnum_nonneg. exact HD.
Qed.

Lemma to_int_range (x : Z) : - 2 ^ 31 <= to_int x < 2 ^ 31.
Proof.
  unfold to_int. pose proof (Z.mod_pos_bound (x + 2 ^ 31) (2 ^ 32)). lia.
Qed.

(** A prefix of the bytes a literal was scanned over holds no quote that
    is not escaped. *)
Lemma scan_string_prefix (l : list ascii) :
  forall j, (j <= scan_string l)%nat -> quotes_escaped (firstn j l) = true.
Proof.
  assert (H : forall n l, (List.length l <= n)%nat ->
                forall j, (j <= scan_string l)%nat ->
                          quotes_escaped (firstn j l) = true).
  { clear l. induction n as [|n IH]; intros l Hn j Hj.
    - destruct l; [|cbn [List.length] in Hn; lia]. rewrite firstn_nil. reflexivity.
    - destruct l as [|c l]; [rewrite firstn_nil; reflexivity|].
      destruct j as [|j]; [reflexivity|].
      cbn [scan_string] in Hj. cbn [firstn quotes_escaped].
      destruct (eqc c dquote); [lia|].
      destruct (eqc c backslash).
      + destruct l as [|d l]; [rewrite firstn_nil; reflexivity|].
        destruct j as [|j]; [reflexivity|]. cbn [firstn].
        apply IH; [cbn [List.length] in Hn; lia|lia].
      + apply IH; [cbn [List.length] in Hn; lia|lia]. }
  apply (H (List.length l)). apply Nat.le_refl.
Qed.

Lemma escaped_ok_split (s : list ascii) :
  escaped_ok s = quotes_escaped s && negb (open_escape s).
Proof.
  assert (H : forall n s, (List.length s <= n)%nat ->
                escaped_ok s = quotes_escaped s && negb (open_escape s)).
  { clear s. induction n as [|n IH]; intros s Hn.
    - destruct s; [reflexivity|cbn [List.length] in Hn; lia].
    - destruct s as [|c s]; [reflexivity|].
      cbn [escaped_ok quotes_escaped open_escape].
      destruct (eqc c dquote); [reflexivity|].
      destruct (eqc c backslash).
      + destruct s as [|d s]; [reflexivity|].
        apply IH. cbn [List.length] in Hn. lia.
      + apply IH. cbn [List.length] in Hn. lia. }
  apply (H (List.length s)). apply Nat.le_refl.
Qed.

Lemma type_stored_value (p : parser) (x : config_value) (p' : parser) :
  tokenised p -> _type p = Ok (x, p') -> stored_value x.
Proof.
  intros (_ & _ & Hstr). unfold _type. destruct (t p); try discriminate.
  - destruct (_ && _); [discriminate|]. intros H. bind_inv H.
    injection H as <- _. apply to_int_range.
  - destruct (_ && _); [discriminate|]. intros H. bind_inv H.
    injection H as <- _. cbn [stored_value].
    destruct (to_float_strtod (from p (tb p))) as [->|(q & -> & H0 & H1 & H2)];
      [reflexivity|].
    split; [reflexivity|]. split; [apply Qnum_nonneg; exact H0|]. split; assumption.
  - destruct (te p =? 0)%nat; [discriminate|]. intros H. bind_inv H. bind_inv H.
    injection H as <- _. unfold _dup_tok in E.
    destruct (_ <? _)%nat; [discriminate|]. injection E as <-.
    split; [apply span_len_all|].
    unfold cstr. rewrite firstn_firstn. apply scan_string_prefix.
    cbn [te tb set_te set_tb]. unfold from. cbn [fb set_te set_tb].
    specialize (Hstr eq_refl). unfold from in Hstr. lia.
Qed.

Lemma stored_writable (x : config_value) :
  stored_value x -> value_ok x = true -> writable x = true.
Proof.
  destruct x as [s|f|i]; cbn [stored_value value_ok writable]; intros Hs Hv.
  - destruct Hs as [Hn Hq]. rewrite escaped_ok_split, Hq, Hv, Hn. reflexivity.
  - destruct f as [sg q|sg|]; try discriminate.
    destruct Hs as (-> & H0 & _). apply Z.leb_le. exact H0.
  - apply andb_true_iff. split; [exact Hv|apply Z.ltb_lt; lia].
Qed.

Lemma stored_values_writable (vs : list config_value) :
  Forall stored_value vs -> forallb value_ok vs = true ->
  forallb writable vs = true.
Proof.
  induction 1 as [|x vs Hx _ IH]; [reflexivity|]. cbn [forallb]. intros H.
  apply andb_true_iff in H. destruct H as [H1 H2].
  rewrite (stored_writable x Hx H1), (IH H2). reflexivity.
Qed.

Lemma type_tokenised (p : parser) (x : config_value) (p' : parser) :
  tokenised p -> _type p = Ok (x, p') -> tokenised p'.
Proof.
  intros (Hle & _) H. apply type_ok in H. destruct H as (_ & _ & ->).
  apply get_token_tokenised; assumption.
Qed.

Lemma array_body_values (fuel : nat) :
  forall p vs p', tokenised p -> array_body fuel p = Ok (vs, p') ->
                  Forall stored_value vs.
Proof.
  induction fuel as [|fuel IH]; intros p vs p' Hp H; [discriminate|].
  rewrite array_body_eq in H.
  destruct (token_eqb (t p) TOK_ARRAY_E).
  - injection H as <- _. constructor.
  - bind_inv H. destruct x as [l p1]. bind_inv H. bind_inv H.
    destruct x0 as [ls p3]. injection H as <- _.
    pose proof (type_tokenised _ _ _ Hp E) as Hp1.
    assert (Hp2 : tokenised x).
    { destruct (token_eqb (t p1) TOK_COMMA);
        [apply (match_tokenised _ _ _ Hp1 E0)|injection E0 as <-; exact Hp1]. }
    constructor; [apply (type_stored_value _ _ _ Hp E)|apply (IH _ _ _ Hp2 E1)].
Qed.

Lemma value_parsed (f : nat) (p : parser) (vs : list config_value) (p' : parser) :
  tokenised p -> _value f p = Ok (vs, p') ->
  Forall stored_value vs /\ tokenised p'.
Proof.
  intros Hp H. rewrite value_eq in H.
  destruct (token_eqb (t p) TOK_ARRAY_B).
  - bind_inv H. pose proof (match_tokenised _ _ _ Hp E) as Hp1.
    bind_inv H. destruct x0 as [h p2].
    pose proof (array_body_values _ _ _ _ Hp1 E0) as Hv.
    destruct (array_body_sound _ _ _ _ E0) as (n & _ & -> & _).
    bind_inv H. injection H as <- <-.
    split; [exact Hv|].
    apply (match_tokenised _ _ _ (advance_tokenised n x Hp1) E1).
  - bind_inv H. destruct x as [h p1]. injection H as <- <-.
    split; [|apply (type_tokenised _ _ _ Hp E)].
    constructor; [apply (type_stored_value _ _ _ Hp E)|constructor].
Qed.

Lemma cstr_ident_token (l : list ascii) :
  ident_token l = true -> cstr l = [] \/ wf_key (cstr l) = true.
Proof.
  destruct l as [|c l]; [discriminate|]. unfold ident_token. intros H.
  apply andb_true_iff in H. destruct H as [Hs Hall].
  cbn [forallb] in Hall. apply andb_true_iff in Hall. destruct Hall as [Hc Hl].
  unfold cstr. cbn [span_len].
  destruct (negb (eqc c NUL)) eqn:En; [right|left; reflexivity].
  cbn [firstn wf_key forallb no_nul]. rewrite Hs, Hc, En. cbn [andb].
  rewrite (forallb_firstn ident_char _ l Hl). cbn [andb].
  apply span_len_all.
Qed.

Lemma dup_tok_prekey (p : parser) (k : list ascii) :
  tokenised p -> t p = TOK_IDENTIFIER -> _dup_tok p = Ok k ->
  k = [] \/ wf_key k = true.
Proof.
  intros (Hle & Hid & _) Ht H. specialize (Hid Ht).
  unfold _dup_tok in H. destruct (te p <? tb p)%nat; [discriminate|].
  injection H as <-. fold (token_text p).
  apply cstr_ident_token. exact Hid.
Qed.

Lemma section_parsed (f : nat) :
  (forall p n p', tokenised p -> _section f p = Ok (n, p') ->
                  parsed n /\ tokenised p') /\
  (forall p ns p', tokenised p -> section_body f p = Ok (ns, p') ->
                   Forall parsed ns /\ tokenised p').
Proof.
  induction f as [|f [IHs IHb]]; [split; intros; discriminate|].
  split.
  - intros p n p' Hp H. rewrite section_eq in H.
    bind_inv H. rename x into k. bind_inv H. rename x into p1.
    pose proof (match_tokenised _ _ _ Hp E0) as Hp1.
    assert (Hk : k = [] \/ wf_key k = true).
    { apply (dup_tok_prekey p k Hp); [|exact E].
      apply match_ok in E0. destruct E0 as [E0 _]. apply token_eqb_eq in E0. exact E0. }
    destruct (token_eqb (t p1) TOK_SECTION_B).
    + bind_inv H. rename x into p2. pose proof (match_tokenised _ _ _ Hp1 E1) as Hp2.
      bind_inv H. destruct x as [ns p3]. destruct (IHb _ _ _ Hp2 E2) as [Hns Hp3].
      bind_inv H. injection H as <- <-.
      split; [constructor; [assumption|constructor|assumption]|].
      apply (match_tokenised _ _ _ Hp3 E3).
    + bind_inv H. rename x into p2. pose proof (match_tokenised _ _ _ Hp1 E1) as Hp2.
      bind_inv H. destruct x as [vs p3].
      destruct (value_parsed _ _ _ _ Hp2 E2) as [Hv Hp3].
      destruct vs as [|x vs]; [discriminate|]. injection H as <- <-.
      split; [constructor; [assumption|assumption|constructor]|exact Hp3].
  - intros p ns p' Hp H. rewrite section_body_eq in H.
    destruct (token_eqb (t p) TOK_SECTION_E).
    + injection H as <- <-. split; [constructor|exact Hp].
    + bind_inv H. destruct x as [n p1]. destruct (IHs _ _ _ Hp E) as [Hn Hp1].
      bind_inv H. destruct x as [ns' p2]. destruct (IHb _ _ _ Hp1 E0) as [Hns Hp2].
      injection H as <- <-. split; [constructor; assumption|exact Hp2].
Qed.

Lemma file_parsed (f : nat) :
  forall p ns, tokenised p -> _file f p = Ok ns -> Forall parsed ns.
Proof.
  induction f as [|f IH]; intros p ns Hp H; [discriminate|].
  rewrite file_eq in H. destruct (token_eqb (t p) TOK_EOF).
  - injection H as <-. constructor.
  - bind_inv H. destruct x as [n p1].
    destruct (proj1 (section_parsed f) _ _ _ Hp E) as [Hn Hp1].
    bind_inv H. injection H as <-. constructor; [exact Hn|].
    apply (IH _ _ Hp1 E0).
Qed.

Lemma read_config_parsed (buf : list ascii) :
  Forall parsed (cf_root (read_config buf)).
Proof.
  unfold read_config.
  destruct (_file _ _) as [root|e] eqn:E.
  - apply file_parsed in E.
    + destruct root; [constructor|exact E].
    + apply get_token_tokenised. apply Nat.le_0_l.
  - destruct e; constructor.
Qed.

(** ** Floats read from their six decimals *)

Lemma rev_digits_length (fuel : nat) :
  forall y j, 0 <= y < 10 ^ Z.of_nat j -> (1 <= j)%nat ->
              (List.length (rev_digits fuel y) <= j)%nat.
Proof.
  induction fuel as [|fuel IH]; intros y j Hy Hj; [cbn [rev_digits List.length]; lia|].
  cbn [rev_digits List.length]. destruct (y <? 10) eqn:E.
  - cbn [List.length]. lia.
  - apply Z.ltb_ge in E.
    destruct j as [|[|j]]; [lia|change (10 ^ Z.of_nat 1) with 10 in Hy; lia|].
    assert (Hq : 0 <= y / 10 < 10 ^ Z.of_nat (S j)).
    { split; [apply Z.div_pos; lia|].
      apply Z.div_lt_upper_bound; [lia|].
      rewrite (Nat2Z.inj_succ (S j)), Z.pow_succ_r in Hy by lia. lia. }
    pose proof (IH (y / 10) (S j) Hq ltac:(lia)). lia.
Qed.

Lemma print_uint_length (y : Z) (j : nat) :
  0 <= y < 10 ^ Z.of_nat j -> (1 <= j)%nat -> (List.length (print_uint y) <= j)%nat.
Proof.
  intros Hy Hj. unfold print_uint. rewrite length_rev.
  apply rev_digits_length; assumption.
Qed.

Lemma digits_acc_zeros (z : nat) (r : list ascii) :
  forall a, digits_acc a (repeat "0"%char z ++ r)
            = digits_acc (a * 10 ^ Z.of_nat z) r.
Proof.
  induction z as [|z IH]; intros a.
  - cbn [repeat app]. rewrite Z.pow_0_r, Z.mul_1_r. reflexivity.
  - cbn [repeat app digits_acc]. change (isdigit "0") with true. cbn iota.
    change (digit_val "0") with 0. rewrite IH.
    rewrite Nat2Z.inj_succ, Z.pow_succ_r by lia. f_equal. lia.
Qed.

Lemma digits_acc_print_uint (a y : Z) :
  0 <= y ->
  digits_acc a (print_uint y)
  = a * 10 ^ Z.of_nat (List.length (print_uint y)) + y.
Proof.
  intros Hy. unfold print_uint. rewrite length_rev.
  apply digits_acc_rev_digits. split; [exact Hy|apply print_uint_fuel; exact Hy].
Qed.

(** Reading the text of a float that is not negative: the [double]
    nearest to its millionths. *)
Lemma strtod_print_f (q : Q) :
  strtod (print_f (F_finite false q))
  = match round_double (millionths q) (10 ^ 6) with
    | Some D => F_finite false D
    | None => F_inf false
    end.
Proof.
  pose proof (millionths_nonneg q) as Hk. set (k := millionths q) in *.
  assert (Hi : 0 <= k / 10 ^ 6) by (apply Z.div_pos; lia).
  assert (Hf : 0 <= k mod 10 ^ 6 < 10 ^ Z.of_nat 6)
    by (apply Z.mod_pos_bound; reflexivity).
  destruct (print_uint_digits (k / 10 ^ 6) Hi) as [HI HIne].
  destruct (print_uint_digits (k mod 10 ^ 6) ltac:(lia)) as [HF _].
  pose proof (print_uint_length (k mod 10 ^ 6) 6 Hf ltac:(lia)) as HL.
  cbn [print_f app]. fold k.
  set (ds := print_uint (k / 10 ^ 6)) in *.
  set (frac := print_uint (k mod 10 ^ 6)) in *.
  set (F := repeat "0"%char (6 - List.length frac) ++ frac).
  assert (HFd : forallb isdigit F = true).
  { unfold F. rewrite forallb_app, forallb_repeat_zero, HF. reflexivity. }
  assert (HFl : List.length F = 6%nat).
  { unfold F. rewrite length_app, repeat_length. lia. }
  unfold strtod.
  rewrite <- (app_nil_r (ds ++ "."%char :: F)).
  rewrite (numeral_written ds F [] HI HFd Logic.I).
  assert (Hm : digits_acc 0 (ds ++ F) = k).
  { rewrite (digits_acc_app ds F 0 HI). unfold ds at 1.
    rewrite (digits_acc_print_uint 0 (k / 10 ^ 6) Hi).
    rewrite Z.mul_0_l, Z.add_0_l. unfold F.
    rewrite digits_acc_zeros. unfold frac at 2.
    rewrite (digits_acc_print_uint _ (k mod 10 ^ 6) ltac:(lia)). fold frac.
    rewrite <- Z.mul_assoc, <- Z.pow_add_r by lia.
    rewrite <- Nat2Z.inj_add.
    replace (6 - List.length frac + List.length frac)%nat with 6%nat by lia.
    change (10 ^ Z.of_nat 6) with (10 ^ 6).
    pose proof (Z.div_mod k (10 ^ 6) ltac:(lia)). lia. }
  rewrite HFl.
  destruct (ds ++ F) as [|c l] eqn:E.
  { destruct ds; [contradiction|discriminate]. }
  rewrite Hm. reflexivity.
Qed.

(** The float read back for a binary32 number that is not negative is
    finite and within a millionth of it. *)
Lemma reread_float_close (q : Q) :
  0 <= Qnum q -> representable 24 (-149) q -> (q < 2 ^ 128)%Q ->
  within_precision (F_finite false q) (reread_float (F_finite false q)).
Proof.
  intros H0 Hrep Hmax.
  destruct (reread_close q (Qnum_nonneg_le q H0) Hrep Hmax) as (D & f' & HD & Hf & Hb).
  unfold reread_float. rewrite strtod_print_f, HD. cbn [to_float]. rewrite Hf.
  exact Hb.
Qed.

Lemma reread_value_same (x : config_value) :
  stored_value x -> value_ok x = true -> same_value x (reread_value x).
Proof.
  destruct x as [s|f|i]; intros Hf Hw; cbn [reread_value]; try constructor.
  destruct f as [sg q| |]; try discriminate.
  destruct Hf as (-> & H0 & Hrep & Hmax).
  apply reread_float_close; assumption.
Qed.

Lemma reread_node_same : forall n,
  parsed n -> values_ok n = true -> same_node n (reread_node n).
Proof.
  induction n as [k ch vs IHch] using config_node_induction.
  intros Hp Hv. inversion Hp as [k' ch' vs' _ Hfl Hpch]; subst.
  cbn [values_ok] in Hv. apply andb_true_iff in Hv. destruct Hv as [Hvs Hvch].
  cbn [reread_node]. constructor.
  - clear Hp. induction IHch as [|c ch Hc Hcs IH]; [constructor|].
    cbn [forallb] in Hvch. apply andb_true_iff in Hvch. destruct Hvch as [H1 H2].
    inversion Hpch; subst. cbn [map]. constructor; [apply Hc; assumption|].
    apply IH; assumption.
  - clear Hp IHch. induction vs as [|x vs IH]; [constructor|].
    cbn [forallb] in Hvs. apply andb_true_iff in Hvs. destruct Hvs as [H1 H2].
    inversion Hfl; subst. cbn [map].
    constructor; [apply reread_value_same; assumption|apply IH; assumption].
Qed.

Lemma parsed_writable : forall n,
  parsed n -> shaped n -> keys_ok n = true -> values_ok n = true ->
  writable_node n = true.
Proof.
  induction n as [k ch vs IHch] using config_node_induction.
  intros Hp Hs Hk Hv. inversion Hp as [k' ch' vs' Hkey Hst Hpch]; subst.
  cbn [values_ok] in Hv. apply andb_true_iff in Hv. destruct Hv as [Hvs Hvch].
  cbn [keys_ok] in Hk. apply andb_true_iff in Hk. destruct Hk as [Hk Hkch].
  assert (Hwk : wf_key k = true).
  { destruct Hkey as [->|Hkey]; [discriminate|exact Hkey]. }
  unfold writable_node. cbn [tree_ok]. fold writable_node.
  rewrite Hwk. cbn [andb].
  inversion Hs as [k' ch' Hsch|k' vs' Hne]; subst.
  - apply forallb_forall. intros c Hc.
    rewrite Forall_forall in IHch, Hpch, Hsch.
    rewrite forallb_forall in Hvch, Hkch. auto.
  - destruct vs as [|x vs]; [contradiction|].
    rewrite (stored_values_writable _ Hst Hvs). reflexivity.
Qed.

(** C1, as stated, fails on a string that ends in a backslash. A literal
    that the end of the file cuts short after an escaped quote is stored
    without that quote; written back between quotes, its last backslash
    escapes the closing quote, and the second parse reads another string. *)
Lemma round_trip_breaks_on_trailing_backslash :
  let buf := str "a=" ++ [dquote; "a"%char; "b"%char; backslash; dquote] in
  let doc := cf_root (read_config buf) in
  ret (read_config buf) = 1 /\
  doc = [mk_node (str "a") [] [CFG_STRING ["a"%char; "b"%char; backslash]]] /\
  read_config (write_config doc)
  = mk_outcome 1
      [mk_node (str "a") [] [CFG_STRING ["a"%char; "b"%char; backslash; dquote]]]
      None /\
  cf_root (read_config (write_config doc)) <> doc.
Proof.
  cbv zeta. repeat split; try (vm_compute; reflexivity).
  vm_compute. discriminate.
Qed.

(** A negative integer, which only the wrap-around of a large literal
    produces, is written with a sign the tokeniser does not read. *)
Lemma round_trip_breaks_on_negative_integer :
  let doc := cf_root (read_config (str "a = 4294967295")) in
  doc = [mk_node (str "a") [] [CFG_INT (-1)]] /\
  read_config (write_config doc) = mk_outcome 0 [] (Some (expected_a_value 1)).
Proof. cbv zeta. split; vm_compute; reflexivity. Qed.

(** An empty key, which a NUL byte at the head of an identifier token
    produces, is written as no byte at all, and the second parse meets
    the equals sign where it expects the key. *)
Lemma round_trip_breaks_on_empty_key :
  let buf := NUL :: str "=1" in
  let doc := cf_root (read_config buf) in
  ret (read_config buf) = 1 /\
  doc = [mk_node [] [] [CFG_INT 1]] /\
  read_config (write_config doc) = mk_outcome 0 [] (Some (unexpected_token 1)).
Proof. cbv zeta. repeat split; vm_compute; reflexivity. Qed.

(** An infinity, which a numeral past the largest [float] produces, is
    written as the identifier [inf]. *)
Lemma round_trip_breaks_on_infinite_float :
  let buf := str "a = 1.0e39 { }" in
  let doc := cf_root (read_config buf) in
  ret (read_config buf) = 1 /\
  doc = [mk_node (str "a") [] [CFG_FLOAT (F_inf false)];
         mk_node (str "e39") [] []] /\
  read_config (write_config doc) = mk_outcome 0 [] (Some (expected_a_value 1)).
Proof. cbv zeta. repeat split; vm_compute; reflexivity. Qed.

(** Floats come back from their six decimals: the binary32 numbers read
    from [0.25], [1.5] and [0.1] exactly, the one read from [0.0000001]
    as zero. *)
Lemma round_trip_of_floats :
  let buf := str "a = 0.25 b = [1.5, 2] c = 0.1 d = 0.0000001" in
  let doc := cf_root (read_config buf) in
  doc = [mk_node (str "a") [] [CFG_FLOAT (F_finite false (1 # 4))];
         mk_node (str "b") [] [CFG_FLOAT (F_finite false (3 # 2)); CFG_INT 2];
         mk_node (str "c") [] [CFG_FLOAT (F_finite false (13421773 # 134217728))];
         mk_node (str "d") [] [CFG_FLOAT (F_finite false (14073749 # 140737488355328))]] /\
  cf_root (read_config (write_config doc))
  = [mk_node (str "a") [] [CFG_FLOAT (F_finite false (1 # 4))];
     mk_node (str "b") [] [CFG_FLOAT (F_finite false (3 # 2)); CFG_INT 2];
     mk_node (str "c") [] [CFG_FLOAT (F_finite false (13421773 # 134217728))];
     mk_node (str "d") [] [CFG_FLOAT (F_finite false 0)]].
Proof. cbv zeta. split; vm_compute; reflexivity. Qed.

(** C1, amended. Take a document that [read_config] produced with
    success, without an empty key, whose integers are not negative, whose
    floats are finite, and whose strings do not end in a backslash that
    escapes what follows. Writing it with [write_config] and reading the
    text back with [read_config] succeeds and gives a document of the same
    tree shape, with the same keys, the same integers and strings, and
    each float read from its six decimals, so within a millionth of the
    float written. *)
Theorem write_then_read_round_trip (buf : list ascii) :
  ret (read_config buf) = 1 ->
  forallb keys_ok (cf_root (read_config buf)) = true ->
  forallb values_ok (cf_root (read_config buf)) = true ->
  read_config (write_config (cf_root (read_config buf)))
  = mk_outcome 1 (map reread_node (cf_root (read_config buf))) None /\
  Forall2 same_node (cf_root (read_config buf))
    (map reread_node (cf_root (read_config buf))).
Proof.
  intros Hret Hkey Hval.
  pose proof (read_config_parsed buf) as Hp.
  pose proof (read_config_shaped buf) as Hs.
  set (doc := cf_root (read_config buf)) in *.
  split.
  - apply round_trip_writable.
    + intros E. unfold doc, read_config in Hret, E.
      destruct (_file _ _) as [[|n root]|[]]; simpl in *; discriminate.
    + apply forallb_forall. intros n Hn.
      rewrite Forall_forall in Hp, Hs. rewrite forallb_forall in Hkey, Hval.
      apply parsed_writable; auto.
  - clear Hret Hs Hkey. induction doc as [|n doc IH]; [constructor|].
    cbn [forallb] in Hval. apply andb_true_iff in Hval. destruct Hval as [H1 H2].
    inversion Hp; subst. cbn [map].
    constructor; [apply reread_node_same; assumption|apply IH; assumption].
Qed.

Lemma write_then_read_round_trip_witness :
  let buf := str "a { b = [1, 2 3] c { } } d = " ++ dquote :: str "x y" ++ [dquote]
             ++ str " k" ++ NUL :: str "z = 0.25 f = [1.5, 0.0000001]" in
  read_config (write_config (cf_root (read_config buf)))
  = mk_outcome 1 (map reread_node (cf_root (read_config buf))) None /\
  Forall2 same_node (cf_root (read_config buf))
    (map reread_node (cf_root (read_config buf))).
Proof.
  cbv zeta. apply write_then_read_round_trip; vm_compute; reflexivity.
Defined.


(** * Further properties of the configuration engine *)

(** ** Termination and bounds *)

(** *** Where [_type] can leave the file *)

Lemma last_forallb (f : ascii -> bool) (l : list ascii) :
  forall n, (n < List.length l)%nat -> forallb f (skipn n l) = true ->
            f (last l NUL) = true.
Proof.
  induction l as [|c l IH]; intros n Hn H; [cbn [List.length] in Hn; lia|].
  destruct l as [|c' l].
  - destruct n as [|n]; [|cbn [List.length] in Hn; lia].
    cbn [skipn forallb] in H. apply andb_true_iff in H. apply H.
  - change (last (c :: c' :: l) NUL) with (last (c' :: l) NUL).
    destruct n as [|n].
    + cbn [skipn] in H. apply (IH 0%nat); [cbn [List.length]; lia|].
      cbn [skipn]. change (forallb f (c :: c' :: l)) with (f c && forallb f (c' :: l)) in H.
      apply andb_true_iff in H. apply H.
    + apply (IH n); [cbn [List.length] in *; lia|exact H].
Qed.

Lemma last_deref (l : list ascii) :
  l <> [] -> last l NUL = nth (List.length l - 1) l NUL.
Proof.
  induction l as [|c l IH]; intros Hne; [congruence|].
  destruct l as [|c' l]; [reflexivity|].
  change (last (c :: c' :: l) NUL) with (last (c' :: l) NUL).
  rewrite IH by discriminate. cbn [List.length].
  replace (S (S (List.length l)) - 1)%nat with (S (S (List.length l) - 1))%nat by lia.
  reflexivity.
Qed.

Lemma digits_number_chars (l : list ascii) :
  forallb isdigit l = true -> forallb number_char l = true.
Proof.
  induction l as [|c l IH]; [reflexivity|]. cbn [forallb]. intros H.
  apply andb_true_iff in H. destruct H as [H1 H2].
  unfold number_char at 1. rewrite H1, (IH H2). reflexivity.
Qed.

Lemma exponent_past_chars (l : list ascii) :
  exponent_past l = true -> forallb number_char l = true.
Proof.
  unfold exponent_past. destruct l as [|c r]; [reflexivity|].
  destruct (eqc c "e" || eqc c "E") eqn:Ee; [|discriminate].
  assert (Hc : number_char c = true).
  { unfold number_char. apply orb_true_iff in Ee. destruct Ee as [-> | ->];
      rewrite ?orb_true_r; reflexivity. }
  cbn [forallb]. rewrite Hc. cbn [andb].
  destruct r as [|s r']; [reflexivity|].
  destruct (eqc s "-" || eqc s "+") eqn:Es.
  - intros H. cbn [forallb]. rewrite (digits_number_chars _ H).
    unfold number_char. apply orb_true_iff in Es. destruct Es as [-> | ->];
      rewrite ?orb_true_r; reflexivity.
  - apply digits_number_chars.
Qed.

Lemma forallb_app_intro (f : ascii -> bool) (a b : list ascii) :
  forallb f a = true -> forallb f b = true -> forallb f (a ++ b) = true.
Proof. intros Ha Hb. rewrite forallb_app, Ha, Hb. reflexivity. Qed.

Lemma strtod_past_chars (l : list ascii) :
  strtod_past l = true -> forallb number_char l = true.
Proof.
  unfold strtod_past, numeral.
  pose proof (span_len_all isdigit l) as Hip.
  pose proof (firstn_skipn (span_len isdigit l) l) as Hl.
  set (ni := span_len isdigit l) in *.
  destruct (skipn ni l) as [|c r] eqn:Er.
  - rewrite app_nil_r in Hl. rewrite Hl in Hip. intros _.
    apply digits_number_chars. exact Hip.
  - destruct (eqc c ".") eqn:Ec.
    + unfold eqc in Ec. apply Ascii.eqb_eq in Ec. subst c.
      pose proof (span_len_all isdigit r) as Hfp.
      pose proof (firstn_skipn (span_len isdigit r) r) as Hr.
      set (nf := span_len isdigit r) in *.
      intros H. rewrite <- Hl.
      apply forallb_app_intro; [apply digits_number_chars; exact Hip|].
      cbn [forallb]. change (number_char ".") with true. cbn [andb].
      rewrite <- Hr.
      apply forallb_app_intro; [apply digits_number_chars; exact Hfp|].
      destruct (firstn ni l ++ firstn nf r).
      * destruct (skipn nf r); [reflexivity|discriminate].
      * apply exponent_past_chars. exact H.
    + rewrite app_nil_r. intros H. rewrite <- Hl.
      apply forallb_app_intro; [apply digits_number_chars; exact Hip|].
      destruct (firstn ni l); [discriminate|].
      apply exponent_past_chars. exact H.
Qed.

Lemma hazard_risky (q : parser) :
  (te q <= fe q)%nat -> hazard (_get_token q) = true -> risky_end (fb q) = true.
Proof.
  intros Hle Hz.
  destruct (get_token_spec q Hle) as (Hfb & Hb & He & _ & Hne).
  pose proof (get_token_string_shape q Hle) as Hs.
  cbv zeta in *. set (p := _get_token q) in *.
  unfold hazard in Hz.
  assert (Hlast : forall f, forallb f (from p (tb p)) = true -> (tb p < te p)%nat ->
                            f (last (fb q) NUL) = true).
  { intros f Hf Hlt. apply (last_forallb f (fb q) (tb p)).
    - fold (fe q). lia.
    - unfold from in Hf. rewrite Hfb in Hf. exact Hf. }
  assert (Hpage : unmapped_end p = (Z.of_nat (List.length (fb q)) mod PAGE_SIZE =? 0)).
  { unfold unmapped_end, fe. rewrite Hfb. reflexivity. }
  unfold risky_end.
  destruct (fb q) as [|c0 l0] eqn:Ebuf.
  { unfold fe in He. rewrite Ebuf in He. cbn [List.length] in He.
    destruct (t p) eqn:Et; try discriminate;
      assert (Hlt : (tb p < te p)%nat) by (apply Hne; discriminate); lia. }
  rewrite <- Ebuf in *. clear Ebuf.
  destruct (t p) eqn:Et; try discriminate.
  - apply andb_true_iff in Hz. destruct Hz as [H1 H2].
    rewrite <- Hpage, H2. cbn [andb].
    rewrite (Hlast number_char); [apply orb_true_r| |apply Hne; discriminate].
    apply digits_number_chars. exact H1.
  - apply andb_true_iff in Hz. destruct Hz as [H1 H2].
    rewrite <- Hpage, H2. cbn [andb].
    rewrite (Hlast number_char); [apply orb_true_r| |apply Hne; discriminate].
    apply strtod_past_chars. exact H1.
  - apply Nat.ltb_lt in Hz.
    assert (Hlt : (tb p < te p)%nat) by (apply Hne; discriminate).
    destruct (Hs eq_refl) as [Hd [Hfe|H2]]; [|lia].
    rewrite last_deref.
    + fold (fe q). replace (fe q - 1)%nat with (tb p) by lia.
      unfold deref in Hd. rewrite Hd. reflexivity.
    + intros E. unfold fe in *. rewrite E in *. cbn [List.length] in *. lia.
Qed.

Lemma safe_bind {A B : Type} (buf : list ascii) (P : A -> Prop) (Q : B -> Prop)
      (r : result A) (k : A -> result B) :
  safe buf P r -> (forall a, P a -> safe buf Q (k a)) -> safe buf Q (bind r k).
Proof.
  intros Hr Hk. destruct r as [a|e]; cbn [bind]; [apply Hk; exact Hr|exact Hr].
Qed.

Lemma get_token_guarded (buf : list ascii) (q : parser) :
  fb q = buf -> (te q <= fe q)%nat -> guarded buf (_get_token q).
Proof.
  intros Hb Hle.
  destruct (get_token_spec q Hle) as (Hfb & Hbe & He & _ & _). cbv zeta in *.
  unfold guarded. split; [congruence|]. split.
  - unfold fe. rewrite Hfb. fold (fe q). lia.
  - intros Hz. rewrite <- Hb. apply hazard_risky; assumption.
Qed.

Lemma match_safe (buf : list ascii) (p : parser) (ty : token) :
  fb p = buf -> (te p <= fe p)%nat -> safe buf (guarded buf) (match_ p ty).
Proof.
  intros Hb Hle. destruct (match_ p ty) as [p'|e] eqn:E.
  - apply match_ok in E. destruct E as [_ ->]. cbn [safe].
    apply get_token_guarded; assumption.
  - unfold match_ in E. destruct (_match_aux p ty); [discriminate|].
    injection E as <-. exact I.
Qed.

Lemma match_guarded (buf : list ascii) (p : parser) (ty : token) :
  guarded buf p -> safe buf (guarded buf) (match_ p ty).
Proof. intros (Hb & Hle & _). apply match_safe; [exact Hb|lia]. Qed.

Lemma dup_tok_safe (buf : list ascii) (p : parser) :
  guarded buf p -> safe buf (fun _ => True) (_dup_tok p).
Proof.
  intros (_ & Hle & _). unfold _dup_tok.
  destruct (te p <? tb p)%nat eqn:E; [apply Nat.ltb_lt in E; lia|exact I].
Qed.

Lemma type_safe (buf : list ascii) (p : parser) :
  guarded buf p -> safe buf (fun x => guarded buf (snd x)) (_type p).
Proof.
  intros (Hb & Hle & Hz). unfold _type. unfold hazard in Hz.
  destruct (t p) eqn:Et; try exact I.
  - destruct (strtol_past (from p (tb p)) && unmapped_end p);
      [apply Hz; reflexivity|].
    apply (safe_bind buf (guarded buf)); [apply match_safe; [exact Hb|lia]|].
    intros p' Hp'. exact Hp'.
  - destruct (strtod_past (from p (tb p)) && unmapped_end p);
      [apply Hz; reflexivity|].
    apply (safe_bind buf (guarded buf)); [apply match_safe; [exact Hb|lia]|].
    intros p' Hp'. exact Hp'.
  - destruct (te p =? 0)%nat eqn:E0.
    { apply Nat.eqb_eq in E0. apply Hz. apply Nat.ltb_lt. lia. }
    apply Nat.eqb_neq in E0.
    destruct (te p - tb p <? 2)%nat eqn:E2.
    + apply Nat.ltb_lt in E2. unfold _dup_tok. cbn [te tb set_te set_tb].
      destruct (pred (te p) <? S (tb p))%nat eqn:E3;
        [apply Hz; reflexivity|apply Nat.ltb_ge in E3; lia].
    + apply Nat.ltb_ge in E2.
      apply (safe_bind buf (fun _ => True)).
      * unfold _dup_tok. cbn [te tb set_te set_tb].
        destruct (pred (te p) <? S (tb p))%nat eqn:E3;
          [apply Nat.ltb_lt in E3; lia|exact I].
      * intros s _.
        apply (safe_bind buf (guarded buf)); [|intros p' Hp'; exact Hp'].
        apply match_safe; [exact Hb|]. cbn [te set_te set_tb]. unfold fe in *.
        cbn [fb set_te set_tb]. lia.
Qed.

Lemma array_body_safe (buf : list ascii) (fuel : nat) :
  forall p, guarded buf p ->
            safe buf (fun x => guarded buf (snd x)) (array_body fuel p).
Proof.
  induction fuel as [|fuel IH]; intros p Hp; [exact I|].
  rewrite array_body_eq. destruct (token_eqb (t p) TOK_ARRAY_E); [exact Hp|].
  apply (safe_bind buf (fun x => guarded buf (snd x))); [apply type_safe; exact Hp|].
  intros [l p1] Hp1. cbn [snd] in Hp1.
  apply (safe_bind buf (guarded buf)).
  { destruct (token_eqb (t p1) TOK_COMMA); [apply match_guarded|]; exact Hp1. }
  intros p2 Hp2.
  apply (safe_bind buf (fun x => guarded buf (snd x))); [apply IH; exact Hp2|].
  intros [ls p3] Hp3. exact Hp3.
Qed.

Lemma value_safe (buf : list ascii) (fuel : nat) (p : parser) :
  guarded buf p -> safe buf (fun x => guarded buf (snd x)) (_value fuel p).
Proof.
  intros Hp. rewrite value_eq. destruct (token_eqb (t p) TOK_ARRAY_B).
  - apply (safe_bind buf (guarded buf)); [apply match_guarded; exact Hp|].
    intros p1 Hp1.
    apply (safe_bind buf (fun x => guarded buf (snd x)));
      [apply array_body_safe; exact Hp1|].
    intros [h p2] Hp2. cbn [snd] in Hp2.
    apply (safe_bind buf (guarded buf)); [apply match_guarded; exact Hp2|].
    intros p3 Hp3. exact Hp3.
  - apply (safe_bind buf (fun x => guarded buf (snd x))); [apply type_safe; exact Hp|].
    intros [h p1] Hp1. exact Hp1.
Qed.

Lemma section_safe (buf : list ascii) (fuel : nat) :
  (forall p, guarded buf p ->
             safe buf (fun x => guarded buf (snd x)) (_section fuel p)) /\
  (forall p, guarded buf p ->
             safe buf (fun x => guarded buf (snd x)) (section_body fuel p)).
Proof.
  induction fuel as [|fuel [IHs IHb]]; [split; intros; exact I|].
  split; intros p Hp.
  - rewrite section_eq.
    apply (safe_bind buf (fun _ => True)); [apply dup_tok_safe; exact Hp|].
    intros k _.
    apply (safe_bind buf (guarded buf)); [apply match_guarded; exact Hp|].
    intros p1 Hp1. destruct (token_eqb (t p1) TOK_SECTION_B).
    + apply (safe_bind buf (guarded buf)); [apply match_guarded; exact Hp1|].
      intros p2 Hp2.
      apply (safe_bind buf (fun x => guarded buf (snd x))); [apply IHb; exact Hp2|].
      intros [ns p3] Hp3. cbn [snd] in Hp3.
      apply (safe_bind buf (guarded buf)); [apply match_guarded; exact Hp3|].
      intros p4 Hp4. exact Hp4.
    + apply (safe_bind buf (guarded buf)); [apply match_guarded; exact Hp1|].
      intros p2 Hp2.
      apply (safe_bind buf (fun x => guarded buf (snd x)));
        [apply value_safe; exact Hp2|].
      intros [vs p3] Hp3. destruct vs; [exact I|exact Hp3].
  - rewrite section_body_eq. destruct (token_eqb (t p) TOK_SECTION_E); [exact Hp|].
    apply (safe_bind buf (fun x => guarded buf (snd x))); [apply IHs; exact Hp|].
    intros [n p1] Hp1. cbn [snd] in Hp1.
    apply (safe_bind buf (fun x => guarded buf (snd x))); [apply IHb; exact Hp1|].
    intros [ns p2] Hp2. exact Hp2.
Qed.

Lemma file_safe (buf : list ascii) (fuel : nat) :
  forall p, guarded buf p -> safe buf (fun _ => True) (_file fuel p).
Proof.
  induction fuel as [|fuel IH]; intros p Hp; [exact I|].
  rewrite file_eq. destruct (token_eqb (t p) TOK_EOF); [exact I|].
  apply (safe_bind buf (fun x => guarded buf (snd x)));
    [apply (proj1 (section_safe buf fuel)); exact Hp|].
  intros [n p1] Hp1. cbn [snd] in Hp1.
  apply (safe_bind buf (fun _ => True)); [apply IH; exact Hp1|].
  intros ns _. exact I.
Qed.

Lemma read_config_safe (buf : list ascii) :
  logged (read_config buf) = Some undefined_behaviour -> risky_end buf = true.
Proof.
  unfold read_config.
  pose proof (file_safe buf (parse_fuel buf) (_get_token (mk_parser buf TOK_EOF 0 0 1)))
    as H.
  destruct (_file _ _) as [[|n root]|e]; cbn [logged]; try discriminate.
  destruct e; cbn [logged]; try discriminate.
  intros _. apply H. apply get_token_guarded; [reflexivity|apply Nat.le_0_l].
Qed.

(** X1. The parser terminates on every file, and leaves the file only at
    its end: each round of the loops of [_file], [_section] and [_value]
    consumes a token, so the rounds [read_config] starts with, two for each
    byte and two more, are never used up; and [_type] runs into undefined
    behaviour only in a file whose last byte is a double quote, or that
    ends on a page boundary in a digit, a dot, [e], [E] or a sign. On every
    other file [read_config] returns. *)
Theorem read_config_terminates (buf : list ascii) :
  logged (read_config buf) <> Some out_of_fuel /\
  (logged (read_config buf) = Some undefined_behaviour -> risky_end buf = true).
Proof.
  split; [|apply read_config_safe].
  pose proof (parse_fuel_enough buf) as H. unfold finished in H.
  unfold read_config.
  destruct (_file _ _) as [[|n root]|e]; cbn [logged]; try discriminate.
  destruct e; cbn [logged]; try discriminate.
  exfalso. apply H. reflexivity.
Qed.

Lemma read_config_terminates_witness :
  let buf := str "a = " ++ [dquote] in
  logged (read_config buf) = Some undefined_behaviour /\ risky_end buf = true.
Proof.
  cbv zeta. split; [reflexivity|].
  apply (proj2 (read_config_terminates (str "a = " ++ [dquote]))). reflexivity.
Defined.

(** X2. [_get_token] never leaves the file and never moves backwards: the
    new token lies between the old [te] and [fe], the end of the file is
    reported only with [te] at [fe], and every other token holds at least
    one byte. *)
Theorem get_token_within_file (p : parser) :
  (te p <= fe p)%nat ->
  fb (_get_token p) = fb p /\
  (te p <= tb (_get_token p))%nat /\
  (tb (_get_token p) <= te (_get_token p))%nat /\
  (te (_get_token p) <= fe p)%nat /\
  (t (_get_token p) = TOK_EOF -> te (_get_token p) = fe p) /\
  (t (_get_token p) <> TOK_EOF -> (tb (_get_token p) < te (_get_token p))%nat).
Proof.
  intros H. destruct (get_token_spec p H) as (H1 & [H2 H3] & H4 & H5 & H6).
  repeat split; assumption.
Qed.

Lemma get_token_within_file_witness :
  let p := mk_parser (str "ab = 1") TOK_EOF 0 2 1 in
  fb (_get_token p) = fb p /\
  (te p <= tb (_get_token p))%nat /\
  (tb (_get_token p) <= te (_get_token p))%nat /\
  (te (_get_token p) <= fe p)%nat /\
  (t (_get_token p) = TOK_EOF -> te (_get_token p) = fe p) /\
  (t (_get_token p) <> TOK_EOF -> (tb (_get_token p) < te (_get_token p))%nat).
Proof.
  cbv zeta. apply get_token_within_file. apply Nat.leb_le. reflexivity.
Defined.

(** ** Keys *)

Lemma reachable_keyed (cn : list config_node) (n : config_node) :
  reachable cn n -> Forall keyed cn -> keyed n.
Proof.
  induction 1 as [cn n Hin|cn m n Hin Hr IH]; intros Hall.
  - rewrite Forall_forall in Hall. exact (Hall n Hin).
  - apply IH. rewrite Forall_forall in Hall.
    specialize (Hall m Hin). inversion Hall; subst. assumption.
Qed.

(** X3. In the document parsed from a file without NUL bytes every key is
    an identifier: not empty, free of white space, [#] and [=], and not
    starting with a digit, a dot, a quote, a comma, a brace or a
    bracket. *)
Theorem parsed_keys_are_identifiers (buf : list ascii) (n : config_node) :
  no_nul buf = true ->
  reachable (cf_root (read_config buf)) n ->
  key n <> [] /\
  forallb ident_char (key n) = true /\
  match key n with c :: _ => ident_start c = true | [] => False end.
Proof.
  intros Hnul Hr.
  pose proof (reachable_keyed _ _ Hr (read_config_keyed buf Hnul)) as Hk.
  inversion Hk as [k ch vs Hkey _]; subst. cbn [key].
  unfold wf_key in Hkey. destruct k as [|c k]; [discriminate|].
  apply andb_true_iff in Hkey. destruct Hkey as [Hkey _].
  apply andb_true_iff in Hkey. destruct Hkey as [Hst Hall].
  split; [discriminate|]. split; assumption.
Qed.

Lemma parsed_keys_are_identifiers_witness :
  let n := mk_node (str "b{x") [] [CFG_INT 1] in
  key n <> [] /\
  forallb ident_char (key n) = true /\
  match key n with c :: _ => ident_start c = true | [] => False end.
Proof.
  cbv zeta.
  apply (parsed_keys_are_identifiers (str "a { b{x = 1 }")).
  - reflexivity.
  - apply reach_child with (m := mk_node (str "a") [mk_node (str "b{x") [] [CFG_INT 1]] []).
    + vm_compute. left. reflexivity.
    + apply reach_sibling. left. reflexivity.
Defined.

(** ** Line numbers *)

(** X4. White space before a binding whose value is missing is counted
    line by line: the error names line one plus the number of newlines
    skipped, whatever mix of blanks, tabs and newlines comes first. *)
Theorem missing_value_line_after_white_space (ws : list ascii) :
  forallb isspace ws = true ->
  read_config (ws ++ str "a = ")
  = mk_outcome 0 [] (Some (expected_a_value (1 + newlines (List.length ws) ws))).
Proof.
  intros Hws. unfold read_config.
  set (buf := ws ++ str "a = ").
  set (q := mk_parser buf TOK_EOF 0 0 1).
  assert (Hq : ahead q (ws ++ str "a" ++ str " = ")).
  { split; [apply Nat.le_0_l|reflexivity]. }
  pose proof (get_token_ident q ws (str "a") (str " = ") Hq Hws eq_refl eq_refl) as Hg1.
  cbn [te line fb q] in Hg1. cbn [Nat.add] in Hg1.
  set (ln := 1 + newlines (List.length ws) ws) in *.
  set (p1 := _get_token q) in *.
  assert (Hq1 : ahead p1 ([" "%char] ++ "="%char :: [" "%char])).
  { rewrite Hg1.
    replace (List.length ws + List.length (str "a"))%nat
      with (te q + List.length (ws ++ str "a"))%nat
      by (cbn [te q]; rewrite length_app; reflexivity).
    apply (ahead_mk q _ _ _ _ (ws ++ str "a")); [|reflexivity].
    rewrite <- app_assoc. exact Hq. }
  pose proof (get_token_single p1 [" "%char] "=" [" "%char] TOK_EQ Hq1 eq_refl eq_refl)
    as Hg2.
  set (p2 := _get_token p1) in *.
  assert (Hq2 : ahead p2 ([" "%char] ++ [])).
  { rewrite Hg2.
    replace (S (te p1 + List.length [" "%char]))
      with (te p1 + List.length [" "%char; "="%char])%nat by (cbn [List.length]; lia).
    apply (ahead_mk p1 _ _ _ _ [" "%char; "="%char]); [exact Hq1|reflexivity]. }
  destruct Hq2 as [Hle2 Hfrom2].
  pose proof (get_token_view p2 [" "%char] [] Hle2 Hfrom2 eq_refl I) as Hg3.
  cbv zeta in Hg3.
  assert (Hl1 : line p1 = ln) by (rewrite Hg1; reflexivity).
  assert (Hn : newlines (List.length [" "%char]) [" "%char] = 0) by reflexivity.
  assert (Hl2 : line p2 = ln).
  { rewrite Hg2. cbn [line]. rewrite Hn, Hl1. lia. }
  assert (Hf : exists f, parse_fuel buf = S (S f)).
  { unfold parse_fuel. exists (2 * List.length buf)%nat. lia. }
  destruct Hf as [f ->].
  rewrite file_eq. rewrite Hg1 at 1. cbn [t token_eqb].
  rewrite section_eq.
  assert (Hdup : _dup_tok p1 = Ok (str "a")).
  { rewrite Hg1.
    replace (List.length ws) with (te q + List.length ws)%nat by reflexivity.
    apply (dup_tok_written q _ _ ws (str "a") _ Hq). reflexivity. }
  rewrite Hdup. cbn [bind].
  unfold match_ at 1, _match_aux at 1. rewrite Hg1 at 1. cbn [t token_eqb bind].
  fold p2. rewrite Hg2 at 1. cbn [t token_eqb].
  unfold match_ at 1, _match_aux at 1. rewrite Hg2 at 1. cbn [t token_eqb bind].
  rewrite value_eq, Hg3. cbn [t token_eqb].
  unfold _type. cbn [t line bind].
  rewrite Hl2, Hn, Z.add_0_r. reflexivity.
Qed.

Lemma missing_value_line_after_white_space_witness :
  read_config ([newline; " "%char; newline] ++ str "a = ")
  = mk_outcome 0 [] (Some (expected_a_value 3)).
Proof.
  apply (missing_value_line_after_white_space [newline; " "%char; newline]).
  reflexivity.
Defined.

(** ** The serialiser *)

Lemma indent_capped (level : nat) :
  (MAX_INDENT <= level)%nat -> indent level = indent MAX_INDENT.
Proof.
  intros H. unfold indent. rewrite Nat.min_r by exact H.
  rewrite Nat.min_id. reflexivity.
Qed.

Lemma write_config_capped (ch : list config_node) (level : nat) :
  Forall (fun c => forall l, (MAX_INDENT <= l)%nat ->
                             write_node l c = write_node MAX_INDENT c) ch ->
  (MAX_INDENT <= level)%nat ->
  _write_config ch level = _write_config ch MAX_INDENT.
Proof.
  intros Hall Hl. induction Hall as [|c ch Hc _ IH]; [reflexivity|].
  cbn [_write_config]. rewrite (Hc level Hl), IH. reflexivity.
Qed.

(** X5. Indentation stops growing at [MAX_INDENT]: from that nesting
    level on a node, with everything below it, is written the same at
    every level. *)
Theorem write_node_indent_capped (n : config_node) (level : nat) :
  (MAX_INDENT <= level)%nat -> write_node level n = write_node MAX_INDENT n.
Proof.
  revert level.
  induction n as [k ch vs IHch] using config_node_induction.
  intros level Hl. rewrite !write_node_eq, (indent_capped level Hl).
  destruct vs as [|x vs]; [|reflexivity].
  rewrite (write_config_capped ch (S level) IHch) by lia.
  rewrite (write_config_capped ch (S MAX_INDENT) IHch) by lia.
  reflexivity.
Qed.

Lemma write_node_indent_capped_witness :
  let n := mk_node (str "a") [mk_node (str "b") [] [CFG_INT 1]] [] in
  write_node 40 n = write_node MAX_INDENT n.
Proof.
  cbv zeta. apply write_node_indent_capped. apply Nat.leb_le. reflexivity.
Defined.

(** X6. The round trip holds for a tree built by any means, parsed or
    not: if it is not empty, its keys are identifiers without NUL, its
    sections hold no value and its bindings no child, its integers lie in
    0 .. 2^31 - 1, its floats are finite, not negative and equal to the
    float read from their own six decimals (as 0.25 and 1.5 are), and its
    strings have every quote escaped, no escaping backslash at the end and
    no NUL, then reading what [write_config] writes gives the tree back. *)
Theorem round_trip_of_well_formed_tree (root : list config_node) :
  root <> [] -> forallb wf_node root = true ->
  read_config (write_config root) = mk_outcome 1 root None.
Proof. apply round_trip_wf. Qed.

Lemma round_trip_of_well_formed_tree_witness :
  let root := [mk_node (str "devices")
                 [mk_node (str "scan") [] [CFG_STRING (str "/dev"); CFG_INT 7];
                  mk_node (str "ratio") [] [CFG_FLOAT (F_finite false (1 # 4));
                                            CFG_FLOAT (F_finite false (3 # 2))];
                  mk_node (str "empty") [] []] [];
               mk_node (str "umask") [] [CFG_INT 63]] in
  read_config (write_config root) = mk_outcome 1 root None.
Proof.
  cbv zeta. apply round_trip_of_well_formed_tree; [discriminate|reflexivity].
Defined.

(** ** Path lookup *)

Lemma find_config_node_walk (cn : list config_node) (path : list ascii) (sep : ascii) :
  find_config_node cn path sep = walk cn (segments sep path).
Proof. unfold find_config_node. rewrite find_loop_walk by lia. reflexivity. Qed.

Lemma walk_some (segs : list (list ascii)) :
  forall cn n, walk cn segs = Some n -> reachable cn n /\ key n = last segs [].
Proof.
  induction segs as [|seg rest IH]; intros cn n H; [discriminate|].
  cbn [walk] in H.
  destruct (find (fun m => same_bytes (key m) seg) cn) as [m|] eqn:Ef; [|discriminate].
  apply find_some in Ef. destruct Ef as [Hin Hkey]. apply same_bytes_true in Hkey.
  destruct rest as [|seg' rest].
  - injection H as <-. split; [apply reach_sibling; exact Hin|exact Hkey].
  - destruct (IH _ _ H) as [Hr Hk]. split.
    + apply (reach_child cn m n Hin Hr).
    + exact Hk.
Qed.

(** X7. What [find_config_node] returns is a node of the tree it was
    given, and its key is the last segment of the path. *)
Theorem found_node_is_in_tree
    (cn : list config_node) (path : list ascii) (sep : ascii) (n : config_node) :
  find_config_node cn path sep = Some n ->
  reachable cn n /\ key n = last (segments sep path) [].
Proof. rewrite find_config_node_walk. apply walk_some. Qed.

Lemma found_node_is_in_tree_witness :
  let cn := [mk_node (str "a") [mk_node (str "b") [] [CFG_INT 1]] []] in
  reachable cn (mk_node (str "b") [] [CFG_INT 1]) /\
  key (mk_node (str "b") [] [CFG_INT 1]) = last (segments "/" (str "a/b")) [].
Proof.
  cbv zeta. apply (found_node_is_in_tree _ (str "a/b") "/"). reflexivity.
Defined.

Lemma split_on_doubled (sep : ascii) (a b : list ascii) :
  exists s ss1 ss2,
    split_on sep (a ++ sep :: sep :: b) = s :: ss1 /\
    split_on sep (a ++ sep :: b) = s :: ss2 /\
    drop_empty ss1 = drop_empty ss2 /\ ss1 <> [] /\ ss2 <> [].
Proof.
  induction a as [|c a IH].
  - cbn [app split_on]. unfold eqc. rewrite Ascii.eqb_refl.
    exists [], ([] :: split_on sep b), (split_on sep b).
    split; [reflexivity|]. split; [reflexivity|].
    split; [|split; [discriminate|apply split_on_not_nil]].
    cbn [drop_empty]. destruct (split_on sep b) eqn:E; [|reflexivity].
    exfalso. exact (split_on_not_nil sep b E).
  - destruct IH as (s & ss1 & ss2 & H1 & H2 & Hd & Hn1 & Hn2).
    cbn [app split_on]. rewrite H1, H2.
    destruct (eqc sep c).
    + exists [], (s :: ss1), (s :: ss2).
      split; [reflexivity|]. split; [reflexivity|].
      split; [|split; discriminate].
      cbn [drop_empty]. destruct s; destruct ss1; destruct ss2;
        try contradiction; rewrite ?Hd; reflexivity.
    + exists (c :: s), ss1, ss2.
      split; [reflexivity|]. split; [reflexivity|]. auto.
Qed.

(** X8. Extra separators do not change what a path names: a separator in
    front of the path and a separator doubled anywhere inside it are
    ignored. *)
Theorem extra_separators_ignored
    (cn : list config_node) (a b : list ascii) (sep : ascii) :
  find_config_node cn (sep :: a) sep = find_config_node cn a sep /\
  find_config_node cn (a ++ sep :: sep :: b) sep
  = find_config_node cn (a ++ sep :: b) sep.
Proof.
  rewrite !find_config_node_walk. split.
  - rewrite segments_after_separator. reflexivity.
  - f_equal. unfold segments.
    destruct (split_on_doubled sep a b) as (s & ss1 & ss2 & H1 & H2 & Hd & Hn1 & Hn2).
    rewrite H1, H2. cbn [drop_empty].
    destruct s; destruct ss1; destruct ss2; try contradiction;
      rewrite Hd; reflexivity.
Qed.

Lemma split_on_trailing (sep : ascii) (path : list ascii) :
  exists s ss, split_on sep (path ++ [sep]) = s :: ss ++ [[]].
Proof.
  induction path as [|c path (s & ss & IH)].
  - cbn [app split_on]. unfold eqc. rewrite Ascii.eqb_refl.
    exists [], []. reflexivity.
  - cbn [app split_on]. rewrite IH. destruct (eqc sep c).
    + exists [], (s :: ss). reflexivity.
    + exists (c :: s), ss. reflexivity.
Qed.

Lemma last_drop_empty (ss : list (list ascii)) :
  last (drop_empty ss) [] = last ss [].
Proof.
  induction ss as [|s ss IH]; [reflexivity|].
  cbn [drop_empty]. destruct ss as [|s' ss'].
  - destruct s; reflexivity.
  - assert (Hne : drop_empty (s' :: ss') <> []) by (apply drop_empty_not_nil; discriminate).
    destruct s as [|c s].
    + rewrite IH. reflexivity.
    + change (last ((c :: s) :: s' :: ss') []) with (last (s' :: ss') []).
      rewrite <- IH. destruct (drop_empty (s' :: ss')); [contradiction|reflexivity].
Qed.

Lemma segments_last_after_separator (sep : ascii) (path : list ascii) :
  last (segments sep (path ++ [sep])) [] = [].
Proof.
  unfold segments. rewrite last_drop_empty.
  destruct (split_on_trailing sep path) as (s & ss & ->).
  change (s :: ss ++ [[]]) with ((s :: ss) ++ [[]]). apply last_last.
Qed.

(** X9. A path that ends in a separator finds nothing in a tree whose keys
    are not empty: the empty segment after the last separator has no
    match. *)
Theorem trailing_separator_finds_nothing
    (cn : list config_node) (path : list ascii) (sep : ascii) :
  (forall n, reachable cn n -> key n <> []) ->
  find_config_node cn (path ++ [sep]) sep = None.
Proof.
  intros Hk. destruct (find_config_node cn (path ++ [sep]) sep) as [n|] eqn:E;
    [|reflexivity].
  rewrite find_config_node_walk in E. apply walk_some in E. destruct E as [Hr Hkey].
  rewrite segments_last_after_separator in Hkey.
  exfalso. exact (Hk n Hr Hkey).
Qed.

Lemma trailing_separator_finds_nothing_witness :
  find_config_node [mk_node (str "a") [mk_node (str "b") [] [CFG_INT 1]] []]
    (str "a" ++ ["/"%char]) "/" = None.
Proof.
  apply trailing_separator_finds_nothing.
  intros n Hr Hk.
  inversion Hr as [cn n' Hin|cn m n' Hin Hr']; subst.
  - destruct Hin as [<-|[]]. discriminate Hk.
  - destruct Hin as [<-|[]]. cbn [child] in Hr'.
    inversion Hr' as [cn n' Hin'|cn m' n' Hin' Hr'']; subst.
    + destruct Hin' as [<-|[]]. discriminate Hk.
    + destruct Hin' as [<-|[]]. cbn [child] in Hr''.
      inversion Hr'' as [cn n' Hin''|cn m'' n' Hin'' _]; subst; destruct Hin''.
Defined.

Lemma segments_single (sep : ascii) (k : list ascii) :
  forallb (fun c => negb (eqc sep c)) k = true -> segments sep k = [k].
Proof.
  intros H. unfold segments.
  assert (E : split_on sep k = [k]).
  { induction k as [|c k IH]; [reflexivity|].
    cbn [forallb] in H. apply andb_true_iff in H. destruct H as [Hc Hk].
    apply negb_true_iff in Hc. cbn [split_on]. rewrite Hc, (IH Hk). reflexivity. }
  rewrite E. cbn [drop_empty]. destruct k; reflexivity.
Qed.

Lemma find_first (k : list ascii) (a : list config_node) (n : config_node)
    (b : list config_node) :
  key n = k -> (forall m, In m a -> key m <> k) ->
  find (fun m => same_bytes (key m) k) (a ++ n :: b) = Some n.
Proof.
  intros Hn Ha. induction a as [|m a IH].
  - cbn [app find]. replace (same_bytes (key n) k) with true; [reflexivity|].
    symmetry. apply same_bytes_true. exact Hn.
  - cbn [app find]. destruct (same_bytes (key m) k) eqn:E.
    + apply same_bytes_true in E. exfalso. apply (Ha m); [left; reflexivity|exact E].
    + apply IH. intros m' Hm'. apply Ha. right. exact Hm'.
Qed.

Lemma find_config_node_first
    (a : list config_node) (n : config_node) (b : list config_node) (sep : ascii) :
  forallb (fun c => negb (eqc sep c)) (key n) = true ->
  (forall m, In m a -> key m <> key n) ->
  find_config_node (a ++ n :: b) (key n) sep = Some n.
Proof.
  intros Hsep Ha. rewrite find_config_node_walk, (segments_single sep _ Hsep).
  cbn [walk]. rewrite (find_first (key n) a n b eq_refl Ha). reflexivity.
Qed.

(** X10. Among siblings with the same key the first one is found: a later
    node with that key is never returned for it. *)
Theorem first_sibling_wins
    (a : list config_node) (n : config_node) (b : list config_node) (sep : ascii) :
  forallb (fun c => negb (eqc sep c)) (key n) = true ->
  (forall m, In m a -> key m <> key n) ->
  find_config_node (a ++ n :: b) (key n) sep = Some n.
Proof. apply find_config_node_first. Qed.

Lemma first_sibling_wins_witness :
  let n := mk_node (str "k") [] [CFG_INT 1] in
  find_config_node ([mk_node (str "j") [] [CFG_INT 0]]
                      ++ n :: [mk_node (str "k") [] [CFG_INT 2]]) (key n) "/"
  = Some n.
Proof.
  cbv zeta. apply first_sibling_wins.
  - reflexivity.
  - intros m [<-|[]]. discriminate.
Defined.

(** X11. [_tok_match] accepts a key for a segment only when the two are
    the same bytes: a key that is a proper prefix of the segment, or the
    other way round, does not match. *)
Theorem tok_match_is_equality (s seg : list ascii) :
  _tok_match s seg = true <-> s = seg.
Proof. apply tok_match_true. Qed.

(** X12. Writing, reading and looking up compose: in a document that is
    well formed in the sense of X6, a top-level node whose key is free of
    the separator, and is not the key of a node before it, is found by its
    key in what [read_config] reads from the text [write_config] wrote,
    and the typed lookups return its first value when that is an integer,
    a string or a float. *)
Theorem lookup_after_write_and_read
    (a : list config_node) (n : config_node) (b : list config_node) (sep : ascii) :
  forallb wf_node (a ++ n :: b) = true ->
  forallb (fun c => negb (eqc sep c)) (key n) = true ->
  (forall m, In m a -> key m <> key n) ->
  let doc := cf_root (read_config (write_config (a ++ n :: b))) in
  find_config_node doc (key n) sep = Some n /\
  (forall i vs fail, v n = CFG_INT i :: vs ->
                     find_config_int doc (key n) sep fail = Returned i) /\
  (forall s vs fail, v n = CFG_STRING s :: vs ->
                     find_config_str doc (key n) sep fail = Returned (Some s)) /\
  (forall r vs fail, v n = CFG_FLOAT r :: vs ->
                     find_config_float doc (key n) sep fail = Returned r).
Proof.
  intros Hwf Hsep Ha doc.
  assert (Hdoc : doc = a ++ n :: b).
  { unfold doc. rewrite round_trip_wf; [reflexivity| |exact Hwf].
    destruct a; discriminate. }
  pose proof (find_config_node_first a n b sep Hsep Ha) as Hf.
  rewrite Hdoc. split; [exact Hf|]. split; [|split].
  - intros i vs fail Hv. unfold find_config_int. rewrite Hf, Hv. reflexivity.
  - intros s vs fail Hv. unfold find_config_str. rewrite Hf, Hv. reflexivity.
  - intros r vs fail Hv. unfold find_config_float. rewrite Hf, Hv. reflexivity.
Qed.

Lemma lookup_after_write_and_read_witness :
  let n := mk_node (str "umask") [] [CFG_INT 63] in
  let a := [mk_node (str "devices") [mk_node (str "scan") [] [CFG_STRING (str "/dev")]] []] in
  let doc := cf_root (read_config (write_config (a ++ n :: []))) in
  find_config_node doc (key n) "." = Some n /\
  (forall i vs fail, v n = CFG_INT i :: vs ->
                     find_config_int doc (key n) "." fail = Returned i) /\
  (forall s vs fail, v n = CFG_STRING s :: vs ->
                     find_config_str doc (key n) "." fail = Returned (Some s)) /\
  (forall r vs fail, v n = CFG_FLOAT r :: vs ->
                     find_config_float doc (key n) "." fail = Returned r).
Proof.
  cbv zeta. apply lookup_after_write_and_read.
  - reflexivity.
  - reflexivity.
  - intros m [<-|[]]. discriminate.
Defined.

(** ** Empty arrays *)

(** X19. A binding to the empty array is refused without a diagnostic:
    [_value] returns the null list head for it, which [_section] takes for
    a failure, so the read returns 0 with no tree and logs nothing. *)
Theorem empty_array_is_refused_silently (k : list ascii) :
  wf_key k = true ->
  read_config (k ++ str " = []") = mk_outcome 0 [] None.
Proof.
  intros Hk. unfold read_config.
  set (buf := k ++ str " = []").
  set (q := mk_parser buf TOK_EOF 0 0 1).
  assert (Hnn : no_nul k = true).
  { destruct k as [|c k]; [discriminate|]. unfold wf_key in Hk.
    apply andb_true_iff in Hk. apply Hk. }
  assert (Hq : ahead q ([] ++ k ++ str " = []")).
  { split; [apply Nat.le_0_l|reflexivity]. }
  pose proof (get_token_ident q [] k (str " = []") Hq eq_refl Hk) as Hg1.
  assert (He : ends_ident (str " = []")) by (vm_compute; auto).
  specialize (Hg1 He).
  cbn [te line fb q List.length Nat.add] in Hg1.
  set (p1 := _get_token q) in *.
  assert (Hq1 : ahead p1 ([" "%char] ++ "="%char :: str " []")).
  { rewrite Hg1.
    change (List.length k) with (te q + List.length k)%nat.
    apply (ahead_mk q _ _ _ _ k); [exact Hq|reflexivity]. }
  pose proof (get_token_single p1 [" "%char] "=" (str " []") TOK_EQ Hq1 eq_refl eq_refl)
    as Hg2.
  set (p2 := _get_token p1) in *.
  assert (Hq2 : ahead p2 ([" "%char] ++ "["%char :: str "]")).
  { rewrite Hg2.
    replace (S (te p1 + List.length [" "%char]))
      with (te p1 + List.length [" "%char; "="%char])%nat by (cbn [List.length]; lia).
    apply (ahead_mk p1 _ _ _ _ [" "%char; "="%char]); [exact Hq1|reflexivity]. }
  pose proof (get_token_single p2 [" "%char] "[" (str "]") TOK_ARRAY_B Hq2 eq_refl eq_refl)
    as Hg3.
  set (p3 := _get_token p2) in *.
  assert (Hq3 : ahead p3 ([] ++ "]"%char :: [])).
  { rewrite Hg3.
    replace (S (te p2 + List.length [" "%char]))
      with (te p2 + List.length [" "%char; "["%char])%nat by (cbn [List.length]; lia).
    apply (ahead_mk p2 _ _ _ _ [" "%char; "["%char]); [exact Hq2|reflexivity]. }
  pose proof (get_token_single p3 [] "]" [] TOK_ARRAY_E Hq3 eq_refl eq_refl) as Hg4.
  set (p4 := _get_token p3) in *.
  assert (Hf : exists f, parse_fuel buf = S (S (S (S f)))).
  { unfold parse_fuel, buf. rewrite length_app. cbn [List.length str].
    exists (2 * List.length k + 2 * 5 - 2)%nat. 
    change (List.length (str " = []")) with 5%nat. lia. }
  destruct Hf as [f ->].
  rewrite file_eq. rewrite Hg1 at 1. cbn [t token_eqb].
  rewrite section_eq.
  assert (Hdup : _dup_tok p1 = Ok k).
  { rewrite Hg1.
    change (_dup_tok (mk_parser buf TOK_IDENTIFIER (te q + List.length (@nil ascii))
                        (te q + List.length (@nil ascii) + List.length k) 1) = Ok k).
    apply (dup_tok_written q _ _ [] k _ Hq Hnn). }
  rewrite Hdup. cbn [bind].
  unfold match_ at 1, _match_aux at 1. rewrite Hg1 at 1. cbn [t token_eqb bind].
  fold p2. rewrite Hg2 at 1. cbn [t token_eqb].
  unfold match_ at 1, _match_aux at 1. rewrite Hg2 at 1. cbn [t token_eqb bind].
  fold p3. rewrite value_eq. rewrite Hg3 at 1. cbn [t token_eqb].
  unfold match_ at 1, _match_aux at 1. rewrite Hg3 at 1. cbn [t token_eqb bind].
  fold p4. rewrite array_body_eq. rewrite Hg4 at 1. cbn [t token_eqb bind].
  unfold match_ at 1, _match_aux at 1. rewrite Hg4 at 1. cbn [t token_eqb bind].
  reflexivity.
Qed.

Lemma empty_array_is_refused_silently_witness :
  read_config (str "filter = []") = mk_outcome 0 [] None.
Proof.
  apply (empty_array_is_refused_silently (str "filter")). reflexivity.
Defined.

(** * Properties of the MD probe *)

(** C9, as stated, fails on a device of fewer than 256 sectors: the magic
    sits at the tail-aligned offset, yet the probe answers 0 without
    opening the device or reading from it. *)
Lemma small_device_is_not_probed :
  let dev := DevMd.mk_device (Some 200) true (fun _ => Some DevMd.MD_SB_MAGIC) true in
  DevMd._dev_has_md_magic (fun x => x) dev
    (DevMd.u64 (Z.shiftl (DevMd.MD_NEW_SIZE_SECTORS 200) 9)) = true /\
  DevMd.dev_is_md 9 (fun x => x) dev true
  = Some (DevMd.mk_probe 0 None [DevMd.ev_get_size]).
Proof. split; reflexivity. Qed.

(** C9, amended. A failed size query gives -1; a device of fewer than 256
    sectors gives 0 and is neither opened nor read; a failed open gives -1.
    Otherwise the device is opened, the four candidate offsets are read in
    order up to the first that holds the magic (compared with MD_SB_MAGIC
    and with xlate32(MD_SB_MAGIC)), the device is closed, and the answer is
    1 with that offset, or 0 when none holds it. *)
Theorem dev_is_md_probe_spec
    (SECTOR_SHIFT : Z) (xlate32 : Z -> Z) (dev : DevMd.device) (want_sb : bool) :
  DevMd.dev_is_md SECTOR_SHIFT xlate32 dev want_sb
  = Some (DevMd.probe_spec SECTOR_SHIFT xlate32 dev want_sb).
Proof.
  unfold DevMd.dev_is_md, DevMd.probe_spec.
  destruct (DevMd.dev_get_size dev) as [size|]; [|reflexivity].
  change (DevMd.MD_RESERVED_SECTORS * 2) with 256.
  destruct (size <? 256); [reflexivity|].
  destruct (DevMd.dev_open dev); [|reflexivity].
  cbn [negb DevMd.candidates DevMd.probe_until].
  destruct (DevMd._dev_has_md_magic xlate32 dev _) eqn:E0; [reflexivity|].
  cbn [DevMd.v1_loop DevMd._v1_sb_offset].
  change (8 * 2) with 16. change (4 * 2 - 1) with 7. change (4 * 2) with 8.
  destruct (DevMd._dev_has_md_magic xlate32 dev
              (DevMd.u64 (Z.shiftl (Z.land _ _) SECTOR_SHIFT))) eqn:E1;
    [reflexivity|].
  change (0 + 1 <=? 2) with true. cbn iota.
  change (0 + 1) with 1. cbn [DevMd.v1_loop DevMd._v1_sb_offset].
  destruct (DevMd._dev_has_md_magic xlate32 dev
              (DevMd.u64 (Z.shiftl 0 SECTOR_SHIFT))) eqn:E2; [reflexivity|].
  change (1 + 1 <=? 2) with true. cbn iota.
  change (1 + 1) with 2. cbn [DevMd.v1_loop DevMd._v1_sb_offset].
  change (4 * 2) with 8. change (2 + 1 <=? 2) with false. cbn iota.
  destruct (DevMd._dev_has_md_magic xlate32 dev
              (DevMd.u64 (Z.shiftl 8 SECTOR_SHIFT))) eqn:E3;
    destruct want_sb; reflexivity.
Qed.

(** * Further properties of the MD probe *)

Lemma land_lnot_ones (a : Z) (n : Z) :
  0 <= n -> Z.land a (Z.lnot (Z.ones n)) = 2 ^ n * (a / 2 ^ n).
Proof.
  intros Hn. rewrite <- Z.ldiff_land, Z.ldiff_ones_r by exact Hn.
  rewrite Z.shiftl_mul_pow2, Z.shiftr_div_pow2 by exact Hn. lia.
Qed.

(** X13. For a device of at least 128 sectors [MD_NEW_SIZE_SECTORS] is
    the size rounded down to a multiple of 128 sectors, less 128: the
    version 0.90.0 superblock starts on a 64 KiB boundary, at least 64 KiB
    and less than 128 KiB before the end of the device. *)
Theorem md_new_size_sectors_bounds (x : Z) :
  128 <= x < 2 ^ 64 ->
  DevMd.MD_NEW_SIZE_SECTORS x = 128 * (x / 128) - 128 /\
  x - 256 < DevMd.MD_NEW_SIZE_SECTORS x <= x - 128 /\
  DevMd.MD_NEW_SIZE_SECTORS x mod 128 = 0.
Proof.
  intros Hx. unfold DevMd.MD_NEW_SIZE_SECTORS, DevMd.u64.
  change (DevMd.MD_RESERVED_SECTORS - 1) with (Z.ones 7).
  change DevMd.MD_RESERVED_SECTORS with 128.
  rewrite land_lnot_ones by lia. change (2 ^ 7) with 128.
  pose proof (Z.div_mod x 128 ltac:(lia)) as Hd.
  pose proof (Z.mod_pos_bound x 128 ltac:(lia)) as Hm.
  assert (Hq : 1 <= x / 128) by (apply Z.div_le_lower_bound; lia).
  rewrite Z.mod_small by lia.
  split; [reflexivity|]. split; [lia|].
  replace (128 * (x / 128) - 128) with ((x / 128 - 1) * 128) by lia.
  apply Z.mod_mul. lia.
Qed.

Lemma md_new_size_sectors_bounds_witness :
  DevMd.MD_NEW_SIZE_SECTORS 1000 = 128 * (1000 / 128) - 128 /\
  1000 - 256 < DevMd.MD_NEW_SIZE_SECTORS 1000 <= 1000 - 128 /\
  DevMd.MD_NEW_SIZE_SECTORS 1000 mod 128 = 0.
Proof. apply md_new_size_sectors_bounds. lia. Defined.

Lemma land_u64_lnot_7 (a : Z) :
  0 <= a < 2 ^ 64 ->
  Z.land a (DevMd.u64 (Z.lnot 7)) = 8 * (a / 8).
Proof.
  intros Ha. unfold DevMd.u64.
  rewrite <- (Z.land_ones (Z.lnot 7) 64) by lia.
  rewrite Z.land_assoc, (Z.land_comm a), <- Z.land_assoc.
  rewrite (Z.land_ones a 64) by lia. rewrite Z.mod_small by lia.
  change 7 with (Z.ones 3). rewrite Z.land_comm, land_lnot_ones by lia. reflexivity.
Qed.

(** X14. For minor version 0 the superblock offset is the device size
    less 16 sectors, rounded down to a multiple of 8 sectors and turned
    into bytes: it starts at least 16 and fewer than 24 sectors before the
    end of the device. This holds as long as the size in bytes fits 64
    bits. *)
Theorem v1_sb_offset_minor_0 (SECTOR_SHIFT size : Z) :
  0 <= SECTOR_SHIFT -> 16 <= size -> size * 2 ^ SECTOR_SHIFT < 2 ^ 64 ->
  DevMd._v1_sb_offset SECTOR_SHIFT size 0
  = Some (8 * ((size - 16) / 8) * 2 ^ SECTOR_SHIFT) /\
  size - 24 < 8 * ((size - 16) / 8) <= size - 16.
Proof.
  intros Hs Hsz Hfit. unfold DevMd._v1_sb_offset.
  change (8 * 2) with 16. change (4 * 2 - 1) with 7.
  assert (Hp : 1 <= 2 ^ SECTOR_SHIFT) by (apply (Z.pow_le_mono_r 2 0); lia).
  assert (Hlt : size < 2 ^ 64) by nia.
  pose proof (Z.div_mod (size - 16) 8 ltac:(lia)) as Hd.
  pose proof (Z.mod_pos_bound (size - 16) 8 ltac:(lia)) as Hm.
  assert (Hq : 0 <= (size - 16) / 8) by (apply Z.div_pos; lia).
  assert (Hu : DevMd.u64 (size - 16) = size - 16)
    by (unfold DevMd.u64; apply Z.mod_small; lia).
  rewrite Hu, land_u64_lnot_7 by lia.
  rewrite Z.shiftl_mul_pow2 by exact Hs.
  unfold DevMd.u64. rewrite Z.mod_small by nia.
  split; [reflexivity|lia].
Qed.

Lemma v1_sb_offset_minor_0_witness :
  DevMd._v1_sb_offset 9 1000 0 = Some (8 * ((1000 - 16) / 8) * 2 ^ 9) /\
  1000 - 24 < 8 * ((1000 - 16) / 8) <= 1000 - 16.
Proof. apply v1_sb_offset_minor_0; lia. Defined.

Ltac probe_cases SECTOR_SHIFT xlate32 dev :=
  unfold DevMd.dev_is_md;
  destruct (DevMd.dev_get_size dev) as [size|];
  [ change (DevMd.MD_RESERVED_SECTORS * 2) with 256;
    destruct (size <? 256);
    [ | destruct (DevMd.dev_open dev) eqn:Eopen;
        [ cbn [negb];
          destruct (DevMd._dev_has_md_magic xlate32 dev
                      (DevMd.u64 (Z.shiftl (DevMd.MD_NEW_SIZE_SECTORS size)
                                    SECTOR_SHIFT))) eqn:E0;
          [ | cbn [DevMd.v1_loop DevMd._v1_sb_offset];
              destruct (DevMd._dev_has_md_magic xlate32 dev
                          (DevMd.u64 (Z.shiftl
                             (Z.land (DevMd.u64 (size - 8 * 2))
                                (DevMd.u64 (Z.lnot (4 * 2 - 1)))) SECTOR_SHIFT)))
                eqn:E1;
              [ | change (0 + 1 <=? 2) with true; cbn iota;
                  change (0 + 1) with 1;
                  cbn [DevMd.v1_loop DevMd._v1_sb_offset];
                  destruct (DevMd._dev_has_md_magic xlate32 dev
                              (DevMd.u64 (Z.shiftl 0 SECTOR_SHIFT))) eqn:E2;
                  [ | change (1 + 1 <=? 2) with true; cbn iota;
                      change (1 + 1) with 2;
                      cbn [DevMd.v1_loop DevMd._v1_sb_offset];
                      change (2 + 1 <=? 2) with false; cbn iota;
                      destruct (DevMd._dev_has_md_magic xlate32 dev
                                  (DevMd.u64 (Z.shiftl (4 * 2) SECTOR_SHIFT)))
                        eqn:E3 ] ] ]
        | cbn [negb] ] ]
  | ].

(** X15. A device is reported as an MD component only on evidence: when
    [dev_is_md] returns 1, the magic was read at one of the offsets it
    tried, and that offset is the one stored through [sb]; when it returns
    anything else, [sb] is left alone. *)
Theorem dev_is_md_present_is_sound
    (SECTOR_SHIFT : Z) (xlate32 : Z -> Z) (dev : DevMd.device) (want_sb : bool)
    (pr : DevMd.probe) :
  DevMd.dev_is_md SECTOR_SHIFT xlate32 dev want_sb = Some pr ->
  (DevMd.ret pr = 1 ->
   exists off,
     In (DevMd.ev_read off) (DevMd.trace pr) /\
     DevMd._dev_has_md_magic xlate32 dev off = true /\
     (want_sb = true -> DevMd.sb pr = Some off)) /\
  (DevMd.ret pr <> 1 -> DevMd.sb pr = None).
Proof.
  probe_cases SECTOR_SHIFT xlate32 dev;
    intros H; injection H as <-; cbn [DevMd.ret DevMd.sb DevMd.trace];
    (split; [intros Hr; try discriminate Hr | intros Hr; try reflexivity;
                                              try (exfalso; apply Hr; reflexivity)]);
    eexists; (split; [|split; [eassumption|intros ->; reflexivity]]);
    cbn [app In]; tauto.
Qed.

Lemma dev_is_md_present_is_sound_witness :
  let dev := DevMd.mk_device (Some 1000) true
               (fun off => if off =? 4096 then Some DevMd.MD_SB_MAGIC else Some 0) true in
  let pr := DevMd.mk_probe 1 (Some 4096)
              [DevMd.ev_get_size; DevMd.ev_open; DevMd.ev_read 393216;
               DevMd.ev_read 503808; DevMd.ev_read 0; DevMd.ev_read 4096;
               DevMd.ev_close] in
  (DevMd.ret pr = 1 ->
   exists off,
     In (DevMd.ev_read off) (DevMd.trace pr) /\
     DevMd._dev_has_md_magic (fun x => x) dev off = true /\
     (true = true -> DevMd.sb pr = Some off)) /\
  (DevMd.ret pr <> 1 -> DevMd.sb pr = None).
Proof.
  cbv zeta. apply (dev_is_md_present_is_sound 9). vm_compute. reflexivity.
Defined.

(** X16. The device is closed whenever it was opened: if [dev_open]
    succeeds, [dev_close] is the last call made, after every read, on each
    path through the probe; if the size query fails, the device is small
    or [dev_open] fails, nothing is read. *)
Theorem dev_is_md_closes_what_it_opens
    (SECTOR_SHIFT : Z) (xlate32 : Z -> Z) (dev : DevMd.device) (want_sb : bool)
    (pr : DevMd.probe) :
  DevMd.dev_is_md SECTOR_SHIFT xlate32 dev want_sb = Some pr ->
  (In DevMd.ev_open (DevMd.trace pr) -> DevMd.dev_open dev = true ->
   last (DevMd.trace pr) DevMd.ev_get_size = DevMd.ev_close) /\
  ((exists off, In (DevMd.ev_read off) (DevMd.trace pr)) ->
   In DevMd.ev_open (DevMd.trace pr) /\ DevMd.dev_open dev = true).
Proof.
  probe_cases SECTOR_SHIFT xlate32 dev;
    intros H; injection H as <-; cbn [DevMd.ret DevMd.sb DevMd.trace app];
    (split;
     [ intros Hin Ho; try reflexivity; try discriminate Ho;
       try (cbn [In] in Hin; destruct Hin as [Hin|[]]; discriminate Hin)
     | intros [off Hin]; cbn [In] in *;
       try (split; [tauto|reflexivity]);
       repeat (destruct Hin as [Hin|Hin]; try discriminate Hin);
       try contradiction ]).
Qed.

Lemma dev_is_md_closes_what_it_opens_witness :
  let dev := DevMd.mk_device (Some 1000) true (fun _ => Some 0) true in
  let pr := DevMd.mk_probe 0 None
              [DevMd.ev_get_size; DevMd.ev_open; DevMd.ev_read 393216;
               DevMd.ev_read 503808; DevMd.ev_read 0; DevMd.ev_read 4096;
               DevMd.ev_close] in
  (In DevMd.ev_open (DevMd.trace pr) -> DevMd.dev_open dev = true ->
   last (DevMd.trace pr) DevMd.ev_get_size = DevMd.ev_close) /\
  ((exists off, In (DevMd.ev_read off) (DevMd.trace pr)) ->
   In DevMd.ev_open (DevMd.trace pr) /\ DevMd.dev_open dev = true).
Proof.
  cbv zeta. apply (dev_is_md_closes_what_it_opens 9 (fun x => x) _ false).
  vm_compute. reflexivity.
Defined.
